(** * Discriminator modules of core/discriminator.py

    A shallow embedding of the five [nn.Module] classes of
    [core/discriminator.py] ([Dblock], [MSGDiscriminator],
    [MultiMSGDiscriminator], [MelGANDiscriminator],
    [MultiScaleDiscriminator]) on top of a small model of the part of the
    tensor framework they call.

    Tensors are Python objects: a forward pass receives references, the
    in-place activations ([nn.LeakyReLU(0.2, True)]) overwrite the object
    they are given, and the parameters of a layer are tensors as well.  A
    weight-normalised convolution moreover has an attribute [weight] that
    its hook binds to a new tensor before every forward.  The embedding
    therefore keeps a state with all tensors ([tensors], a [heap]) and the
    [weight] attributes ([attrs]), and writes every [forward] and every
    constructor as a computation over that state which may raise.  Each
    [forward] is then related to a store-free reading of the same method
    ([Dblock_den], [MSG_den], ...), from which the statements about shapes,
    ordering and repeated calls are derived.

    Sizes and counts (channel numbers, lengths, [n_layers], [num_D]) are
    natural numbers; [range(1, n + 1)] is [seq 1 n] and ["layer_%d" % n] is
    ["layer_" +:+ pretty n]. *)

From Stdlib Require QArith.
From stdpp Require Import base list strings pretty.

Set Default Proof Using "Type*".

(** ** The tensor framework, as far as the repository uses it *)

(** The numeric kernels are the framework's; the repository never looks at
    the numbers.  They are kept abstract. *)
Class Kernels (V : Type) := {
  (** value the framework's initialiser gives a fresh parameter tensor
      (stored at the given address, of the given shape) *)
  k_param : nat → list nat → V;
  (** effect of [utils.util.weights_init] on one parameter tensor *)
  k_weights_init : V → V;
  (** the norm of a weight over all but its first dimension, the initial
      [weight_g] of [nn.utils.weight_norm] *)
  k_norm_except_dim : V → V;
  (** [weight = g * v / ||v||] of [nn.utils.weight_norm] *)
  k_weight_norm : V → V → V;
  (** [conv1d], by stride and padding, of weight, bias and input *)
  k_conv1d : nat → nat → V → V → V → V;
  k_leaky_relu : QArith_base.Q → V → V;
  k_add : V → V → V;
  (** [avg_pool1d], by kernel size, stride, padding, count_include_pad *)
  k_avg_pool1d : nat → nat → nat → bool → V → V;
  (** [torch.flatten(_, 1, -1)] *)
  k_flatten : V → V
}.

(** Argument checks of the framework's operators that the modules of this
    file can run into. *)
Inductive check :=
  | ChannelMismatch     (* input channels differ from the layer's in_channels *)
  | InputTooShort       (* padded input shorter than the kernel *)
  | EmptyInput          (* pooling a tensor without channels or time steps *)
  | PadTooLarge         (* pooling pad larger than half the kernel *)
  | NotBroadcastable    (* operands of [+] do not broadcast *)
  | WrongRank           (* the operator does not take a tensor of this rank *)
  | EmptyWeight.        (* weight norm of a weight without output channels *)

(** Exceptions.  [TorchError] is raised by a framework operator,
    [TypeError] when a module is called with the wrong number of positional
    arguments for its [forward], [IndexError] by indexing a Python list.
    The repository defines no exception class and has no [raise] statement.
    [Dangling] stands for the use of a reference to no object; Python has no
    such thing and live references never produce it. *)
Inductive exn :=
  | TorchError (c : check)
  | TypeError
  | IndexError
  | Dangling.

Definition bindE {A B} (r : exn + A) (f : A → exn + B) : exn + B :=
  match r with inl e => inl e | inr a => f a end.

Notation "'let?' p ':=' r 'in' f" := (bindE r (fun p => f))
  (at level 10, p pattern, r at level 100, f at level 200, only parsing).

(** *** Shape arithmetic *)

(** Output length of a convolution or pooling window (dilation 1,
    [ceil_mode=False]); only used once the padded input is known to be at
    least as long as the kernel. *)
Definition out_len (kernel stride pad l : nat) : nat :=
  (l + 2 * pad - kernel) / stride + 1.

(** One dimension of a broadcast. *)
Definition bdim (a b : nat) : option nat :=
  if decide (a = b) then Some a
  else if decide (a = 1) then Some b
  else if decide (b = 1) then Some a
  else None.

(** Broadcasting aligns the trailing dimensions; the lists are reversed
    shapes. *)
Fixpoint broadcast_rev (a b : list nat) : option (list nat) :=
  match a, b with
  | [], _ => Some b
  | _, [] => Some a
  | x :: a', y :: b' =>
      match bdim x y, broadcast_rev a' b' with
      | Some d, Some r => Some (d :: r)
      | _, _ => None
      end
  end.

Definition broadcast (a b : list nat) : option (list nat) :=
  reverse <$> broadcast_rev (reverse a) (reverse b).

(** ** Layers *)

Abbreviation loc := nat.

Record Conv1d := {
  in_channels : nat;
  out_channels : nat;
  kernel_size : nat;
  stride : nat;
  padding : nat;
  (** [nn.utils.weight_norm] replaces the parameter [weight] by the
      parameters [weight_g] and [weight_v]; [weight] becomes a plain
      attribute, which its hook binds to a new tensor before each forward.
      The field is the name of that attribute in the state. *)
  weight : nat;
  weight_g : loc;
  weight_v : loc;
  bias : loc
}.

Record LeakyReLU := {
  negative_slope : QArith_base.Q;
  inplace : bool
}.

Record AvgPool1d := {
  pool_kernel_size : nat;
  pool_stride : nat;
  pool_padding : nat;
  count_include_pad : bool
}.

Inductive layer :=
  | LConv (c : Conv1d)
  | LLeaky (a : LeakyReLU).

(** [nn.Sequential] *)
Definition Sequential := list layer.

(** [nn.ModuleDict]: an ordered dictionary.  Assigning to a key that is
    present replaces the value where it stands, a new key goes to the end. *)
Definition ModuleDict (A : Type) := list (string * A).

Fixpoint setitem {A} (key : string) (m : A) (d : ModuleDict A) : ModuleDict A :=
  match d with
  | [] => [(key, m)]
  | (k, m') :: d' =>
      if decide (k = key) then (key, m) :: d' else (k, m') :: setitem key m d'
  end.

Definition items {A} (d : ModuleDict A) : list (string * A) := d.

(** ** The modules of the repository (their attributes) *)

Record Dblock := {
  input_spec : Conv1d;
  input_cond : Conv1d;
  output_spec : Sequential;
  output_cond : Sequential
}.

Record MSGDiscriminator := {
  disc_spec : Conv1d;
  disc_cond : Conv1d;
  discriminator : ModuleDict Dblock
}.

Record MultiMSGDiscriminator := {
  model : ModuleDict MSGDiscriminator;
  downsample : AvgPool1d
}.

(** An entry of [MelGANDiscriminator.discriminator]: a [Sequential] or a
    bare layer. *)
Inductive entry :=
  | ESeq (ls : Sequential)
  | ELayer (l : layer).

Record MelGANDiscriminator := {
  mg_discriminator : ModuleDict entry
}.

Record MultiScaleDiscriminator := {
  ms_model : ModuleDict MSGDiscriminator;
  ms_downsample : AvgPool1d
}.

(** [nn.LeakyReLU(0.2, True)] *)
Definition lrelu : LeakyReLU :=
  {| negative_slope := QArith_base.Qmake 2 10; inplace := true |}.

(** A tensor: its shape and the numbers in it. *)
Record Tensor (V : Type) := {
  shape : list nat;
  data : V
}.

Arguments shape {V} _.
Arguments data {V} _.

(** Attributes that are assigned after their module was made, each with
    the tensor it is bound to: a dictionary, kept as an association list.
    These are the [weight] attributes of the weight-normalised
    convolutions; an attribute is named by a number. *)
Definition Attrs := list (nat * loc).

Fixpoint getattr (a : nat) (m : Attrs) : option loc :=
  match m with
  | [] => None
  | (k, l) :: m' => if decide (k = a) then Some l else getattr a m'
  end.

(** Assignment binds the attribute, whether it was bound before or not. *)
Fixpoint bind_attr (a : nat) (l : loc) (m : Attrs) : Attrs :=
  match m with
  | [] => [(a, l)]
  | (k, l') :: m' =>
      if decide (k = a) then (a, l) :: m' else (k, l') :: bind_attr a l m'
  end.

(** A number that names no attribute of [m]. *)
Definition fresh_attr (m : Attrs) : nat := S (max_list (map fst m)).

(** The state of a program: the tensors and the attributes. *)
Record State (V : Type) := {
  tensors : list (Tensor V);
  attrs : Attrs
}.

Arguments tensors {V} _.
Arguments attrs {V} _.

(** A state is read as its tensors wherever a list of tensors is expected,
    and [s !! l] is the tensor at [l]. *)
Coercion tensors : State >-> list.

Global Instance State_lookup {V} : Lookup loc (Tensor V) (State V) :=
  fun l s => tensors s !! l.

(** A free interpretation of the kernels: a value is the expression that
    produced it.  It is used to run the modules on concrete inputs. *)
Inductive sym :=
  | SInput (name : nat)
  | SParam (addr : nat) (shp : list nat)
  | SInit (x : sym)
  | SNormOf (v : sym)
  | SNorm (g v : sym)
  | SConv (stride pad : nat) (w b x : sym)
  | SLeaky (slope : QArith_base.Q) (x : sym)
  | SAdd (a b : sym)
  | SPool (kernel stride pad : nat) (count_pad : bool) (x : sym)
  | SFlatten (x : sym).

Global Instance sym_kernels : Kernels sym := {|
  k_param := SParam;
  k_weights_init := SInit;
  k_norm_except_dim := SNormOf;
  k_weight_norm := SNorm;
  k_conv1d := SConv;
  k_leaky_relu := SLeaky;
  k_add := SAdd;
  k_avg_pool1d := SPool;
  k_flatten := SFlatten
|}.

(** A named input tensor of the given shape. *)
Definition input (name : nat) (shp : list nat) : Tensor sym :=
  {| shape := shp; data := SInput name |}.

(** The state of a program that has made no tensor yet. *)
Definition start : State sym := {| tensors := []; attrs := [] |}.

Section Discriminator.

Context {V : Type} `{!Kernels V}.

Abbreviation tensor := (Tensor V).

(** ** The state and computations over it *)

Abbreviation heap := (list tensor).

Abbreviation state := (State V).

Definition M (A : Type) : Type := state → (exn + A) * state.

Definition ret {A} (a : A) : M A := fun h => (inr a, h).
Definition raise {A} (e : exn) : M A := fun h => (inl e, h).
Definition bind {A B} (m : M A) (f : A → M B) : M B :=
  fun h => match m h with
           | (inr a, h') => f a h'
           | (inl e, h') => (inl e, h')
           end.
Definition lift {A} (r : exn + A) : M A := fun h => (r, h).

Notation "'let!' p ':=' m 'in' f" := (bind m (fun p => f))
  (at level 10, p pattern, m at level 100, f at level 200, only parsing).

Definition alloc (t : tensor) : M loc :=
  fun h => (inr (length h), {| tensors := h ++ [t]; attrs := attrs h |}).
Definition load (l : loc) : M tensor :=
  fun h => match tensors h !! l with
           | Some t => (inr t, h)
           | None => (inl Dangling, h)
           end.
Definition store (l : loc) (t : tensor) : M unit :=
  fun h => (inr tt, {| tensors := <[l := t]> (tensors h); attrs := attrs h |}).

(** [setattr]: the attribute is bound to [l], whether it was bound before
    or not.  [new_attr] binds an attribute that no module has yet. *)
Definition setattr (a : nat) (l : loc) : M unit :=
  fun h => (inr tt, {| tensors := h; attrs := bind_attr a l (attrs h) |}).
Definition new_attr (l : loc) : M nat :=
  fun h => let a := fresh_attr (attrs h) in
           (inr a, {| tensors := h; attrs := bind_attr a l (attrs h) |}).

(** The state [h] with the tensors [ts] added. *)
Definition with_tensors (h : state) (ts : list tensor) : state :=
  {| tensors := h ++ ts; attrs := attrs h |}.

(** Reading a parameter in the store-free reading. *)
Definition get (E : heap) (l : loc) : exn + tensor :=
  match E !! l with Some t => inr t | None => inl Dangling end.

(** *** Operators on tensor values

    The operators are the framework's: what follows is their contract on
    shapes, with the checks they make before they compute, in the order in
    which they make them.  [Conv1d] and [AvgPool1d] take a batched tensor
    [(batch, channels, length)] or an unbatched one [(channels, length)]. *)

(** [weight = g * v / ||v||], the tensor the hook of weight norm makes. *)
Definition weight_norm_pure (g v : tensor) : tensor :=
  {| shape := shape v; data := k_weight_norm (data g) (data v) |}.

(** The checks of a convolution (dilation 1, one group, as everywhere in
    this file) on an input of [ci] channels and length [l], and the
    channels and length of its output: the input must have [in_channels]
    channels and, once padded, be at least as long as the kernel.  An input
    without channels gives an output without channels. *)
Definition conv1d_dims (c : Conv1d) (ci l : nat) : exn + (nat * nat) :=
  if decide (ci = in_channels c) then
    if decide (kernel_size c ≤ l + 2 * padding c) then
      inr (if decide (ci = 0) then 0 else out_channels c,
           out_len (kernel_size c) (stride c) (padding c) l)
    else inl (TorchError InputTooShort)
  else inl (TorchError ChannelMismatch).

Definition conv1d_pure (c : Conv1d) (w b x : tensor) : exn + tensor :=
  let d := k_conv1d (stride c) (padding c) (data w) (data b) (data x) in
  match shape x with
  | [n; ci; l] =>
      let? (co, lo) := conv1d_dims c ci l in
      inr {| shape := [n; co; lo]; data := d |}
  | [ci; l] =>
      let? (co, lo) := conv1d_dims c ci l in
      inr {| shape := [co; lo]; data := d |}
  | _ => inl (TorchError WrongRank)
  end.

Definition leaky_pure (a : LeakyReLU) (x : tensor) : tensor :=
  {| shape := shape x; data := k_leaky_relu (negative_slope a) (data x) |}.

Definition add_pure (a b : tensor) : exn + tensor :=
  match broadcast (shape a) (shape b) with
  | Some s => inr {| shape := s; data := k_add (data a) (data b) |}
  | None => inl (TorchError NotBroadcastable)
  end.

(** The checks of [AvgPool1d] ([ceil_mode=False]) on an input of length
    [l], [nonempty] saying that it has channels and time steps, and the
    length of its output: the pad must be at most half the window, the
    input not be empty, and the padded input be at least as long as the
    window, or there would be no output. *)
Definition avg_pool1d_len (p : AvgPool1d) (nonempty : Prop)
    `{!Decision nonempty} (l : nat) : exn + nat :=
  if decide (2 * pool_padding p ≤ pool_kernel_size p) then
    if decide nonempty then
      if decide (pool_kernel_size p ≤ l + 2 * pool_padding p) then
        inr (out_len (pool_kernel_size p) (pool_stride p) (pool_padding p) l)
      else inl (TorchError InputTooShort)
    else inl (TorchError EmptyInput)
  else inl (TorchError PadTooLarge).

(** A batched input may have an empty batch, an unbatched one no
    channels. *)
Definition avg_pool1d_pure (p : AvgPool1d) (x : tensor) : exn + tensor :=
  let d := k_avg_pool1d (pool_kernel_size p) (pool_stride p)
             (pool_padding p) (count_include_pad p) (data x) in
  match shape x with
  | [n; c; l] =>
      let? lo := avg_pool1d_len p (1 ≤ c ∧ 1 ≤ l) l in
      inr {| shape := [n; c; lo]; data := d |}
  | [c; l] =>
      let? lo := avg_pool1d_len p (1 ≤ l) l in
      inr {| shape := [c; lo]; data := d |}
  | _ => inl (TorchError WrongRank)
  end.

(** [torch.flatten(t, 1, -1)].  The result may share memory with [t];
    nothing writes to either afterwards, and it is kept as an object of its
    own. *)
Definition flatten_pure (x : tensor) : exn + tensor :=
  match shape x with
  | n :: d :: ds =>
      inr {| shape := [n; foldr Nat.mul 1 (d :: ds)]; data := k_flatten (data x) |}
  | _ => inl (TorchError WrongRank)
  end.

(** *** The operators as computations *)

(** Calling a weight-normalised convolution first runs the hook of weight
    norm, which makes a new tensor from [weight_g] and [weight_v] and binds
    the attribute [weight] to it; [Conv1d.forward] then convolves the input
    with [self.weight] and [self.bias], making a new tensor. *)
Definition Conv1d_forward (c : Conv1d) (x : loc) : M loc :=
  let! g := load (weight_g c) in
  let! v := load (weight_v c) in
  let! w := alloc (weight_norm_pure g v) in
  let! _ := setattr (weight c) w in
  let! tw := load w in
  let! b := load (bias c) in
  let! tx := load x in
  let! t := lift (conv1d_pure c tw b tx) in
  alloc t.

(** In place, the activation overwrites its argument and returns it. *)
Definition LeakyReLU_forward (a : LeakyReLU) (x : loc) : M loc :=
  let! tx := load x in
  if inplace a then
    let! _ := store x (leaky_pure a tx) in ret x
  else alloc (leaky_pure a tx).

Definition AvgPool1d_forward (p : AvgPool1d) (x : loc) : M loc :=
  let! tx := load x in
  let! t := lift (avg_pool1d_pure p tx) in
  alloc t.

(** [x + y]: a new tensor, the operands being broadcast. *)
Definition tensor_add (x y : loc) : M loc :=
  let! a := load x in
  let! b := load y in
  let! t := lift (add_pure a b) in
  alloc t.

Definition flatten (x : loc) : M loc :=
  let! tx := load x in
  let! t := lift (flatten_pure tx) in
  alloc t.

Definition layer_forward (l : layer) (x : loc) : M loc :=
  match l with
  | LConv c => Conv1d_forward c x
  | LLeaky a => LeakyReLU_forward a x
  end.

Fixpoint Sequential_forward (ls : Sequential) (x : loc) : M loc :=
  match ls with
  | [] => ret x
  | l :: ls' => let! y := layer_forward l x in Sequential_forward ls' y
  end.

(** Calling a module hands the positional arguments to its [forward],
    which takes one, resp. two, tensors; any other number of arguments is a
    [TypeError]. *)
Definition call1 {A} (forward : loc → M A) (args : list loc) : M A :=
  match args with
  | [x] => forward x
  | _ => raise TypeError
  end.

Definition call2 {A} (forward : loc → loc → M A) (args : list loc) : M A :=
  match args with
  | [x; y] => forward x y
  | _ => raise TypeError
  end.

(** *** Constructors of the framework's layers *)

(** A new parameter tensor of the given shape. *)
Definition new_param (shp : list nat) : M loc :=
  fun h => alloc {| shape := shp; data := k_param (length h) shp |} h.

(** [nn.utils.weight_norm(nn.Conv1d(cin, cout, kernel_size=k, stride=s,
    padding=p))].  [nn.Conv1d] makes the weight and the bias; weight norm
    takes the norm of the weight over all but its first dimension, which
    fails on a weight without output channels, keeps the norm and the
    weight as the parameters [weight_g] and [weight_v], and binds [weight]
    to a tensor computed from the two. *)
Definition weight_norm_Conv1d (cin cout k s p : nat) : M Conv1d :=
  let! v := new_param [cout; cin; k] in
  let! b := new_param [cout] in
  if decide (cout = 0) then raise (TorchError EmptyWeight) else
  let! tv := load v in
  let! g := alloc {| shape := [cout; 1; 1];
                     data := k_norm_except_dim (data tv) |} in
  let! tg := load g in
  let! w := alloc (weight_norm_pure tg tv) in
  let! a := new_attr w in
  ret {| in_channels := cin; out_channels := cout; kernel_size := k;
         stride := s; padding := p;
         weight := a; weight_g := g; weight_v := v; bias := b |}.

(** ** [Dblock] *)

Definition Dblock_init (input_dim output_dim hidden_dim : nat) : M Dblock :=
  let! c1 := weight_norm_Conv1d input_dim output_dim 3 1 1 in
  let! c2 := weight_norm_Conv1d hidden_dim output_dim 3 1 1 in
  let! c3 := weight_norm_Conv1d output_dim output_dim 3 1 1 in
  let! c4 := weight_norm_Conv1d output_dim hidden_dim 3 1 1 in
  ret {| input_spec := c1;
         input_cond := c2;
         output_spec := [LLeaky lrelu; LConv c3];
         output_cond := [LLeaky lrelu; LConv c4] |}.

Definition Dblock_forward (d : Dblock) (spec cond : loc) : M (loc * loc) :=
  let! x1 := Conv1d_forward (input_spec d) spec in
  let! y1 := Conv1d_forward (input_cond d) cond in
  let! x := tensor_add x1 y1 in
  let! out1 := Sequential_forward (output_spec d) x in
  let! out2 := Sequential_forward (output_cond d) y1 in
  let! r1 := tensor_add out1 x1 in
  let! r2 := tensor_add out2 cond in
  ret (r1, r2).

(** ** [MSGDiscriminator] *)

(** The loop of [__init__]: [n] runs over [range(1, n_layers + 1)], [nf] is
    doubled after each block. *)
Fixpoint MSG_init_loop (ns : list nat) (nf hidden_dim : nat)
    (discriminator : ModuleDict Dblock) : M (nat * ModuleDict Dblock) :=
  match ns with
  | [] => ret (nf, discriminator)
  | n :: ns' =>
      let! b := Dblock_init nf (nf * 2) hidden_dim in
      MSG_init_loop ns' (nf * 2) hidden_dim
        (setitem ("layer_" +:+ pretty n) b discriminator)
  end.

Definition MSGDiscriminator_init (nf n_layers hidden_dim : nat)
    : M MSGDiscriminator :=
  let! (nf, discriminator) :=
    MSG_init_loop (seq 1 n_layers) nf hidden_dim [] in
  let! ds := weight_norm_Conv1d nf 1 3 1 1 in
  let! dc := weight_norm_Conv1d hidden_dim 1 3 1 1 in
  ret {| disc_spec := ds; disc_cond := dc; discriminator := discriminator |}.

(** The loop of [forward] over [self.discriminator.items()]. *)
Fixpoint MSG_loop (its : list (string * Dblock)) (x y : loc)
    (features : list loc) : M (loc * loc * list loc) :=
  match its with
  | [] => ret (x, y, features)
  | (key, module) :: its' =>
      let! (x, y) := call2 (Dblock_forward module) [x; y] in
      MSG_loop its' x y (features ++ [x])
  end.

(** [features[-1]] *)
Definition last_item (features : list loc) : M loc :=
  match last features with
  | Some l => ret l
  | None => raise IndexError
  end.

Definition MSGDiscriminator_forward (m : MSGDiscriminator) (x y : loc)
    : M (list loc * loc) :=
  let! (x, y, features) := MSG_loop (items (discriminator m)) x y [] in
  let! a := Conv1d_forward (disc_spec m) x in
  let! b := Conv1d_forward (disc_cond m) y in
  let! out := tensor_add a b in
  let features := features ++ [out] in
  let! l := last_item features in
  let! score := flatten l in
  ret (removelast features, score).

(** ** The parameters of a module

    [Module.parameters()]: the parameter tensors of the layers below a
    module. *)

Definition Conv1d_parameters (c : Conv1d) : list loc :=
  [bias c; weight_g c; weight_v c].

Definition layer_parameters (l : layer) : list loc :=
  match l with LConv c => Conv1d_parameters c | LLeaky _ => [] end.

Definition Sequential_parameters (ls : Sequential) : list loc :=
  concat (map layer_parameters ls).

Definition Dblock_parameters (d : Dblock) : list loc :=
  Conv1d_parameters (input_spec d) ++ Conv1d_parameters (input_cond d)
  ++ Sequential_parameters (output_spec d)
  ++ Sequential_parameters (output_cond d).

Definition MSG_parameters (m : MSGDiscriminator) : list loc :=
  concat (map (fun it => Dblock_parameters it.2) (discriminator m))
  ++ Conv1d_parameters (disc_spec m) ++ Conv1d_parameters (disc_cond m).

Definition model_parameters (d : ModuleDict MSGDiscriminator) : list loc :=
  concat (map (fun it => MSG_parameters it.2) d).

(** Modelled from the spec: [utils.util.weights_init], which the
    constructors hand to [Module.apply], is not among the sources; the spec
    calls it "an external weight-initialization utility".  It is taken to
    rewrite the parameter tensors of the layers in place, keeping their
    shapes, and to touch nothing else. *)
Fixpoint apply_weights_init (ps : list loc) : M unit :=
  match ps with
  | [] => ret tt
  | l :: ps' =>
      let! t := load l in
      let! _ := store l {| shape := shape t;
                           data := k_weights_init (data t) |} in
      apply_weights_init ps'
  end.

(** ** [MultiMSGDiscriminator] *)

(** The loop of [__init__] over [range(num_D)]; the same loop builds
    [MultiScaleDiscriminator.model]. *)
Fixpoint model_init_loop (ids : list nat) (ndf n_layers hidden_dim : nat)
    (model : ModuleDict MSGDiscriminator) : M (ModuleDict MSGDiscriminator) :=
  match ids with
  | [] => ret model
  | i :: ids' =>
      let! d := MSGDiscriminator_init ndf n_layers hidden_dim in
      model_init_loop ids' ndf n_layers hidden_dim
        (setitem ("disc_" +:+ pretty i) d model)
  end.

(** [nn.AvgPool1d(downsampling_factor, stride=2, padding=1,
    count_include_pad=False)] *)
Definition downsample_init (downsampling_factor : nat) : AvgPool1d :=
  {| pool_kernel_size := downsampling_factor; pool_stride := 2;
     pool_padding := 1; count_include_pad := false |}.

Definition MultiMSGDiscriminator_init
    (num_D ndf n_layers downsampling_factor hidden_dim : nat)
    : M MultiMSGDiscriminator :=
  let! model := model_init_loop (seq 0 num_D) ndf n_layers hidden_dim [] in
  let! _ := apply_weights_init (model_parameters model) in
  ret {| model := model; downsample := downsample_init downsampling_factor |}.

Fixpoint MultiMSG_loop (ds : AvgPool1d)
    (its : list (string * MSGDiscriminator)) (x y : loc)
    (outputs : list loc) (features : list (list loc))
    : M (list (list loc) * list loc) :=
  match its with
  | [] => ret (features, outputs)
  | (key, disc) :: its' =>
      let! (feats, out) := call2 (MSGDiscriminator_forward disc) [x; y] in
      let outputs := outputs ++ [out] in
      let features := features ++ [feats] in
      let! x := call1 (AvgPool1d_forward ds) [x] in
      let! y := call1 (AvgPool1d_forward ds) [y] in
      MultiMSG_loop ds its' x y outputs features
  end.

Definition MultiMSGDiscriminator_forward (m : MultiMSGDiscriminator)
    (x y : loc) : M (list (list loc) * list loc) :=
  MultiMSG_loop (downsample m) (items (model m)) x y [] [].

(** ** [MelGANDiscriminator] *)

(** The loop of [__init__]: [nf] is not reassigned in its body. *)
Fixpoint MelGAN_init_loop (ns : list nat) (nf : nat)
    (discriminator : ModuleDict entry) : M (ModuleDict entry) :=
  match ns with
  | [] => ret discriminator
  | n :: ns' =>
      let nf_prev := nf in
      let! c := weight_norm_Conv1d nf_prev nf 3 2 1 in
      MelGAN_init_loop ns' nf
        (setitem ("layer_" +:+ pretty n) (ESeq [LConv c; LLeaky lrelu])
           discriminator)
  end.

Definition MelGANDiscriminator_init (input_dim ndf n_layers disc_out : nat)
    : M MelGANDiscriminator :=
  let! c0 := weight_norm_Conv1d input_dim ndf 3 1 0 in
  let discriminator := setitem "layer_0" (ESeq [LConv c0; LLeaky lrelu]) [] in
  let nf := ndf in
  let! discriminator := MelGAN_init_loop (seq 1 n_layers) nf discriminator in
  let nf := Nat.min (nf * 2) disc_out in
  let! c1 := weight_norm_Conv1d nf disc_out 3 1 2 in
  let discriminator :=
    setitem ("layer_" +:+ pretty (n_layers + 1))
      (ESeq [LConv c1; LLeaky lrelu]) discriminator in
  let! c2 := weight_norm_Conv1d nf 1 3 1 1 in
  let discriminator :=
    setitem ("layer_" +:+ pretty (n_layers + 2)) (ELayer (LConv c2))
      discriminator in
  ret {| mg_discriminator := discriminator |}.

Definition entry_forward (e : entry) (x : loc) : M loc :=
  match e with
  | ESeq ls => Sequential_forward ls x
  | ELayer l => layer_forward l x
  end.

Fixpoint MelGAN_loop (its : list (string * entry)) (x : loc)
    (features : list loc) : M (list loc) :=
  match its with
  | [] => ret features
  | (key, module) :: its' =>
      let! x := call1 (entry_forward module) [x] in
      MelGAN_loop its' x (features ++ [x])
  end.

Definition MelGANDiscriminator_forward (m : MelGANDiscriminator) (x : loc)
    : M (list loc * loc) :=
  let! features := MelGAN_loop (items (mg_discriminator m)) x [] in
  let! l := last_item features in
  ret (removelast features, l).

(** ** [MultiScaleDiscriminator] *)

Definition MultiScaleDiscriminator_init
    (num_D ndf n_layers downsampling_factor hidden_dim : nat)
    : M MultiScaleDiscriminator :=
  let! model := model_init_loop (seq 0 num_D) ndf n_layers hidden_dim [] in
  let! _ := apply_weights_init (model_parameters model) in
  ret {| ms_model := model;
         ms_downsample := downsample_init downsampling_factor |}.

(** [disc(x)] hands one argument to [MSGDiscriminator.forward(self, x, y)]. *)
Fixpoint MultiScale_loop (ds : AvgPool1d)
    (its : list (string * MSGDiscriminator)) (x : loc)
    (outputs : list loc) (features : list (list loc))
    : M (list (list loc) * list loc) :=
  match its with
  | [] => ret (features, outputs)
  | (key, disc) :: its' =>
      let! (feats, out) := call2 (MSGDiscriminator_forward disc) [x] in
      let outputs := outputs ++ [out] in
      let features := features ++ [feats] in
      let! x := call1 (AvgPool1d_forward ds) [x] in
      MultiScale_loop ds its' x outputs features
  end.

Definition MultiScaleDiscriminator_forward (m : MultiScaleDiscriminator)
    (x : loc) : M (list (list loc) * list loc) :=
  MultiScale_loop (ms_downsample m) (items (ms_model m)) x [] [].

(** ** What the methods compute, on tensor values

    The same methods read without the store: arguments and results are
    tensor values, the parameters are looked up in a fixed store [E], and an
    in-place activation is just its result.  The computations above are
    shown to agree with these readings below; the statements about values,
    shapes and order are then made on them. *)

Definition Conv1d_den (E : heap) (c : Conv1d) (x : tensor) : exn + tensor :=
  let? g := get E (weight_g c) in
  let? v := get E (weight_v c) in
  let? b := get E (bias c) in
  conv1d_pure c (weight_norm_pure g v) b x.

Definition layer_den (E : heap) (l : layer) (x : tensor) : exn + tensor :=
  match l with
  | LConv c => Conv1d_den E c x
  | LLeaky a => inr (leaky_pure a x)
  end.

Fixpoint Sequential_den (E : heap) (ls : Sequential) (x : tensor)
    : exn + tensor :=
  match ls with
  | [] => inr x
  | l :: ls' => let? y := layer_den E l x in Sequential_den E ls' y
  end.

Definition Dblock_den (E : heap) (d : Dblock) (spec cond : tensor)
    : exn + (tensor * tensor) :=
  let? x1 := Conv1d_den E (input_spec d) spec in
  let? y1 := Conv1d_den E (input_cond d) cond in
  let? x := add_pure x1 y1 in
  let? out1 := Sequential_den E (output_spec d) x in
  let? out2 := Sequential_den E (output_cond d) y1 in
  let? r1 := add_pure out1 x1 in
  let? r2 := add_pure out2 cond in
  inr (r1, r2).

(** The chain [(x_k, y_k) = layer_k(x_{k-1}, y_{k-1})]: the last pair and
    the list of all [x_k]. *)
Fixpoint MSG_chain (E : heap) (its : list (string * Dblock)) (x y : tensor)
    : exn + (tensor * tensor * list tensor) :=
  match its with
  | [] => inr (x, y, [])
  | (_, d) :: its' =>
      let? (x1, y1) := Dblock_den E d x y in
      let? (xn, yn, fs) := MSG_chain E its' x1 y1 in
      inr (xn, yn, x1 :: fs)
  end.

(** [flatten(disc_spec(x_n) + disc_cond(y_n))] *)
Definition MSG_score (E : heap) (m : MSGDiscriminator) (xn yn : tensor)
    : exn + tensor :=
  let? a := Conv1d_den E (disc_spec m) xn in
  let? b := Conv1d_den E (disc_cond m) yn in
  let? out := add_pure a b in
  flatten_pure out.

Definition MSG_den (E : heap) (m : MSGDiscriminator) (x y : tensor)
    : exn + (list tensor * tensor) :=
  let? (xn, yn, fs) := MSG_chain E (discriminator m) x y in
  let? s := MSG_score E m xn yn in
  inr (fs, s).

(** [x] downsampled [i] times. *)
Fixpoint downsampled (ds : AvgPool1d) (i : nat) (x : tensor) : exn + tensor :=
  match i with
  | 0 => inr x
  | S i' => let? x' := avg_pool1d_pure ds x in downsampled ds i' x'
  end.

Fixpoint MultiMSG_scales (E : heap) (ds : AvgPool1d)
    (its : list (string * MSGDiscriminator)) (x y : tensor)
    : exn + (list (list tensor) * list tensor) :=
  match its with
  | [] => inr ([], [])
  | (_, disc) :: its' =>
      let? (feats, out) := MSG_den E disc x y in
      let? x' := avg_pool1d_pure ds x in
      let? y' := avg_pool1d_pure ds y in
      let? (fs, os) := MultiMSG_scales E ds its' x' y' in
      inr (feats :: fs, out :: os)
  end.

Definition MultiMSG_den (E : heap) (m : MultiMSGDiscriminator)
    (x y : tensor) : exn + (list (list tensor) * list tensor) :=
  MultiMSG_scales E (downsample m) (model m) x y.

Definition entry_den (E : heap) (e : entry) (x : tensor) : exn + tensor :=
  match e with
  | ESeq ls => Sequential_den E ls x
  | ELayer l => layer_den E l x
  end.

Fixpoint MelGAN_chain (E : heap) (its : list (string * entry)) (x : tensor)
    : exn + list tensor :=
  match its with
  | [] => inr []
  | (_, e) :: its' =>
      let? x1 := entry_den E e x in
      let? fs := MelGAN_chain E its' x1 in
      inr (x1 :: fs)
  end.

Definition MelGAN_den (E : heap) (m : MelGANDiscriminator) (x : tensor)
    : exn + (list tensor * tensor) :=
  let? fs := MelGAN_chain E (mg_discriminator m) x in
  match last fs with
  | Some t => inr (removelast fs, t)
  | None => inl IndexError
  end.

Definition MultiScale_den (m : MultiScaleDiscriminator)
    : exn + (list (list tensor) * list tensor) :=
  match ms_model m with
  | [] => inr ([], [])
  | _ :: _ => inl TypeError
  end.

(** ** Vocabulary of the statements *)

(** [h !! l = Some t]: the object [l] of store [h] holds [t]. *)
Definition holds (h : heap) (l : loc) (t : tensor) : Prop := h !! l = Some t.

(** Every object of [h] is in [h'] with the value it had. *)
Definition extends (h h' : heap) : Prop :=
  ∀ l t, h !! l = Some t → h' !! l = Some t.

(** The same, but for the object [x]. *)
Definition unchanged_except (x : loc) (h h' : heap) : Prop :=
  length h ≤ length h' ∧ ∀ l t, l ≠ x → h !! l = Some t → h' !! l = Some t.

(** The parameters [ps] are objects of [E]. *)
Definition live (E : heap) (ps : list loc) : Prop :=
  Forall (fun l => l < length E) ps.

Definition entry_parameters (e : entry) : list loc :=
  match e with
  | ESeq ls => Sequential_parameters ls
  | ELayer l => layer_parameters l
  end.

Definition MelGAN_parameters (m : MelGANDiscriminator) : list loc :=
  concat (map (fun it => entry_parameters it.2) (mg_discriminator m)).

(** The outcome [r] of a computation agrees with the reading [den]: the
    same exception, or results related by [R]. *)
Definition agrees {A B} (R : A → B → Prop) (den : exn + B) (r : exn + A)
    : Prop :=
  match den, r with
  | inl e, inl e' => e = e'
  | inr b, inr a => R a b
  | _, _ => False
  end.

(** Running [m] in [h] ends in a state whose tensors are related to those
    of [h] by [F], with an outcome that agrees with [den]. *)
Definition run_to {A B} (m : M A) (h : state) (F : heap → heap → Prop)
    (R : heap → A → B → Prop) (den : exn + B) : Prop :=
  ∃ r h', m h = (r, h') ∧ F h h' ∧ agrees (R h') den r.

(** Results that are references. *)
Definition fresh_holds (h : heap) : heap → loc → tensor → Prop :=
  fun h' l t => holds h' l t ∧ length h ≤ l.

Definition all_hold (h' : heap) (ls : list loc) (ts : list tensor) : Prop :=
  Forall2 (holds h') ls ts.

(** The result of a call as values: what the caller can observe of it. *)
Definition observe {A B} (deref : heap → A → option B)
    (out : (exn + A) * state) : option (exn + B) :=
  match out with
  | (inl e, _) => Some (inl e)
  | (inr a, h') => inr <$> deref h' a
  end.

Definition deref_list (h : heap) (ls : list loc) : option (list tensor) :=
  mapM (fun l => h !! l) ls.

Definition deref_pair (h : heap) (p : loc * loc) : option (tensor * tensor) :=
  t1 ← h !! p.1; t2 ← h !! p.2; Some (t1, t2).

Definition deref_feats (h : heap) (p : list loc * loc)
    : option (list tensor * tensor) :=
  fs ← deref_list h p.1; s ← h !! p.2; Some (fs, s).

Definition deref_scales (h : heap) (p : list (list loc) * list loc)
    : option (list (list tensor) * list tensor) :=
  fs ← mapM (deref_list h) p.1; os ← deref_list h p.2; Some (fs, os).

(** The channels of a batched or unbatched sequence tensor. *)
Definition channels (t : tensor) : option nat :=
  match shape t with
  | [_; c; _] | [c; _] => Some c
  | _ => None
  end.

(** *** Configurations *)

Definition Conv1d_cfg (c : Conv1d) (cin cout k s p : nat) : Prop :=
  in_channels c = cin ∧ out_channels c = cout ∧ kernel_size c = k
  ∧ stride c = s ∧ padding c = p.

(** A [Dblock(input_dim, output_dim, hidden_dim)]. *)
Definition Dblock_cfg (d : Dblock) (input_dim output_dim hidden_dim : nat)
    : Prop :=
  Conv1d_cfg (input_spec d) input_dim output_dim 3 1 1
  ∧ Conv1d_cfg (input_cond d) hidden_dim output_dim 3 1 1
  ∧ ∃ c3 c4,
      output_spec d = [LLeaky lrelu; LConv c3]
      ∧ output_cond d = [LLeaky lrelu; LConv c4]
      ∧ Conv1d_cfg c3 output_dim output_dim 3 1 1
      ∧ Conv1d_cfg c4 output_dim hidden_dim 3 1 1.

(** Entries [layer_k, layer_(k+1), ...] whose blocks double [nf]. *)
Fixpoint layers_cfg (hidden_dim k nf : nat) (its : list (string * Dblock))
    : Prop :=
  match its with
  | [] => True
  | (key, d) :: its' =>
      key = "layer_" +:+ pretty k
      ∧ Dblock_cfg d nf (nf * 2) hidden_dim
      ∧ layers_cfg hidden_dim (S k) (nf * 2) its'
  end.

(** An [MSGDiscriminator(nf, n_layers, hidden_dim)]. *)
Definition MSG_cfg (m : MSGDiscriminator) (nf n_layers hidden_dim : nat)
    : Prop :=
  length (discriminator m) = n_layers
  ∧ layers_cfg hidden_dim 1 nf (discriminator m)
  ∧ Conv1d_cfg (disc_spec m) (nf * 2 ^ n_layers) 1 3 1 1
  ∧ Conv1d_cfg (disc_cond m) hidden_dim 1 3 1 1.

(** Entries [disc_i, disc_(i+1), ...], each an
    [MSGDiscriminator(ndf, n_layers, hidden_dim)]. *)
Fixpoint model_cfg (ndf n_layers hidden_dim i : nat)
    (its : list (string * MSGDiscriminator)) : Prop :=
  match its with
  | [] => True
  | (key, d) :: its' =>
      key = "disc_" +:+ pretty i
      ∧ MSG_cfg d ndf n_layers hidden_dim
      ∧ model_cfg ndf n_layers hidden_dim (S i) its'
  end.

(** Length of a sequence after [i] rounds of the downsampling layer. *)
Fixpoint scale_len (downsampling_factor i l : nat) : nat :=
  match i with
  | 0 => l
  | S i' => scale_len downsampling_factor i' (out_len downsampling_factor 2 1 l)
  end.

(** A result that is the argument [x] itself (overwritten) or a new
    object. *)
Definition result_holds (h : heap) (x : loc) : heap → loc → tensor → Prop :=
  fun h' l t => holds h' l t ∧ (l = x ∨ length h ≤ l).

(** An entry that starts with a convolution leaves its argument alone. *)
Definition conv_first (e : entry) : Prop :=
  match e with
  | ESeq (LConv _ :: _) | ELayer (LConv _) => True
  | _ => False
  end.

Definition pair_holds (h : heap)
    : heap → loc * loc → tensor * tensor → Prop :=
  fun h' p t =>
    holds h' p.1 t.1 ∧ holds h' p.2 t.2 ∧ length h ≤ p.1 ∧ length h ≤ p.2.

(** Results of the loops: the references appended to the accumulator hold
    the listed values. *)
Definition appended (h : heap) (acc : list loc)
    : heap → list loc → list tensor → Prop :=
  fun h' ls ts =>
    ∃ new, ls = acc ++ new ∧ all_hold h' new ts
           ∧ Forall (fun l => length h ≤ l) new.

Definition loop_holds (h : heap) (acc : list loc)
    : heap → loc * loc * list loc → tensor * tensor * list tensor → Prop :=
  fun h' r t =>
    holds h' r.1.1 t.1.1 ∧ holds h' r.1.2 t.1.2 ∧ appended h acc h' r.2 t.2.

(** Result of a discriminator: a list of features and a score, the score
    being a new object that is not one of the features. *)
Definition feats_hold (h : heap)
    : heap → list loc * loc → list tensor * tensor → Prop :=
  fun h' r t =>
    all_hold h' r.1 t.1 ∧ holds h' r.2 t.2
    ∧ (r.2 ∉ r.1) ∧ Forall (fun l => length h ≤ l) (r.2 :: r.1).

Definition scales_hold (h : heap) (accf : list (list loc)) (acco : list loc)
    : heap → list (list loc) * list loc
      → list (list tensor) * list tensor → Prop :=
  fun h' r t =>
    (∃ newf, r.1 = accf ++ newf ∧ Forall2 (all_hold h') newf t.1)
    ∧ appended h acco h' r.2 t.2.

Definition result_hold
    : heap → list loc * loc → list tensor * tensor → Prop :=
  fun h' r t => all_hold h' r.1 t.1 ∧ holds h' r.2 t.2.

(** A constructor run: when it returns a module, it has only added to the
    tensors or rewritten them in place. *)
Definition builds {A} (m : M A) (h : state) (P : A → heap → Prop) : Prop :=
  ∀ a h', m h = (inr a, h') → length h ≤ length h' ∧ P a h'.

(** The keys of [d] are [prefix0, prefix1, ...] with numbers below [k]. *)
Definition keys_below {A} (prefix : string) (k : nat) (d : ModuleDict A)
    : Prop :=
  Forall (fun it => ∃ j, j < k ∧ it.1 = prefix +:+ pretty j) d.

(** The strided layers [layer_1 .. layer_n_layers] of
    [MelGANDiscriminator]. *)
Definition strided_cfg (ndf : nat) (it : string * entry) : Prop :=
  ∃ c, it.2 = ESeq [LConv c; LLeaky lrelu] ∧ Conv1d_cfg c ndf ndf 3 2 1.

(** A [MelGANDiscriminator(input_dim, ndf, n_layers, disc_out)]. *)
Definition MelGAN_cfg (m : MelGANDiscriminator)
    (input_dim ndf n_layers disc_out : nat) : Prop :=
  ∃ c0 mid c1 c2,
    mg_discriminator m =
      ("layer_0", ESeq [LConv c0; LLeaky lrelu]) :: mid
      ++ [("layer_" +:+ pretty (n_layers + 1), ESeq [LConv c1; LLeaky lrelu]);
          ("layer_" +:+ pretty (n_layers + 2), ELayer (LConv c2))]
    ∧ Conv1d_cfg c0 input_dim ndf 3 1 0
    ∧ length mid = n_layers
    ∧ Forall (strided_cfg ndf) mid
    ∧ Conv1d_cfg c1 (Nat.min (ndf * 2) disc_out) disc_out 3 1 2
    ∧ Conv1d_cfg c2 (Nat.min (ndf * 2) disc_out) 1 3 1 1.

(** Outcomes whose only exceptions are the framework operators' own. *)
Definition torch_only {A} (r : exn + A) : Prop :=
  match r with
  | inl (TorchError _) | inr _ => True
  | inl _ => False
  end.

(** The [weight] attributes of the convolutions of a module. *)
Definition layer_attrs (l : layer) : list nat :=
  match l with LConv c => [weight c] | LLeaky _ => [] end.

Definition Sequential_attrs (ls : Sequential) : list nat :=
  concat (map layer_attrs ls).

Definition Dblock_attrs (d : Dblock) : list nat :=
  [weight (input_spec d); weight (input_cond d)]
  ++ Sequential_attrs (output_spec d) ++ Sequential_attrs (output_cond d).

Definition MSG_attrs (m : MSGDiscriminator) : list nat :=
  concat (map (fun it => Dblock_attrs it.2) (discriminator m))
  ++ [weight (disc_spec m); weight (disc_cond m)].

Definition model_attrs (d : ModuleDict MSGDiscriminator) : list nat :=
  concat (map (fun it => MSG_attrs it.2) d).

Definition entry_attrs (e : entry) : list nat :=
  match e with
  | ESeq ls => Sequential_attrs ls
  | ELayer l => layer_attrs l
  end.

Definition MelGAN_attrs (m : MelGANDiscriminator) : list nat :=
  concat (map (fun it => entry_attrs it.2) (mg_discriminator m)).

(** A run that binds no attribute but those of [ws]. *)
Definition binds_only {A} (ws : list nat) (m : M A) (h : state) : Prop :=
  ∀ r h', m h = (r, h') →
    ∀ a, a ∉ ws → getattr a (attrs h') = getattr a (attrs h).

(** A call that leaves every tensor of the state it was started in as it
    was (the parameters [ps] in particular), binds no attribute but the
    [weight] attributes [ws], and that, made again in the state it left,
    shows the caller the same outcome. *)
Definition pure_call {A B} (deref : heap → A → option B) (ps : list loc)
    (ws : list nat) (call : M A) (h : state) : Prop :=
  let out1 := call h in
  let out2 := call out1.2 in
  h `prefix_of` out1.2
  ∧ Forall (fun l => out1.2 !! l = h !! l) ps
  ∧ binds_only ws call h
  ∧ is_Some (observe deref out1)
  ∧ observe deref out2 = observe deref out1.

(** The parameters [ps] are pairwise distinct objects numbered from [a]
    to below [b]. *)
Definition owned (a b : nat) (ps : list loc) : Prop :=
  NoDup ps ∧ Forall (fun l => a ≤ l < b) ps.

(** *** Counting

    [p.numel()], and the count of the script at the end of the file,
    [sum(p.numel() for p in model.parameters() if p.requires_grad)]: every
    parameter of these modules requires a gradient. *)
Definition numel (t : tensor) : nat := foldr Nat.mul 1 (shape t).

Definition total_params (h : heap) (ps : list loc) : nat :=
  sum_list_with (fun l => from_option numel 0 (h !! l)) ps.

(** A run that returns and whose only effect on the tensors is to append
    the [n] tensors [ts]. *)
Definition allocates {A} (m : M A) (h : state) (n : nat)
    (P : A → list tensor → Prop) : Prop :=
  ∃ a ts ws,
    m h = (inr a, {| tensors := h ++ ts; attrs := ws |})
    ∧ length ts = n ∧ P a ts.

(** Length of a sequence after [n] of the strided layers of
    [MelGANDiscriminator] (kernel 3, stride 2, padding 1). *)
Fixpoint strided_len (n l : nat) : nat :=
  match n with
  | 0 => l
  | S n' => strided_len n' (out_len 3 2 1 l)
  end.

(** * Properties *)

(** ** Stores *)

Lemma extends_refl h : extends h h.
Proof. by intros l t. Qed.

Lemma extends_trans h1 h2 h3 : extends h1 h2 → extends h2 h3 → extends h1 h3.
Proof. intros H12 H23 l t Hl. by apply H23, H12. Qed.

Lemma extends_app h k : extends h (h ++ k).
Proof. intros l t Hl. by apply lookup_app_l_Some. Qed.

Lemma extends_length h h' : extends h h' → length h ≤ length h'.
Proof.
  intros Hext. destruct (decide (length h = 0)) as [->|Hne]; [lia|].
  destruct (lookup_lt_is_Some_2 h (length h - 1)) as [t Ht]; [lia|].
  apply Hext, lookup_lt_Some in Ht. lia.
Qed.

Lemma getattr_bind_attr a l m : getattr a (bind_attr a l m) = Some l.
Proof.
  induction m as [|[k l'] m IH]; simpl.
  - by rewrite decide_True.
  - destruct (decide (k = a)) as [->|Hne]; simpl.
    + by rewrite decide_True.
    + by rewrite decide_False.
Qed.

Lemma getattr_bind_attr_ne a b l m :
  a ≠ b → getattr b (bind_attr a l m) = getattr b m.
Proof.
  intros Hne. induction m as [|[k l'] m IH]; simpl.
  - by rewrite decide_False.
  - destruct (decide (k = a)) as [->|Hk]; simpl.
    + by rewrite !decide_False.
    + by rewrite IH.
Qed.

Lemma getattr_Some a l m : getattr a m = Some l → a ∈ map fst m.
Proof.
  induction m as [|[k l'] m IH]; [done|]. simpl.
  destruct (decide (k = a)) as [->|Hne]; [intros _; apply list_elem_of_here|].
  intros Hl. apply list_elem_of_further. by apply IH.
Qed.

(** [new_attr] binds an attribute that was not bound. *)
Lemma fresh_attr_fresh m : getattr (fresh_attr m) m = None.
Proof.
  destruct (getattr (fresh_attr m) m) as [l|] eqn:Hl; [exfalso|done].
  apply getattr_Some, max_list_elem_of_le in Hl.
  unfold fresh_attr in Hl at 1. lia.
Qed.

Lemma with_tensors_prefix (h : state) ts : h `prefix_of` with_tensors h ts.
Proof. by exists ts. Qed.

Lemma extends_prefix h h' : extends h h' ↔ h `prefix_of` h'.
Proof.
  split.
  - intros Hext. exists (drop (length h) h').
    rewrite <- (take_drop (length h) h') at 1. f_equal.
    apply list_eq. intros i.
    destruct (decide (i < length h)) as [Hi|Hi].
    + rewrite lookup_take_lt by done.
      destruct (lookup_lt_is_Some_2 h i Hi) as [t Ht].
      rewrite Ht. by apply Hext.
    + rewrite lookup_take_ge by lia. symmetry. apply lookup_ge_None. lia.
  - intros [k ->]. apply extends_app.
Qed.

(** Chains of [extends] facts. *)
Ltac ext :=
  solve [ assumption
        | apply extends_refl
        | multimatch goal with
          | H : extends ?a ?b |- extends ?a ?c =>
              apply (extends_trans a b c H); ext
          end ].

Lemma unchanged_extends b x h h' :
  extends b h → unchanged_except x h h' → length b ≤ x → extends b h'.
Proof.
  intros Hext [_ Hun] Hx l t Hl. apply Hun; [|by apply Hext].
  apply lookup_lt_Some in Hl. lia.
Qed.

Lemma extends_unchanged x h h' : extends h h' → unchanged_except x h h'.
Proof. intros Hext. split; [by apply extends_length|]. intros l t _. apply Hext. Qed.

Lemma holds_lt h l t : holds h l t → l < length h.
Proof. apply lookup_lt_Some. Qed.

Lemma holds_snoc h t : holds (h ++ [t]) (length h) t.
Proof. by apply list_lookup_middle. Qed.

Lemma live_get E h l :
  extends E h → l < length E →
  ∃ t, E !! l = Some t ∧ h !! l = Some t.
Proof.
  intros Hext Hl. destruct (lookup_lt_is_Some_2 E l Hl) as [t Ht].
  exists t. split; [done|by apply Hext].
Qed.

Lemma live_extends E E' ps : extends E E' → live E ps → live E' ps.
Proof.
  intros Hext Hlive. eapply Forall_impl; [done|]. intros l Hl. simpl in Hl.
  apply extends_length in Hext. lia.
Qed.

Lemma all_hold_extends h h' ls ts :
  extends h h' → all_hold h ls ts → all_hold h' ls ts.
Proof.
  intros Hext Hall. eapply Forall2_impl; [done|]. intros l t. apply Hext.
Qed.

Lemma all_hold_lt h ls ts l : all_hold h ls ts → l ∈ ls → l < length h.
Proof.
  intros Hall Hin. apply list_elem_of_lookup in Hin as [i Hi].
  destruct (Forall2_lookup_l _ _ _ _ _ Hall Hi) as (t & _ & Ht).
  by apply holds_lt in Ht.
Qed.

(** ** The framework's operators agree with their readings *)

Lemma live_Conv1d E c :
  live E (Conv1d_parameters c) →
  bias c < length E ∧ weight_g c < length E ∧ weight_v c < length E.
Proof.
  unfold live, Conv1d_parameters. intros Hlive.
  apply Forall_cons in Hlive as [Hb Hlive].
  apply Forall_cons in Hlive as [Hg Hlive].
  by apply Forall_cons in Hlive as [Hv _].
Qed.

Lemma load_bind {A} (h : state) l t (f : tensor → M A) :
  holds h l t → bind (load l) f h = f t h.
Proof. intros Hl. unfold bind, load. by rewrite Hl. Qed.

Lemma bind_alloc {A} (h : state) t (f : loc → M A) :
  bind (alloc t) f h
  = f (length h) {| tensors := h ++ [t]; attrs := attrs h |}.
Proof. done. Qed.

Lemma bind_new_param {A} (h : state) shp (f : loc → M A) :
  bind (new_param shp) f h
  = f (length h)
      {| tensors := h ++ [{| shape := shp; data := k_param (length h) shp |}];
         attrs := attrs h |}.
Proof. done. Qed.

Lemma bind_new_attr {A} (h : state) l (f : nat → M A) :
  bind (new_attr l) f h
  = f (fresh_attr (attrs h))
      {| tensors := h; attrs := bind_attr (fresh_attr (attrs h)) l (attrs h) |}.
Proof. done. Qed.

Lemma bind_setattr {A} (h : state) a l (f : unit → M A) :
  bind (setattr a l) f h
  = f tt {| tensors := h; attrs := bind_attr a l (attrs h) |}.
Proof. done. Qed.

(** What a call of a convolution does to the state, step by step. *)
Lemma Conv1d_forward_run E (h : state) c x tx :
  extends E h → live E (Conv1d_parameters c) → holds h x tx →
  ∃ tg tv tb,
    E !! weight_g c = Some tg ∧ E !! weight_v c = Some tv
    ∧ E !! bias c = Some tb
    ∧ Conv1d_den E c tx = conv1d_pure c (weight_norm_pure tg tv) tb tx
    ∧ Conv1d_forward c x h
      = let h1 := {| tensors := h ++ [weight_norm_pure tg tv];
                     attrs := bind_attr (weight c) (length h) (attrs h) |} in
        match conv1d_pure c (weight_norm_pure tg tv) tb tx with
        | inl e => (inl e, h1)
        | inr t => (inr (S (length h)),
                    {| tensors := (h ++ [weight_norm_pure tg tv]) ++ [t];
                       attrs := attrs h1 |})
        end.
Proof.
  intros Hext Hlive Hx. destruct (live_Conv1d E c Hlive) as (Hb & Hg & Hv).
  destruct (live_get E h _ Hext Hg) as (tg & Eg & Hg').
  destruct (live_get E h _ Hext Hv) as (tv & Ev & Hv').
  destruct (live_get E h _ Hext Hb) as (tb & Eb & Hb').
  exists tg, tv, tb. split_and!; [done..| |].
  - unfold Conv1d_den, get. by rewrite Eg, Ev, Eb.
  - unfold Conv1d_forward.
    rewrite (load_bind h _ tg), (load_bind h _ tv) by done.
    rewrite bind_alloc, bind_setattr.
    set (h1 := {| tensors := h ++ [weight_norm_pure tg tv];
                  attrs := bind_attr (weight c) (length h) (attrs h) |}).
    rewrite (load_bind h1 _ (weight_norm_pure tg tv))
      by by apply list_lookup_middle.
    rewrite (load_bind h1 _ tb) by by apply lookup_app_l_Some.
    rewrite (load_bind h1 _ tx) by by apply lookup_app_l_Some.
    unfold bind, lift, alloc.
    destruct (conv1d_pure c (weight_norm_pure tg tv) tb tx) as [e|t];
      [done|]. cbn. by rewrite length_app, Nat.add_1_r.
Qed.

Lemma Conv1d_forward_spec E (h : state) c x tx :
  extends E h → live E (Conv1d_parameters c) → holds h x tx →
  run_to (Conv1d_forward c x) h extends (fresh_holds h) (Conv1d_den E c tx).
Proof.
  intros Hext Hlive Hx.
  destruct (Conv1d_forward_run E h c x tx Hext Hlive Hx)
    as (tg & tv & tb & _ & _ & _ & -> & Hrun).
  unfold run_to. rewrite Hrun. cbn zeta.
  destruct (conv1d_pure c (weight_norm_pure tg tv) tb tx) as [e|t].
  - eexists _, _. split; [done|]. split; [apply extends_app|done].
  - eexists _, _. split; [done|]. cbn. split.
    + rewrite <- app_assoc. apply extends_app.
    + split; [|lia].
      replace (S (length h)) with (length (h ++ [weight_norm_pure tg tv]))
        by (rewrite length_app; simpl; lia).
      apply holds_snoc.
Qed.

Lemma run_to_bind {A B A' B'} (m : M A) (f : A → M A') (h : state)
    (den : exn + B) (g : B → exn + B') F1 R1 (F : heap → heap → Prop) R :
  run_to m h F1 R1 den →
  (∀ h1 : heap, F1 h h1 → F h h1) →
  (∀ a b (h1 : state), F1 h h1 → R1 h1 a b →
     run_to (f a) h1 (fun _ h' => F h h') R (g b)) →
  run_to (bind m f) h F R (bindE den g).
Proof.
  intros (r & h1 & Hrun & Hfr & Hag) Herr Hk. unfold run_to, bind.
  rewrite Hrun. destruct den as [e|b], r as [e'|a]; simpl in *; try done.
  - subst e'. eexists _, _. split; [done|]. split; [by apply Herr|done].
  - destruct (Hk a b h1 Hfr Hag) as (r' & h' & Hrun' & Hfr' & Hag').
    eexists _, _. split; [exact Hrun'|]. by split.
Qed.

Lemma run_to_ret {A B} (a : A) (b : B) (h : state) (F : heap → heap → Prop)
    (R : heap → A → B → Prop) :
  F h h → R h a b → run_to (ret a) h F R (inr b).
Proof. intros HF HR. by eexists _, _. Qed.

(** An operator that reads its arguments and makes a new tensor. *)
Lemma run_to_alloc (h : state) (den : exn + tensor) :
  run_to (bind (lift den) alloc) h extends (fresh_holds h) den.
Proof.
  unfold run_to, bind, lift, alloc. destruct den as [e|t].
  - eexists _, _. split; [done|]. split; [apply extends_refl|done].
  - eexists _, _. split; [done|]. split; [apply extends_app|].
    split; [apply holds_snoc|done].
Qed.

Lemma tensor_add_spec (h : state) x y a b :
  holds h x a → holds h y b →
  run_to (tensor_add x y) h extends (fresh_holds h) (add_pure a b).
Proof.
  intros Hx Hy. unfold run_to, tensor_add.
  rewrite (load_bind h x a), (load_bind h y b) by done.
  apply run_to_alloc.
Qed.

Lemma AvgPool1d_forward_spec (h : state) p x tx :
  holds h x tx →
  run_to (AvgPool1d_forward p x) h extends (fresh_holds h)
    (avg_pool1d_pure p tx).
Proof.
  intros Hx. unfold run_to, AvgPool1d_forward.
  rewrite (load_bind h x tx) by done. apply run_to_alloc.
Qed.

Lemma flatten_spec (h : state) x tx :
  holds h x tx →
  run_to (flatten x) h extends (fresh_holds h) (flatten_pure tx).
Proof.
  intros Hx. unfold run_to, flatten.
  rewrite (load_bind h x tx) by done. apply run_to_alloc.
Qed.

Lemma LeakyReLU_forward_spec (h : state) a x tx :
  holds h x tx →
  run_to (LeakyReLU_forward a x) h (unchanged_except x) (result_holds h x)
    (inr (leaky_pure a tx)).
Proof.
  intros Hx. unfold run_to, LeakyReLU_forward.
  rewrite (load_bind h x tx) by done. destruct (inplace a).
  - unfold bind, store, ret. eexists _, _. split; [done|]. cbn [tensors].
    split; [split|split].
    + by rewrite length_insert.
    + intros l t Hne Hl. by rewrite list_lookup_insert_ne.
    + apply list_lookup_insert_eq. by apply holds_lt in Hx.
    + by left.
  - unfold alloc. eexists _, _. split; [done|].
    split; [apply extends_unchanged, extends_app|].
    split; [apply holds_snoc|by right].
Qed.

Lemma run_to_weaken {A B} (m : M A) (h : state) (F F' : heap → heap → Prop)
    (R R' : heap → A → B → Prop) den :
  run_to m h F R den →
  (∀ h' : heap, F h h' → F' h h') →
  (∀ (h' : heap) a b, F h h' → R h' a b → R' h' a b) →
  run_to m h F' R' den.
Proof.
  intros (r & h' & Hrun & Hfr & Hag) HF HR.
  exists r, h'. split; [done|]. split; [by apply HF|].
  destruct den, r; simpl in *; try done. by apply HR.
Qed.

Lemma layer_forward_spec E (h : state) l x tx :
  extends E h → live E (layer_parameters l) → holds h x tx →
  run_to (layer_forward l x) h (unchanged_except x) (result_holds h x)
    (layer_den E l tx).
Proof.
  intros Hext Hlive Hx. destruct l as [c|a]; simpl.
  - eapply run_to_weaken; [by apply Conv1d_forward_spec| |].
    + intros h'. apply extends_unchanged.
    + intros h' l t _ [Hl Hfresh]. split; [done|by right].
  - by apply LeakyReLU_forward_spec.
Qed.

(** A [Sequential] overwrites at most its argument, which must not be one
    of the objects of [E]. *)
Lemma Sequential_forward_spec E ls : ∀ (h : state) x tx,
  extends E h → live E (Sequential_parameters ls) → length E ≤ x →
  holds h x tx →
  run_to (Sequential_forward ls x) h (unchanged_except x) (result_holds h x)
    (Sequential_den E ls tx).
Proof.
  induction ls as [|l ls IH]; intros h x tx Hext Hlive HEx Hx; simpl.
  - apply run_to_ret; [by apply extends_unchanged, extends_refl|].
    split; [done|by left].
  - unfold Sequential_parameters in Hlive. simpl in Hlive.
    apply Forall_app in Hlive as [Hl Hls].
    eapply run_to_bind; [by apply layer_forward_spec|done|].
    intros x1 t1 h1 Hun [Hx1 Hor].
    assert (length h ≤ length h1) as Hlen by apply Hun.
    assert (length E ≤ length h) as HlenE by by apply extends_length.
    assert (length E ≤ x1) as HEx1 by (destruct Hor; lia).
    assert (extends E h1) as Hext1 by by eapply unchanged_extends.
    eapply run_to_weaken; [by apply IH| |].
    + intros h' [Hlen' Hun']. destruct Hun as [_ Hun]. split; [lia|].
      intros k t Hne Hk. apply Hun'; [|by apply Hun].
      destruct Hor as [->|Hfresh]; [done|].
      apply lookup_lt_Some in Hk. lia.
    + intros h' k t _ [Hk Hor']. split; [done|].
      destruct Hor' as [->|?]; [|right; lia].
      destruct Hor; [by left|by right].
Qed.

(** ** [Dblock.forward] *)

(** The two in-place activations hit [x] and [y1], both made by this call
    and not read again afterwards under their old value: the call leaves
    every object it was given as it was, and returns what [Dblock_den]
    says. *)
Lemma Dblock_forward_spec E (h : state) d spec cond ts tc :
  extends E h → live E (Dblock_parameters d) →
  holds h spec ts → holds h cond tc →
  run_to (Dblock_forward d spec cond) h extends (pair_holds h)
    (Dblock_den E d ts tc).
Proof.
  intros Hext Hlive Hs Hc. unfold Dblock_parameters in Hlive.
  apply Forall_app in Hlive as [L1 Hlive].
  apply Forall_app in Hlive as [L2 Hlive].
  apply Forall_app in Hlive as [L3 L4].
  assert (length E ≤ length h) as HlenE by by apply extends_length.
  unfold Dblock_forward, Dblock_den.
  (* x1 = self.input_spec(spec) *)
  eapply run_to_bind; [by apply Conv1d_forward_spec|done|].
  intros x1 tx1 h1 H1 [Hx1 F1]. simpl in H1.
  assert (length h ≤ length h1) as Hlen1 by by apply extends_length.
  assert (x1 < length h1) as Bx1 by by apply holds_lt in Hx1.
  (* y1 = self.input_cond(cond) *)
  eapply run_to_bind;
    [apply Conv1d_forward_spec; [ext|done|by apply H1]
    |intros h2 H2; ext|].
  intros y1 ty1 h2 H2 [Hy1 F2]. simpl in H2.
  assert (extends h h2) as Hh2 by ext.
  assert (length h1 ≤ length h2) as Hlen2 by by apply extends_length.
  assert (y1 < length h2) as By1 by by apply holds_lt in Hy1.
  (* x = x1 + y1 *)
  eapply run_to_bind;
    [apply tensor_add_spec; [by apply H2|done]
    |intros h3 H3; ext|].
  intros x tx h3 H3 [Hx F3]. simpl in H3.
  assert (extends h h3) as Hh3 by ext.
  assert (length h2 ≤ length h3) as Hlen3 by by apply extends_length.
  assert (x < length h3) as Bx by by apply holds_lt in Hx.
  (* out1 = self.output_spec(x) *)
  eapply run_to_bind;
    [apply Sequential_forward_spec;
       [ext|done|lia|done]
    |intros h4 H4; eapply unchanged_extends; [done..|lia]|].
  intros out1 tout1 h4 H4 [Hout1 O1]. simpl in H4.
  assert (length h3 ≤ length h4) as Hlen4 by apply H4.
  assert (extends h h4) as Hh4 by (eapply unchanged_extends; [done..|lia]).
  assert (holds h4 y1 ty1) as Hy1'
    by (apply H4; [lia|by apply H3]).
  assert (holds h4 x1 tx1) as Hx1'
    by (apply H4; [lia|by apply H3, H2]).
  (* out2 = self.output_cond(y1) *)
  eapply run_to_bind;
    [apply Sequential_forward_spec;
       [ext|done|lia|done]
    |intros h5 H5; eapply unchanged_extends; [done..|lia]|].
  intros out2 tout2 h5 H5 [Hout2 O2]. simpl in H5.
  assert (length h4 ≤ length h5) as Hlen5 by apply H5.
  assert (extends h h5) as Hh5 by (eapply unchanged_extends; [done..|lia]).
  assert (holds h5 out1 tout1) as Hout1'
    by (apply H5; [destruct O1; lia|done]).
  assert (holds h5 x1 tx1) as Hx1'' by (apply H5; [lia|done]).
  (* out1 + x1, out2 + cond *)
  eapply run_to_bind;
    [by apply tensor_add_spec
    |intros h6 H6; ext|].
  intros r1 tr1 h6 H6 [Hr1 F6]. simpl in H6.
  assert (extends h h6) as Hh6 by ext.
  assert (length h5 ≤ length h6) as Hlen6 by by apply extends_length.
  eapply run_to_bind;
    [apply tensor_add_spec; [by apply H6|by apply Hh6]
    |intros h7 H7; ext|].
  intros r2 tr2 h7 H7 [Hr2 F7]. simpl in H7.
  apply run_to_ret; [ext|].
  unfold pair_holds. simpl. split_and!; [by apply H7|done|lia|lia].
Qed.

(** ** [MSGDiscriminator.forward] *)

Lemma bindE_assoc {A B C} (r : exn + A) (f : A → exn + B) (g : B → exn + C) :
  bindE (bindE r f) g = bindE r (fun a => bindE (f a) g).
Proof. by destruct r. Qed.

Lemma MSG_loop_spec E its : ∀ (h : state) x y tx ty feats,
  extends E h →
  live E (concat (map (fun it => Dblock_parameters it.2) its)) →
  holds h x tx → holds h y ty →
  run_to (MSG_loop its x y feats) h extends (loop_holds h feats)
    (MSG_chain E its tx ty).
Proof.
  induction its as [|[key d] its IH]; intros h x y tx ty feats Hext Hlive Hx Hy;
    simpl.
  - apply run_to_ret; [apply extends_refl|].
    split_and!; [done..|]. exists []. simpl.
    split_and!; [by rewrite app_nil_r|constructor|constructor].
  - change (live E (Dblock_parameters d
              ++ concat (map (fun it => Dblock_parameters it.2) its)))
      in Hlive.
    apply Forall_app in Hlive as [Ld Lits].
    eapply run_to_bind; [by apply Dblock_forward_spec|done|].
    intros [x1 y1] [tx1 ty1] h1 H1 (Hx1 & Hy1 & F1 & F2). simpl in *.
    assert (length h ≤ length h1) as Hlen by by apply extends_length.
    destruct (IH h1 x1 y1 tx1 ty1 (feats ++ [x1])) as (r & h' & Hrun & H' & Hag);
      [ext|done..|].
    exists r, h'. split; [done|]. split; [ext|].
    destruct (MSG_chain E its tx1 ty1) as [e|[[txn tyn] tfs]],
      r as [e'|[[xn yn] fs]]; simpl in *; try done.
    unfold loop_holds, appended in *. simpl in *.
    destruct Hag as (Hxn & Hyn & new & -> & Hnew & Hfresh).
    split_and!; [done..|].
    exists (x1 :: new). simpl. split_and!.
    + by rewrite <- app_assoc.
    + constructor; [by apply H'|done].
    + constructor; [done|]. eapply Forall_impl; [done|]. simpl. lia.
Qed.

Lemma run_to_last_item {A B} fs l (f : loc → M A) (h : state) F
    (R : heap → A → B → Prop) den :
  run_to (f l) h F R den → run_to (bind (last_item (fs ++ [l])) f) h F R den.
Proof. unfold run_to, bind, last_item. by rewrite last_snoc. Qed.

Lemma MSGDiscriminator_forward_spec E (h : state) m x y tx ty :
  extends E h → live E (MSG_parameters m) →
  holds h x tx → holds h y ty →
  run_to (MSGDiscriminator_forward m x y) h extends (feats_hold h)
    (MSG_den E m tx ty).
Proof.
  intros Hext Hlive Hx Hy. unfold MSG_parameters in Hlive.
  apply Forall_app in Hlive as [Lits Hlive].
  apply Forall_app in Hlive as [Ls Lc].
  unfold MSGDiscriminator_forward, MSG_den, items.
  eapply run_to_bind; [by apply MSG_loop_spec|done|].
  intros [[xn yn] fs] [[txn tyn] tfs] h1 H1
    (Hxn & Hyn & new & Hfs & Hnew & Hfresh).
  simpl in *. subst fs. unfold MSG_score. rewrite bindE_assoc.
  (* self.disc_spec(x) + self.disc_cond(y) *)
  eapply run_to_bind;
    [apply Conv1d_forward_spec; [ext|done..]
    |intros h2 H2; ext|].
  intros a ta h2 H2 [Ha Fa]. simpl in H2. rewrite bindE_assoc.
  assert (extends h h2) as Hh2 by ext.
  eapply run_to_bind;
    [apply Conv1d_forward_spec;
       [ext|done|by apply H2]
    |intros h3 H3; ext|].
  intros b tb h3 H3 [Hb Fb]. simpl in H3. rewrite bindE_assoc.
  assert (extends h h3) as Hh3 by ext.
  eapply run_to_bind;
    [apply tensor_add_spec; [by apply H3|done]
    |intros h4 H4; ext|].
  intros out tout h4 H4 [Hout Fout]. simpl in H4.
  assert (extends h h4) as Hh4 by ext.
  (* features[:-1], torch.flatten(features[-1], 1, -1) *)
  apply run_to_last_item.
  eapply run_to_bind;
    [by apply flatten_spec|intros h5 H5; ext|].
  intros s ts h5 H5 [Hs Fs]. simpl in H5.
  assert (extends h1 h5) as H15
    by ext.
  apply run_to_ret; [ext|].
  rewrite removelast_last. unfold feats_hold. simpl.
  assert (∀ l, l ∈ new → l < length h4) as Hlt.
  { intros l Hl. eapply all_hold_lt; [|done].
    eapply all_hold_extends; [|done].
    ext. }
  split_and!.
  - by eapply all_hold_extends.
  - done.
  - intros Hin. apply Hlt in Hin. lia.
  - constructor; [apply extends_length in Hh4; lia|done].
Qed.

(** ** [MultiMSGDiscriminator.forward] *)

Lemma MultiMSG_loop_spec E ds its : ∀ (h : state) x y tx ty outputs features,
  extends E h → live E (model_parameters its) →
  holds h x tx → holds h y ty →
  run_to (MultiMSG_loop ds its x y outputs features) h extends
    (scales_hold h features outputs) (MultiMSG_scales E ds its tx ty).
Proof.
  induction its as [|[key disc] its IH];
    intros h x y tx ty outputs features Hext Hlive Hx Hy; simpl.
  - apply run_to_ret; [apply extends_refl|].
    split; [exists []|exists []]; simpl;
      split_and?; by first [rewrite app_nil_r|constructor].
  - change (live E (MSG_parameters disc ++ model_parameters its)) in Hlive.
    apply Forall_app in Hlive as [Ld Lits].
    (* feats, out = disc(x, y) *)
    eapply run_to_bind; [by apply MSGDiscriminator_forward_spec|done|].
    intros [feats out] [tfeats tout] h1 H1 (Hfeats & Hout & _ & Hfr).
    simpl in *. apply Forall_cons in Hfr as [Hfo _].
    (* x = self.downsample(x); y = self.downsample(y) *)
    eapply run_to_bind;
      [apply AvgPool1d_forward_spec; by apply H1|intros h2 H2; ext|].
    intros x' tx' h2 H2 [Hx' Fx']. simpl in H2.
    assert (extends h h2) as Hh2 by ext.
    eapply run_to_bind;
      [apply AvgPool1d_forward_spec; by apply Hh2|intros h3 H3; ext|].
    intros y' ty' h3 H3 [Hy' Fy']. simpl in H3.
    assert (extends h h3) as Hh3 by ext.
    assert (extends h1 h3) as H13 by ext.
    assert (length h ≤ length h3) as Hlen by by apply extends_length.
    destruct (IH h3 x' y' tx' ty' (outputs ++ [out]) (features ++ [feats]))
      as (r & h' & Hrun & H' & Hag); [ext|done|by apply H3|done|].
    exists r, h'. split; [done|]. split; [ext|].
    destruct (MultiMSG_scales E ds its tx' ty') as [e|[tfs tos]],
      r as [e'|[fs os]]; simpl in *; try done.
    unfold scales_hold, appended in *. simpl in *.
    destruct Hag as ((newf & -> & Hnewf) & newo & -> & Hnewo & Hfresh).
    split.
    + exists (feats :: newf). split; [by rewrite <- app_assoc|].
      constructor; [|done]. eapply all_hold_extends; [|done]. ext.
    + exists (out :: newo). split_and!.
      * by rewrite <- app_assoc.
      * constructor; [|done]. apply H', H13, Hout.
      * constructor; [done|]. eapply Forall_impl; [done|]. simpl. lia.
Qed.

Lemma MultiMSGDiscriminator_forward_spec E (h : state) m x y tx ty :
  extends E h → live E (model_parameters (model m)) →
  holds h x tx → holds h y ty →
  run_to (MultiMSGDiscriminator_forward m x y) h extends
    (scales_hold h [] []) (MultiMSG_den E m tx ty).
Proof. intros. by apply MultiMSG_loop_spec. Qed.

(** ** [MelGANDiscriminator.forward] *)

Lemma entry_forward_spec E (h : state) e x tx :
  conv_first e → extends E h → live E (entry_parameters e) → holds h x tx →
  run_to (entry_forward e x) h extends (fresh_holds h) (entry_den E e tx).
Proof.
  intros Hcf Hext Hlive Hx.
  destruct e as [[|[c|a] ls]|[c|a]]; try done; simpl.
  - change (live E (Conv1d_parameters c ++ Sequential_parameters ls))
      in Hlive.
    apply Forall_app in Hlive as [Lc Lls].
    eapply run_to_bind; [by apply Conv1d_forward_spec|done|].
    intros x1 t1 h1 H1 [Hx1 F1]. simpl in H1.
    assert (length E ≤ length h) as HlenE by by apply extends_length.
    assert (length h ≤ length h1) as Hlen by by apply extends_length.
    eapply run_to_weaken;
      [apply Sequential_forward_spec; [ext|done|lia|done]| |].
    + intros h' Hun. eapply unchanged_extends; [done..|lia].
    + intros h' l t _ [Hl Hor]. split; [done|]. destruct Hor; lia.
  - apply Conv1d_forward_spec; [done| |done].
    unfold live, entry_parameters, layer_parameters in *. done.
Qed.

Lemma MelGAN_loop_spec E its : ∀ (h : state) x tx feats,
  Forall (fun it => conv_first it.2) its →
  extends E h →
  live E (concat (map (fun it => entry_parameters it.2) its)) →
  holds h x tx →
  run_to (MelGAN_loop its x feats) h extends (appended h feats)
    (MelGAN_chain E its tx).
Proof.
  induction its as [|[key e] its IH]; intros h x tx feats Hcf Hext Hlive Hx;
    simpl.
  - apply run_to_ret; [apply extends_refl|].
    exists []. split_and!; by first [rewrite app_nil_r|constructor].
  - change (live E (entry_parameters e
              ++ concat (map (fun it => entry_parameters it.2) its)))
      in Hlive.
    apply Forall_app in Hlive as [Le Lits].
    apply Forall_cons in Hcf as [Hcfe Hcf]. simpl in Hcfe.
    eapply run_to_bind; [by apply entry_forward_spec|done|].
    intros x1 tx1 h1 H1 [Hx1 F1]. simpl in H1.
    assert (length h ≤ length h1) as Hlen by by apply extends_length.
    destruct (IH h1 x1 tx1 (feats ++ [x1])) as (r & h' & Hrun & H' & Hag);
      [done|ext|done..|].
    exists r, h'. split; [done|]. split; [ext|].
    destruct (MelGAN_chain E its tx1) as [e'|tfs], r as [e''|fs];
      simpl in *; try done.
    unfold appended in *.
    destruct Hag as (new & -> & Hnew & Hfresh).
    exists (x1 :: new). split_and!.
    + by rewrite <- app_assoc.
    + constructor; [by apply H'|done].
    + constructor; [done|]. eapply Forall_impl; [done|]. simpl. lia.
Qed.

Lemma all_hold_last h ls ts :
  all_hold h ls ts →
  match last ls, last ts with
  | Some l, Some t =>
      holds h l t ∧ all_hold h (removelast ls) (removelast ts)
  | None, None => True
  | _, _ => False
  end.
Proof.
  induction 1 as [|l t ls ts Hl Hall IH]; [done|].
  destruct Hall as [|l' t' ls ts Hl' Hall]; [by split; [|constructor]|].
  change (last (l :: l' :: ls)) with (last (l' :: ls)).
  change (last (t :: t' :: ts)) with (last (t' :: ts)).
  change (removelast (l :: l' :: ls)) with (l :: removelast (l' :: ls)).
  change (removelast (t :: t' :: ts)) with (t :: removelast (t' :: ts)).
  destruct (last (l' :: ls)), (last (t' :: ts)); try done.
  destruct IH as [Hlast Hrest]. split; [done|by constructor].
Qed.

Lemma MelGANDiscriminator_forward_spec E (h : state) m x tx :
  Forall (fun it => conv_first it.2) (mg_discriminator m) →
  extends E h → live E (MelGAN_parameters m) → holds h x tx →
  run_to (MelGANDiscriminator_forward m x) h extends result_hold
    (MelGAN_den E m tx).
Proof.
  intros Hcf Hext Hlive Hx.
  unfold MelGANDiscriminator_forward, MelGAN_den, items.
  eapply run_to_bind; [by apply MelGAN_loop_spec|done|].
  intros fs tfs h1 H1 (new & -> & Hnew & _). simpl in *.
  apply all_hold_last in Hnew. unfold run_to, bind, last_item.
  destruct (last new) as [l|], (last tfs) as [t|]; try done.
  - destruct Hnew as [Hl Hrest]. by eexists _, _.
  - by eexists _, _.
Qed.

(** ** [MultiScaleDiscriminator.forward] *)

Lemma MultiScaleDiscriminator_forward_spec (h : state) m x :
  run_to (MultiScaleDiscriminator_forward m x) h eq (scales_hold h [] [])
    (MultiScale_den m).
Proof.
  unfold MultiScaleDiscriminator_forward, MultiScale_den, items.
  destruct (ms_model m) as [|[key disc] its]; simpl.
  - apply run_to_ret; [done|].
    split; [exists []|exists []]; simpl; split_and?; by constructor.
  - by eexists _, _.
Qed.

(** ** Constructors *)

Lemma live_mono h h' ps : length h ≤ length h' → live h ps → live h' ps.
Proof.
  intros Hlen Hlive. eapply Forall_impl; [done|]. simpl. lia.
Qed.

Lemma builds_bind {A B} (m : M A) (f : A → M B) (h : state) P Q :
  builds m h P →
  (∀ a (h1 : state), length h ≤ length h1 → P a h1 → builds (f a) h1 Q) →
  builds (bind m f) h Q.
Proof.
  intros Hm Hk b h' Hrun. unfold bind in Hrun.
  destruct (m h) as [[e|a] h1] eqn:Em; [done|].
  destruct (Hm a h1 Em) as [Hlen HP].
  destruct (Hk a h1 Hlen HP b h' Hrun) as [Hlen' HQ]. split; [lia|done].
Qed.

Lemma builds_ret {A} (a : A) (h : state) (P : A → heap → Prop) :
  P a h → builds (ret a) h P.
Proof. intros HP b h' [= <- <-]. by split. Qed.

Lemma builds_weaken {A} (m : M A) (h : state) (P Q : A → heap → Prop) :
  builds m h P →
  (∀ a (h' : state), length h ≤ length h' → P a h' → Q a h') →
  builds m h Q.
Proof.
  intros Hm HPQ a h' Hrun. destruct (Hm a h' Hrun) as [Hlen HP].
  split; [done|]. by apply HPQ.
Qed.

(** The run of [weight_norm_Conv1d], which returns unless there are no
    output channels. *)
Lemma weight_norm_Conv1d_run cin cout k s p (h : state) :
  weight_norm_Conv1d cin cout k s p h
  = let v := {| shape := [cout; cin; k];
                data := k_param (length h) [cout; cin; k] |} in
    let b := {| shape := [cout]; data := k_param (S (length h)) [cout] |} in
    let g := {| shape := [cout; 1; 1];
                data := k_norm_except_dim (data v) |} in
    if decide (cout = 0) then
      (inl (TorchError EmptyWeight),
       {| tensors := h ++ [v; b]; attrs := attrs h |})
    else
      (inr {| in_channels := cin; out_channels := cout; kernel_size := k;
              stride := s; padding := p; weight := fresh_attr (attrs h);
              weight_g := S (S (length h)); weight_v := length h;
              bias := S (length h) |},
       {| tensors := h ++ [v; b; g; weight_norm_pure g v];
          attrs := bind_attr (fresh_attr (attrs h)) (S (S (S (length h))))
                     (attrs h) |}).
Proof.
  destruct h as [hs ha]. unfold weight_norm_Conv1d.
  rewrite bind_new_param. cbn [tensors attrs].
  rewrite bind_new_param. cbn [tensors attrs].
  rewrite length_app, Nat.add_1_r, <- app_assoc. cbn [app].
  destruct (decide (cout = 0)) as [Hz|Hnz]; [done|].
  erewrite load_bind; [|by apply list_lookup_middle].
  rewrite bind_alloc. cbn [tensors attrs data].
  rewrite length_app, <- app_assoc. cbn [app length].
  replace (length hs + 2) with (S (S (length hs))) by lia.
  erewrite load_bind; cycle 1.
  { unfold holds. cbn [tensors].
    rewrite (lookup_app_r hs) by lia.
    by replace (S (S (length hs)) - length hs) with 2 by lia. }
  rewrite bind_alloc. cbn [tensors attrs].
  rewrite length_app, <- app_assoc. cbn [app length].
  replace (length hs + 3) with (S (S (S (length hs)))) by lia.
  by rewrite bind_new_attr.
Qed.

Lemma weight_norm_Conv1d_spec cin cout k s p (h : state) :
  builds (weight_norm_Conv1d cin cout k s p) h
    (fun c h' => Conv1d_cfg c cin cout k s p ∧ live h' (Conv1d_parameters c)).
Proof.
  intros c h'. rewrite weight_norm_Conv1d_run. cbn zeta.
  destruct (decide (cout = 0)); [done|]. intros [= <- <-]. cbn.
  rewrite !length_app. cbn. split; [lia|]. split; [done|].
  unfold live, Conv1d_parameters. cbn. rewrite length_app. cbn [length].
  repeat (apply Forall_cons; split; [lia|]). constructor.
Qed.

(** A convolution that was constructed has output channels. *)
Lemma weight_norm_Conv1d_channels cin cout k s p (h : state) :
  builds (weight_norm_Conv1d cin cout k s p) h (fun _ _ => 1 ≤ cout).
Proof.
  intros c h'. rewrite weight_norm_Conv1d_run. cbn zeta.
  destruct (decide (cout = 0)); [done|]. intros [= <- <-]. cbn.
  rewrite !length_app. cbn. lia.
Qed.

Lemma Dblock_init_spec input_dim output_dim hidden_dim (h : state) :
  builds (Dblock_init input_dim output_dim hidden_dim) h
    (fun d h' => Dblock_cfg d input_dim output_dim hidden_dim
                 ∧ live h' (Dblock_parameters d)).
Proof.
  unfold Dblock_init.
  eapply builds_bind; [apply weight_norm_Conv1d_spec|].
  intros c1 h1 Hlen1 [C1 L1].
  eapply builds_bind; [apply weight_norm_Conv1d_spec|].
  intros c2 h2 Hlen2 [C2 L2].
  eapply builds_bind; [apply weight_norm_Conv1d_spec|].
  intros c3 h3 Hlen3 [C3 L3].
  eapply builds_bind; [apply weight_norm_Conv1d_spec|].
  intros c4 h4 Hlen4 [C4 L4].
  apply builds_ret. split.
  - split_and!; [done..|]. by exists c3, c4.
  - unfold Dblock_parameters, Sequential_parameters, live,
      Conv1d_parameters in *. simpl.
    repeat match goal with
           | H : Forall _ (_ :: _) |- _ => apply Forall_cons in H as [? ?]
           end.
    repeat constructor; lia.
Qed.

(** *** Keys of a [ModuleDict] *)

Lemma setitem_new {A} key (m : A) (d : ModuleDict A) :
  Forall (fun it => it.1 ≠ key) d → setitem key m d = d ++ [(key, m)].
Proof.
  induction 1 as [|[k m'] d Hne _ IH]; [done|]. simpl in *.
  rewrite decide_False by done. by rewrite IH.
Qed.

Lemma key_inj prefix (i j : nat) :
  prefix +:+ pretty i = prefix +:+ pretty j → i = j.
Proof. intros Heq. by apply (inj (String.app prefix)), (inj pretty) in Heq. Qed.

Lemma setitem_below {A} prefix k (m : A) (d : ModuleDict A) :
  keys_below prefix k d →
  setitem (prefix +:+ pretty k) m d = d ++ [(prefix +:+ pretty k, m)]
  ∧ keys_below prefix (S k) (d ++ [(prefix +:+ pretty k, m)]).
Proof.
  intros Hbelow. split.
  - apply setitem_new. eapply Forall_impl; [done|].
    intros it (j & Hj & ->) Heq. apply key_inj in Heq. lia.
  - apply Forall_app. split.
    + eapply Forall_impl; [done|]. intros it (j & Hj & ->).
      exists j. split; [lia|done].
    + constructor; [|done]. exists k. split; [lia|done].
Qed.

(** *** [MSGDiscriminator.__init__] *)

Lemma MSG_init_loop_spec hidden_dim n : ∀ k nf d (h : state),
  keys_below "layer_" k d →
  live h (concat (map (fun it => Dblock_parameters it.2) d)) →
  builds (MSG_init_loop (seq k n) nf hidden_dim d) h
    (fun r h' => ∃ new,
       r = (nf * 2 ^ n, d ++ new) ∧ length new = n
       ∧ layers_cfg hidden_dim k nf new
       ∧ live h' (concat (map (fun it => Dblock_parameters it.2) (d ++ new)))).
Proof.
  induction n as [|n IH]; intros k nf d h Hkeys Hlive; simpl.
  - apply builds_ret. exists []. rewrite app_nil_r.
    split_and!; [f_equal; lia|done..].
  - eapply builds_bind; [apply Dblock_init_spec|].
    intros b h1 Hlen1 [Cb Lb].
    destruct (setitem_below "layer_" k b d Hkeys) as [-> Hkeys'].
    eapply builds_weaken;
      [apply (IH (S k) (nf * 2) (d ++ [("layer_" +:+ pretty k, b)]) h1)|];
      [done| |].
    { rewrite map_app, concat_app. apply Forall_app. split.
      - by eapply live_mono.
      - simpl. by rewrite app_nil_r. }
    intros r h' Hlen' (new & -> & Hnew & Hcfg & Hlive').
    exists (("layer_" +:+ pretty k, b) :: new).
    rewrite <- app_assoc in *. simpl in *.
    split_and!; [f_equal; lia|by f_equal|done..].
Qed.

Lemma MSGDiscriminator_init_spec nf n_layers hidden_dim (h : state) :
  builds (MSGDiscriminator_init nf n_layers hidden_dim) h
    (fun m h' => MSG_cfg m nf n_layers hidden_dim
                 ∧ live h' (MSG_parameters m)).
Proof.
  unfold MSGDiscriminator_init.
  eapply builds_bind;
    [apply (MSG_init_loop_spec hidden_dim n_layers 1 nf []); by constructor|].
  intros [nf' d] h1 Hlen1 (new & [= -> ->] & Hnew & Hcfg & Hlive). simpl in *.
  eapply builds_bind; [apply weight_norm_Conv1d_spec|].
  intros ds h2 Hlen2 [Cs Ls].
  eapply builds_bind; [apply weight_norm_Conv1d_spec|].
  intros dc h3 Hlen3 [Cc Lc].
  apply builds_ret. split; [by split_and!|].
  unfold MSG_parameters. cbn [discriminator disc_spec disc_cond].
  unfold live in *. rewrite !Forall_app.
  split_and!; [| |done]; (eapply live_mono; [|done]); lia.
Qed.

(** *** [MultiMSGDiscriminator.__init__], [MultiScaleDiscriminator.__init__] *)

Lemma model_init_loop_spec ndf n_layers hidden_dim n : ∀ i d (h : state),
  keys_below "disc_" i d →
  live h (model_parameters d) →
  builds (model_init_loop (seq i n) ndf n_layers hidden_dim d) h
    (fun r h' => ∃ new,
       r = d ++ new ∧ length new = n
       ∧ model_cfg ndf n_layers hidden_dim i new
       ∧ live h' (model_parameters (d ++ new))).
Proof.
  induction n as [|n IH]; intros i d h Hkeys Hlive; simpl.
  - apply builds_ret. exists []. by rewrite app_nil_r.
  - eapply builds_bind; [apply MSGDiscriminator_init_spec|].
    intros b h1 Hlen1 [Cb Lb].
    destruct (setitem_below "disc_" i b d Hkeys) as [-> Hkeys'].
    eapply builds_weaken;
      [apply (IH (S i) (d ++ [("disc_" +:+ pretty i, b)]) h1)|];
      [done| |].
    { unfold model_parameters. rewrite map_app, concat_app.
      apply Forall_app. split.
      - by eapply live_mono.
      - simpl. by rewrite app_nil_r. }
    intros r h' Hlen' (new & -> & Hnew & Hcfg & Hlive').
    exists (("disc_" +:+ pretty i, b) :: new).
    rewrite <- app_assoc in *. simpl in *.
    split_and!; [done|by f_equal|done..].
Qed.

Lemma apply_weights_init_spec ps : ∀ (h : state),
  live h ps →
  builds (apply_weights_init ps) h (fun _ h' => length h' = length h).
Proof.
  induction ps as [|l ps IH]; intros h Hlive; simpl.
  - by apply builds_ret.
  - apply Forall_cons in Hlive as [Hl Hps].
    destruct (lookup_lt_is_Some_2 h l Hl) as [t Ht].
    unfold builds. rewrite (load_bind h l t) by done.
    unfold bind at 1, store.
    set (h1 := {| tensors := <[l:={| shape := shape t;
                                      data := k_weights_init (data t) |}]>
                               (tensors h);
                  attrs := attrs h |}).
    assert (length h1 = length h) as Hlen1 by apply length_insert.
    intros u h' Hrun. destruct (IH h1) with (a := u) (h' := h') as [Hlen Heq].
    { eapply live_mono; [|done]. lia. }
    { done. }
    split; lia.
Qed.

Lemma MultiMSGDiscriminator_init_spec
    num_D ndf n_layers downsampling_factor hidden_dim (h : state) :
  builds
    (MultiMSGDiscriminator_init num_D ndf n_layers downsampling_factor
       hidden_dim) h
    (fun m h' =>
       length (model m) = num_D
       ∧ model_cfg ndf n_layers hidden_dim 0 (model m)
       ∧ downsample m = downsample_init downsampling_factor
       ∧ live h' (model_parameters (model m))).
Proof.
  unfold MultiMSGDiscriminator_init.
  eapply builds_bind;
    [apply (model_init_loop_spec ndf n_layers hidden_dim num_D 0 []);
       by constructor|].
  intros d h1 Hlen1 (new & -> & Hnew & Hcfg & Hlive). simpl in *.
  eapply builds_bind; [by apply apply_weights_init_spec|].
  intros [] h2 Hlen2' Hlen2. simpl in Hlen2. apply builds_ret. simpl. split_and!; [done..|].
  eapply live_mono; [|done]. lia.
Qed.

Lemma MultiScaleDiscriminator_init_spec
    num_D ndf n_layers downsampling_factor hidden_dim (h : state) :
  builds
    (MultiScaleDiscriminator_init num_D ndf n_layers downsampling_factor
       hidden_dim) h
    (fun m h' =>
       length (ms_model m) = num_D
       ∧ model_cfg ndf n_layers hidden_dim 0 (ms_model m)
       ∧ ms_downsample m = downsample_init downsampling_factor
       ∧ live h' (model_parameters (ms_model m))).
Proof.
  unfold MultiScaleDiscriminator_init.
  eapply builds_bind;
    [apply (model_init_loop_spec ndf n_layers hidden_dim num_D 0 []);
       by constructor|].
  intros d h1 Hlen1 (new & -> & Hnew & Hcfg & Hlive). simpl in *.
  eapply builds_bind; [by apply apply_weights_init_spec|].
  intros [] h2 Hlen2' Hlen2. simpl in Hlen2. apply builds_ret. simpl. split_and!; [done..|].
  eapply live_mono; [|done]. lia.
Qed.

(** *** [MelGANDiscriminator.__init__] *)

Lemma MelGAN_init_loop_spec nf n : ∀ k d (h : state),
  keys_below "layer_" k d →
  live h (concat (map (fun it => entry_parameters it.2) d)) →
  builds (MelGAN_init_loop (seq k n) nf d) h
    (fun r h' => ∃ new,
       r = d ++ new ∧ length new = n
       ∧ Forall (strided_cfg nf) new
       ∧ keys_below "layer_" (k + n) (d ++ new)
       ∧ live h' (concat (map (fun it => entry_parameters it.2) (d ++ new)))).
Proof.
  induction n as [|n IH]; intros k d h Hkeys Hlive; simpl.
  - apply builds_ret. exists []. rewrite app_nil_r, Nat.add_0_r.
    by split_and!.
  - eapply builds_bind; [apply weight_norm_Conv1d_spec|].
    intros c h1 Hlen1 [Cc Lc].
    destruct (setitem_below "layer_" k (ESeq [LConv c; LLeaky lrelu]) d Hkeys)
      as [-> Hkeys'].
    set (it := ("layer_" +:+ pretty k, ESeq [LConv c; LLeaky lrelu])) in *.
    eapply builds_weaken; [apply (IH (S k) (d ++ [it]) h1)|]; [done| |].
    { rewrite map_app, concat_app. apply Forall_app. split.
      - by eapply live_mono.
      - subst it. simpl. unfold Sequential_parameters. simpl.
        rewrite ?app_nil_r. exact Lc. }
    intros r h' Hlen' (new & -> & Hnew & Hcfg & Hk & Hlive').
    exists (it :: new). rewrite <- app_assoc in *. simpl in *.
    split_and!; [done|by f_equal| |by rewrite <- Nat.add_succ_comm|done].
    constructor; [|done]. by exists c.
Qed.

Lemma MelGANDiscriminator_init_spec input_dim ndf n_layers disc_out (h : state) :
  builds (MelGANDiscriminator_init input_dim ndf n_layers disc_out) h
    (fun m h' => MelGAN_cfg m input_dim ndf n_layers disc_out
                 ∧ live h' (MelGAN_parameters m)).
Proof.
  unfold MelGANDiscriminator_init.
  eapply builds_bind; [apply weight_norm_Conv1d_spec|].
  intros c0 h1 Hlen1 [C0 L0]. simpl setitem.
  set (it0 := ("layer_0", ESeq [LConv c0; LLeaky lrelu])).
  eapply builds_bind; [apply (MelGAN_init_loop_spec ndf n_layers 1 [it0])|].
  { constructor; [|done]. exists 0. split; [lia|done]. }
  { subst it0. simpl. unfold Sequential_parameters. simpl.
    rewrite ?app_nil_r. exact L0. }
  intros d h2 Hlen2 (mid & -> & Hmid & Hcfg & Hkeys & Hlive).
  eapply builds_bind; [apply weight_norm_Conv1d_spec|].
  intros c1 h3 Hlen3 [C1 L1].
  rewrite (Nat.add_comm 1 n_layers) in Hkeys.
  destruct (setitem_below "layer_" (n_layers + 1)
              (ESeq [LConv c1; LLeaky lrelu]) _ Hkeys) as [-> Hkeys1].
  eapply builds_bind; [apply weight_norm_Conv1d_spec|].
  intros c2 h4 Hlen4 [C2 L2].
  replace (S (n_layers + 1)) with (n_layers + 2) in Hkeys1 by lia.
  destruct (setitem_below "layer_" (n_layers + 2)
              (ELayer (LConv c2)) _ Hkeys1) as [-> _].
  apply builds_ret. split.
  - exists c0, mid, c1, c2. simpl. rewrite <- !app_assoc. by split_and!.
  - unfold MelGAN_parameters. cbn [mg_discriminator].
    rewrite 2!map_app, 2!concat_app. unfold live in *. rewrite !Forall_app.
    split_and!.
    + eapply live_mono; [|done]. lia.
    + simpl. unfold Sequential_parameters. simpl. rewrite ?app_nil_r.
      eapply live_mono; [|exact L1]. lia.
    + simpl. rewrite ?app_nil_r. exact L2.
Qed.

(** *** What a constructor that returns was given

    Weight norm fails on a convolution without output channels, and with
    it the constructor of the module. *)

Lemma builds_and {A} (m : M A) (h : state) (P Q : A → heap → Prop) :
  builds m h P → builds m h Q → builds m h (fun a h' => P a h' ∧ Q a h').
Proof.
  intros HP HQ a h' Hrun. destruct (HP a h' Hrun) as [Hlen Pa].
  destruct (HQ a h' Hrun) as [_ Qa]. done.
Qed.

Lemma builds_const {A} (m : M A) (h : state) (P : A → heap → Prop) (Q : Prop) :
  builds m h P → Q → builds m h (fun _ _ => Q).
Proof. intros HP HQ a h' Hrun. by destruct (HP a h' Hrun) as [Hlen _]. Qed.

Lemma Dblock_init_channels input_dim output_dim hidden_dim (h : state) :
  builds (Dblock_init input_dim output_dim hidden_dim) h
    (fun _ _ => 1 ≤ output_dim ∧ 1 ≤ hidden_dim).
Proof.
  unfold Dblock_init.
  eapply builds_bind; [apply weight_norm_Conv1d_channels|].
  intros c1 h1 _ Hout.
  eapply builds_bind; [apply weight_norm_Conv1d_spec|]. intros c2 h2 _ _.
  eapply builds_bind; [apply weight_norm_Conv1d_spec|]. intros c3 h3 _ _.
  eapply builds_bind; [apply weight_norm_Conv1d_channels|].
  intros c4 h4 _ Hhid. by apply builds_ret.
Qed.

Lemma MSGDiscriminator_init_channels nf n_layers hidden_dim (h : state) :
  builds (MSGDiscriminator_init nf n_layers hidden_dim) h
    (fun _ _ => n_layers = 0 ∨ (1 ≤ nf ∧ 1 ≤ hidden_dim)).
Proof.
  destruct n_layers as [|n];
    [eapply builds_const; [apply MSGDiscriminator_init_spec|by left]|].
  unfold MSGDiscriminator_init. cbn [seq MSG_init_loop].
  unfold bind at 2.
  intros m h' Hrun.
  destruct (MSGDiscriminator_init_spec nf (S n) hidden_dim h m h') as [Hlen _].
  { exact Hrun. }
  split; [done|]. right. revert Hrun. unfold MSGDiscriminator_init.
  cbn [seq MSG_init_loop]. unfold bind at 1 2.
  destruct (Dblock_init nf (nf * 2) hidden_dim h) as [[e|b] h1] eqn:Eb;
    [done|].
  destruct (Dblock_init_channels nf (nf * 2) hidden_dim h b h1 Eb)
    as [_ [Hnf Hhid]].
  intros _. lia.
Qed.

Lemma model_init_loop_channels ndf n_layers hidden_dim n i d (h : state) :
  keys_below "disc_" i d →
  live h (model_parameters d) →
  builds (model_init_loop (seq i n) ndf n_layers hidden_dim d) h
    (fun _ _ => n = 0 ∨ n_layers = 0 ∨ (1 ≤ ndf ∧ 1 ≤ hidden_dim)).
Proof.
  intros Hkeys Hlive r h' Hrun.
  destruct (model_init_loop_spec ndf n_layers hidden_dim n i d h Hkeys Hlive
              r h' Hrun) as [Hlen _].
  split; [done|]. destruct n as [|n]; [by left|right].
  revert Hrun. cbn [seq model_init_loop]. unfold bind at 1.
  destruct (MSGDiscriminator_init ndf n_layers hidden_dim h) as [[e|b] h1]
    eqn:Eb; [done|].
  by destruct (MSGDiscriminator_init_channels ndf n_layers hidden_dim h b h1 Eb)
    as [_ Hch].
Qed.

Lemma MultiMSGDiscriminator_init_channels
    num_D ndf n_layers downsampling_factor hidden_dim (h : state) :
  builds
    (MultiMSGDiscriminator_init num_D ndf n_layers downsampling_factor
       hidden_dim) h
    (fun _ _ => num_D = 0 ∨ n_layers = 0 ∨ (1 ≤ ndf ∧ 1 ≤ hidden_dim)).
Proof.
  unfold MultiMSGDiscriminator_init.
  eapply builds_bind.
  { apply builds_and;
      [apply (model_init_loop_spec ndf n_layers hidden_dim num_D 0 [])
      |apply (model_init_loop_channels ndf n_layers hidden_dim num_D 0 [])];
      by constructor. }
  intros d h1 Hlen1 [(new & -> & Hnew & Hcfg & Hlive) Hch]. simpl in *.
  eapply builds_bind; [by apply apply_weights_init_spec|].
  intros [] h2 _ _. by apply builds_ret.
Qed.

Lemma MelGANDiscriminator_init_channels input_dim ndf n_layers disc_out
    (h : state) :
  builds (MelGANDiscriminator_init input_dim ndf n_layers disc_out) h
    (fun _ _ => 1 ≤ ndf ∧ 1 ≤ disc_out).
Proof.
  intros m h' Hrun.
  destruct (MelGANDiscriminator_init_spec input_dim ndf n_layers disc_out h
              m h' Hrun) as [Hlen _].
  split; [done|]. revert Hrun. unfold MelGANDiscriminator_init.
  unfold bind at 1.
  destruct (weight_norm_Conv1d input_dim ndf 3 1 0 h) as [[e|c0] h1] eqn:E0;
    [done|].
  destruct (weight_norm_Conv1d_channels _ _ _ _ _ h c0 h1 E0) as [_ Hndf].
  cbn zeta. unfold bind at 1.
  destruct (MelGAN_init_loop _ _ _ h1) as [[e|d] h2]; [done|].
  unfold bind at 1.
  destruct (weight_norm_Conv1d _ disc_out 3 1 2 h2) as [[e|c1] h3] eqn:E1;
    [done|].
  by destruct (weight_norm_Conv1d_channels _ _ _ _ _ h2 c1 h3 E1) as [_ Hdo].
Qed.

(** ** Shapes *)

Lemma out_len_3_1_1 l : 1 ≤ l → out_len 3 1 1 l = l.
Proof. intros Hl. unfold out_len. rewrite Nat.div_1_r. lia. Qed.

Lemma bdim_same a : bdim a a = Some a.
Proof. unfold bdim. by rewrite decide_True. Qed.

Lemma bdim_absorb a b c : bdim a b = Some c → bdim c a = Some c.
Proof.
  unfold bdim. intros H0. repeat case_decide; simplify_eq; done.
Qed.

Lemma broadcast_rev_same s : broadcast_rev s s = Some s.
Proof. induction s as [|a s IH]; [done|]. simpl. by rewrite bdim_same, IH. Qed.

Lemma broadcast_same s : broadcast s s = Some s.
Proof.
  unfold broadcast. rewrite broadcast_rev_same. simpl.
  by rewrite reverse_involutive.
Qed.

Lemma broadcast_3 a1 c1 l1 a2 c2 l2 :
  broadcast [a1; c1; l1] [a2; c2; l2]
  = match bdim l1 l2, bdim c1 c2, bdim a1 a2 with
    | Some l, Some c, Some a => Some [a; c; l]
    | _, _, _ => None
    end.
Proof.
  unfold broadcast. simpl.
  by destruct (bdim l1 l2), (bdim c1 c2), (bdim a1 a2).
Qed.

Lemma add_pure_shape a b s :
  shape a = s → shape b = s →
  ∃ t, add_pure a b = inr t ∧ shape t = s.
Proof.
  intros Ha Hb. unfold add_pure. rewrite Ha, Hb, broadcast_same. by eexists.
Qed.

Lemma add_pure_broadcast a b a1 l1 a2 l2 c1 c2 a' c' l' :
  shape a = [a1; c1; l1] → shape b = [a2; c2; l2] →
  bdim a1 a2 = Some a' → bdim c1 c2 = Some c' → bdim l1 l2 = Some l' →
  ∃ t, add_pure a b = inr t ∧ shape t = [a'; c'; l'].
Proof.
  intros Ha Hb Ha' Hc' Hl'. unfold add_pure.
  rewrite Ha, Hb, broadcast_3, Ha', Hc', Hl'. by eexists.
Qed.

Lemma add_pure_refused a b a1 c1 l1 a2 c2 l2 :
  shape a = [a1; c1; l1] → shape b = [a2; c2; l2] →
  bdim a1 a2 = None ∨ bdim c1 c2 = None ∨ bdim l1 l2 = None →
  add_pure a b = inl (TorchError NotBroadcastable).
Proof.
  intros Ha Hb Hnone. unfold add_pure. rewrite Ha, Hb, broadcast_3.
  by destruct Hnone as [-> | [-> | ->]],
       (bdim l1 l2), (bdim c1 c2), (bdim a1 a2).
Qed.

Lemma add_pure_returns a b t a1 c1 l1 a2 c2 l2 :
  add_pure a b = inr t → shape a = [a1; c1; l1] → shape b = [a2; c2; l2] →
  ∃ a' c' l',
    bdim a1 a2 = Some a' ∧ bdim c1 c2 = Some c' ∧ bdim l1 l2 = Some l'
    ∧ shape t = [a'; c'; l'].
Proof.
  unfold add_pure. intros Hadd Ha Hb. rewrite Ha, Hb, broadcast_3 in Hadd.
  destruct (bdim l1 l2) as [l'|], (bdim c1 c2) as [c'|],
    (bdim a1 a2) as [a'|]; try done.
  injection Hadd as <-. by exists a', c', l'.
Qed.

Lemma get_live E l : l < length E → ∃ t, get E l = inr t.
Proof.
  intros Hl. destruct (lookup_lt_is_Some_2 E l Hl) as [t Ht].
  exists t. unfold get. by rewrite Ht.
Qed.

Lemma Conv1d_den_pure E c x :
  live E (Conv1d_parameters c) →
  ∃ w b, Conv1d_den E c x = conv1d_pure c w b x.
Proof.
  intros Hlive. destruct (live_Conv1d E c Hlive) as (Hb & Hg & Hv).
  destruct (get_live E _ Hg) as [g Eg].
  destruct (get_live E _ Hv) as [v Ev].
  destruct (get_live E _ Hb) as [b Eb].
  exists (weight_norm_pure g v), b. unfold Conv1d_den. by rewrite Eg, Ev, Eb.
Qed.

(** The output of a convolution: no channels when the input has none. *)
Lemma Conv1d_den_dims E c x cin cout k s p n l :
  live E (Conv1d_parameters c) → Conv1d_cfg c cin cout k s p →
  shape x = [n; cin; l] → k ≤ l + 2 * p →
  ∃ t, Conv1d_den E c x = inr t
       ∧ shape t = [n; if decide (cin = 0) then 0 else cout;
                    out_len k s p l].
Proof.
  intros Hlive (Hin & Hout & Hk & Hs & Hp) Hx Hlen.
  destruct (Conv1d_den_pure E c x Hlive) as (w & b & ->).
  unfold conv1d_pure, conv1d_dims. rewrite Hx, Hin, Hout, Hk, Hs, Hp.
  rewrite decide_True by done. rewrite decide_True by done. by eexists.
Qed.

Lemma Conv1d_den_shape E c x cin cout k s p n l :
  live E (Conv1d_parameters c) → Conv1d_cfg c cin cout k s p →
  shape x = [n; cin; l] → k ≤ l + 2 * p → 1 ≤ cin →
  ∃ t, Conv1d_den E c x = inr t ∧ shape t = [n; cout; out_len k s p l].
Proof.
  intros Hlive Hcfg Hx Hlen Hcin.
  destruct (Conv1d_den_dims E c x _ _ _ _ _ n l Hlive Hcfg Hx Hlen)
    as (t & Ht & St).
  rewrite decide_False in St by lia. by exists t.
Qed.

(** What a convolution that returns was given, and what it gives. *)
Lemma conv1d_pure_inv c w b x t :
  conv1d_pure c w b x = inr t →
  ∃ ci co lo l,
    conv1d_dims c ci l = inr (co, lo)
    ∧ channels x = Some ci ∧ channels t = Some co
    ∧ ((∃ n, shape x = [n; ci; l] ∧ shape t = [n; co; lo])
       ∨ (shape x = [ci; l] ∧ shape t = [co; lo])).
Proof.
  unfold conv1d_pure, channels.
  destruct (shape x) as [|a [|a' [|a'' [|? ?]]]] eqn:Hx; try done.
  - destruct (conv1d_dims c a a') as [?|[co lo]] eqn:Hd; [done|].
    intros [= <-]. exists a, co, lo, a'. split_and!; [done..|]. by right.
  - destruct (conv1d_dims c a' a'') as [?|[co lo]] eqn:Hd; [done|].
    intros [= <-]. exists a', co, lo, a''. split_and!; [done..|].
    left. by exists a.
Qed.

Lemma conv1d_dims_inv c ci l co lo :
  conv1d_dims c ci l = inr (co, lo) →
  ci = in_channels c ∧ kernel_size c ≤ l + 2 * padding c
  ∧ co = (if decide (ci = 0) then 0 else out_channels c)
  ∧ lo = out_len (kernel_size c) (stride c) (padding c) l.
Proof.
  unfold conv1d_dims. repeat case_decide; try done; by intros [= <- <-].
Qed.

Lemma Conv1d_den_conv E c x t :
  Conv1d_den E c x = inr t → ∃ w b, conv1d_pure c w b x = inr t.
Proof.
  unfold Conv1d_den. intros Hden.
  destruct (get E (weight_g c)) as [?|g]; simpl in Hden; [done|].
  destruct (get E (weight_v c)) as [?|v]; simpl in Hden; [done|].
  destruct (get E (bias c)) as [?|b]; simpl in Hden; [done|].
  by eexists _, _.
Qed.

Lemma Conv1d_den_inv E c x t n ci l :
  Conv1d_den E c x = inr t → shape x = [n; ci; l] →
  ci = in_channels c ∧ kernel_size c ≤ l + 2 * padding c
  ∧ shape t = [n; if decide (ci = 0) then 0 else out_channels c;
               out_len (kernel_size c) (stride c) (padding c) l].
Proof.
  intros Hden Hx. apply Conv1d_den_conv in Hden as (w & b & Hconv).
  apply conv1d_pure_inv in Hconv
    as (ci' & co & lo & l' & Hd & _ & _ & [(n' & Hx' & Ht) | [Hx' _]]);
    [|congruence].
  rewrite Hx in Hx'. injection Hx' as <- <- <-.
  apply conv1d_dims_inv in Hd as (-> & Hfit & -> & ->). by rewrite Ht.
Qed.

(** Channels in, channels out, for inputs of any rank. *)
Lemma Conv1d_den_channels_inv E c x t :
  Conv1d_den E c x = inr t →
  channels x = Some (in_channels c)
  ∧ channels t
    = Some (if decide (in_channels c = 0) then 0 else out_channels c).
Proof.
  intros Hden. apply Conv1d_den_conv in Hden as (w & b & Hconv).
  apply conv1d_pure_inv in Hconv
    as (ci & co & lo & l & Hd & Hcx & Hct & _).
  apply conv1d_dims_inv in Hd as (-> & _ & -> & _). done.
Qed.

(** A convolution given the wrong number of channels raises. *)
Lemma Conv1d_den_mismatch E c x ci :
  channels x = Some ci → ci ≠ in_channels c →
  ∃ e, Conv1d_den E c x = inl e.
Proof.
  intros Hx Hne. destruct (Conv1d_den E c x) as [e|t] eqn:Hden; [by eexists|].
  apply Conv1d_den_channels_inv in Hden as [Hcx _]. congruence.
Qed.

Lemma add_pure_inv a b t s :
  add_pure a b = inr t → shape a = s → shape b = s → shape t = s.
Proof.
  unfold add_pure. intros Hadd Ha Hb.
  rewrite Ha, Hb, broadcast_same in Hadd. by injection Hadd as <-.
Qed.

(** The convolutions of a block and their parameters. *)
Lemma Dblock_live E d input_dim output_dim hidden_dim :
  live E (Dblock_parameters d) →
  Dblock_cfg d input_dim output_dim hidden_dim →
  ∃ c3 c4,
    output_spec d = [LLeaky lrelu; LConv c3]
    ∧ output_cond d = [LLeaky lrelu; LConv c4]
    ∧ Conv1d_cfg c3 output_dim output_dim 3 1 1
    ∧ Conv1d_cfg c4 output_dim hidden_dim 3 1 1
    ∧ live E (Conv1d_parameters (input_spec d))
    ∧ live E (Conv1d_parameters (input_cond d))
    ∧ live E (Conv1d_parameters c3) ∧ live E (Conv1d_parameters c4).
Proof.
  intros Hlive (C1 & C2 & c3 & c4 & E3 & E4 & C3 & C4).
  unfold Dblock_parameters in Hlive. rewrite E3, E4 in Hlive.
  apply Forall_app in Hlive as [L1 Hlive].
  apply Forall_app in Hlive as [L2 Hlive].
  apply Forall_app in Hlive as [L3 L4].
  unfold Sequential_parameters in L3, L4. simpl in L3, L4.
  rewrite ?app_nil_r in L3, L4.
  exists c3, c4. by split_and!.
Qed.

(** [Dblock.forward] on streams that broadcast. *)
Lemma Dblock_den_broadcast E d input_dim output_dim hidden_dim ts tc
    b1 b2 b l1 l2 l :
  live E (Dblock_parameters d) →
  Dblock_cfg d input_dim output_dim hidden_dim →
  shape ts = [b1; input_dim; l1] → shape tc = [b2; hidden_dim; l2] →
  1 ≤ input_dim → 1 ≤ output_dim → 1 ≤ hidden_dim →
  1 ≤ l1 → 1 ≤ l2 → bdim b1 b2 = Some b → bdim l1 l2 = Some l →
  ∃ t1 t2, Dblock_den E d ts tc = inr (t1, t2)
           ∧ shape t1 = [b; output_dim; l] ∧ shape t2 = [b2; hidden_dim; l2].
Proof.
  intros Hlive Hcfg Hs Hc Hin Hout Hhid Hl1 Hl2 Hb Hl.
  destruct (Dblock_live _ _ _ _ _ Hlive Hcfg)
    as (c3 & c4 & E3 & E4 & C3 & C4 & L1 & L2 & L3 & L4).
  destruct Hcfg as (C1 & C2 & _).
  assert (1 ≤ l) as Hl0.
  { unfold bdim in Hl. repeat case_decide; simplify_eq; lia. }
  unfold Dblock_den. rewrite E3, E4.
  destruct (Conv1d_den_shape E _ ts _ _ _ _ _ b1 l1 L1 C1 Hs) as (x1 & -> & S1);
    [lia..|].
  destruct (Conv1d_den_shape E _ tc _ _ _ _ _ b2 l2 L2 C2 Hc) as (y1 & -> & S2);
    [lia..|].
  rewrite out_len_3_1_1 in S1, S2 by done. simpl.
  destruct (add_pure_broadcast x1 y1 _ _ _ _ _ _ _ _ _ S1 S2 Hb
              (bdim_same _) Hl) as (x & -> & Sx). simpl.
  destruct (Conv1d_den_shape E c3 (leaky_pure lrelu x) _ _ _ _ _ b l L3 C3 Sx)
    as (o1 & -> & So1); [lia..|].
  destruct (Conv1d_den_shape E c4 (leaky_pure lrelu y1) _ _ _ _ _ b2 l2 L4 C4 S2)
    as (o2 & -> & So2); [lia..|].
  rewrite out_len_3_1_1 in So1, So2 by done. simpl.
  destruct (add_pure_broadcast o1 x1 _ _ _ _ _ _ _ _ _ So1 S1
              (bdim_absorb _ _ _ Hb) (bdim_same _) (bdim_absorb _ _ _ Hl))
    as (r1 & -> & Sr1). simpl.
  destruct (add_pure_shape o2 tc _ So2 Hc) as (r2 & -> & Sr2). simpl.
  by exists r1, r2.
Qed.

Lemma Dblock_den_shape E d input_dim output_dim hidden_dim ts tc n l :
  live E (Dblock_parameters d) →
  Dblock_cfg d input_dim output_dim hidden_dim →
  shape ts = [n; input_dim; l] → shape tc = [n; hidden_dim; l] → 1 ≤ l →
  1 ≤ input_dim → 1 ≤ output_dim → 1 ≤ hidden_dim →
  ∃ t1 t2, Dblock_den E d ts tc = inr (t1, t2)
           ∧ shape t1 = [n; output_dim; l] ∧ shape t2 = [n; hidden_dim; l].
Proof.
  intros Hlive Hcfg Hs Hc Hl Hin Hout Hhid.
  by eapply Dblock_den_broadcast; [..|apply bdim_same|apply bdim_same].
Qed.

Lemma MSG_chain_length E its : ∀ x y xn yn fs,
  MSG_chain E its x y = inr (xn, yn, fs) → length fs = length its.
Proof.
  induction its as [|[key d] its IH]; intros x y xn yn fs; simpl.
  - by intros [= <- <- <-].
  - destruct (Dblock_den E d x y) as [e|[x1 y1]]; simpl; [done|].
    destruct (MSG_chain E its x1 y1) as [e|[[xn' yn'] fs']] eqn:Hch;
      simpl; [done|].
    intros [= <- <- <-]. simpl. f_equal. by eapply IH.
Qed.

(** The chain through blocks that double [nf]: feature [i] (counted from 0)
    has [nf * 2 ^ (i + 1)] channels, the condition keeps [hidden_dim]. *)
Lemma MSG_chain_shape E hidden_dim n l its : ∀ k nf x y,
  live E (concat (map (fun it => Dblock_parameters it.2) its)) →
  layers_cfg hidden_dim k nf its →
  shape x = [n; nf; l] → shape y = [n; hidden_dim; l] → 1 ≤ l →
  1 ≤ nf → 1 ≤ hidden_dim →
  ∃ xn yn fs,
    MSG_chain E its x y = inr (xn, yn, fs)
    ∧ shape xn = [n; nf * 2 ^ length its; l]
    ∧ shape yn = [n; hidden_dim; l]
    ∧ ∀ i t, fs !! i = Some t → shape t = [n; nf * 2 ^ S i; l].
Proof.
  induction its as [|[key d] its IH];
    intros k nf x y Hlive Hcfg Hx Hy Hl Hnf Hhid.
  - exists x, y, []. simpl. split_and!; [done| |done|done].
    rewrite Hx. do 2 f_equal. lia.
  - change (live E (Dblock_parameters d
              ++ concat (map (fun it => Dblock_parameters it.2) its)))
      in Hlive.
    apply Forall_app in Hlive as [Ld Lits].
    destruct Hcfg as (_ & Cd & Cits). simpl.
    destruct (Dblock_den_shape E d _ _ _ x y n l Ld Cd Hx Hy Hl)
      as (x1 & y1 & -> & Sx1 & Sy1); [lia..|]. simpl.
    destruct (IH (S k) (nf * 2) x1 y1 Lits Cits Sx1 Sy1 Hl)
      as (xn & yn & fs & -> & Sxn & Syn & Sfs); [lia..|]. simpl.
    exists xn, yn, (x1 :: fs). split_and!; [done| |done|].
    + rewrite Sxn. do 2 f_equal. cbn [length]. lia.
    + intros [|i] t Hi; simpl in Hi.
      * injection Hi as <-. rewrite Sx1. do 2 f_equal; simpl; lia.
      * rewrite (Sfs i t Hi). do 2 f_equal; simpl; lia.
Qed.

Lemma pow2_pos n : 1 ≤ 2 ^ n.
Proof. induction n; simpl; lia. Qed.

Lemma MSG_score_shape E m nf n_layers hidden_dim xn yn n l :
  live E (Conv1d_parameters (disc_spec m)) →
  live E (Conv1d_parameters (disc_cond m)) →
  MSG_cfg m nf n_layers hidden_dim →
  shape xn = [n; nf * 2 ^ n_layers; l] → shape yn = [n; hidden_dim; l] →
  1 ≤ l → 1 ≤ nf → 1 ≤ hidden_dim →
  ∃ s, MSG_score E m xn yn = inr s ∧ shape s = [n; l].
Proof.
  intros Ls Lc (_ & _ & Cs & Cc) Hx Hy Hl Hnf Hhid. unfold MSG_score.
  pose proof (pow2_pos n_layers) as Hpow.
  destruct (Conv1d_den_shape E _ xn _ _ _ _ _ n l Ls Cs Hx) as (a & -> & Sa);
    [lia|nia|].
  destruct (Conv1d_den_shape E _ yn _ _ _ _ _ n l Lc Cc Hy) as (b & -> & Sb);
    [lia..|].
  rewrite out_len_3_1_1 in Sa, Sb by done. simpl.
  destruct (add_pure_shape a b _ Sa Sb) as (out & -> & Sout). simpl.
  unfold flatten_pure. rewrite Sout. eexists. split; [done|]. simpl.
  do 2 f_equal. lia.
Qed.

Lemma MSG_live E m :
  live E (MSG_parameters m) →
  live E (concat (map (fun it => Dblock_parameters it.2) (discriminator m)))
  ∧ live E (Conv1d_parameters (disc_spec m))
  ∧ live E (Conv1d_parameters (disc_cond m)).
Proof.
  unfold MSG_parameters. intros Hlive.
  apply Forall_app in Hlive as [L1 Hlive].
  by apply Forall_app in Hlive as [L2 L3].
Qed.

Lemma MSG_den_shape E m nf n_layers hidden_dim x y n l :
  live E (MSG_parameters m) → MSG_cfg m nf n_layers hidden_dim →
  shape x = [n; nf; l] → shape y = [n; hidden_dim; l] → 1 ≤ l →
  1 ≤ nf → 1 ≤ hidden_dim →
  ∃ xn yn fs s,
    MSG_chain E (discriminator m) x y = inr (xn, yn, fs)
    ∧ MSG_score E m xn yn = inr s
    ∧ MSG_den E m x y = inr (fs, s)
    ∧ length fs = n_layers
    ∧ (∀ i t, fs !! i = Some t → shape t = [n; nf * 2 ^ S i; l])
    ∧ shape s = [n; l].
Proof.
  intros Hlive Hcfg Hx Hy Hl Hnf Hhid.
  destruct (MSG_live E m Hlive) as (Lits & Ls & Lc).
  pose proof Hcfg as (Hlen & Clayers & _ & _).
  destruct (MSG_chain_shape E hidden_dim n l _ 1 nf x y Lits Clayers Hx Hy Hl
              Hnf Hhid)
    as (xn & yn & fs & Hch & Sxn & Syn & Sfs).
  rewrite Hlen in Sxn.
  destruct (MSG_score_shape E m nf n_layers hidden_dim xn yn n l
              Ls Lc Hcfg Sxn Syn Hl Hnf Hhid) as (s & Hs & Ss).
  exists xn, yn, fs, s. unfold MSG_den. rewrite Hch. simpl. rewrite Hs. simpl.
  split_and!; [done..| |done|done].
  apply MSG_chain_length in Hch. congruence.
Qed.

(** A discriminator without blocks takes inputs of its configured
    channels whatever these are, zero included: the sum of the two heads
    broadcasts. *)
Lemma MSG_den_heads E m nf hidden_dim x y n l :
  live E (MSG_parameters m) → MSG_cfg m nf 0 hidden_dim →
  shape x = [n; nf; l] → shape y = [n; hidden_dim; l] → 1 ≤ l →
  ∃ s, MSG_den E m x y = inr ([], s).
Proof.
  intros Hlive Hcfg Hx Hy Hl.
  destruct (MSG_live E m Hlive) as (_ & Ls & Lc).
  destruct Hcfg as (Hlen & _ & Cs & Cc).
  destruct (discriminator m) as [|? ?] eqn:Hd; [|done].
  unfold MSG_den. rewrite Hd. cbn [MSG_chain bindE]. unfold MSG_score.
  replace (nf * 2 ^ 0) with nf in Cs by (simpl; lia).
  destruct (Conv1d_den_dims E _ x _ _ _ _ _ n l Ls Cs Hx) as (a & -> & Sa);
    [lia|].
  destruct (Conv1d_den_dims E _ y _ _ _ _ _ n l Lc Cc Hy) as (b & -> & Sb);
    [lia|].
  cbn [bindE].
  assert (∃ c', bdim (if decide (nf = 0) then 0 else 1)
                  (if decide (hidden_dim = 0) then 0 else 1) = Some c')
    as [c' Hc'].
  { repeat case_decide; by eexists. }
  destruct (add_pure_broadcast a b _ _ _ _ _ _ _ _ _ Sa Sb (bdim_same _) Hc'
              (bdim_same _)) as (out & -> & Sout).
  cbn [bindE]. unfold flatten_pure. rewrite Sout. by eexists.
Qed.

(** ** Exceptions of the readings *)

Lemma torch_only_bind {A B} (r : exn + A) (f : A → exn + B) :
  torch_only r → (∀ a, r = inr a → torch_only (f a)) → torch_only (bindE r f).
Proof. destruct r as [e|a]; simpl; [done|]. intros _ Hf. by apply Hf. Qed.

Lemma conv1d_pure_torch_only c w b x : torch_only (conv1d_pure c w b x).
Proof.
  unfold conv1d_pure, conv1d_dims.
  destruct (shape x) as [|n [|ci [|l [|? ?]]]]; try done;
    by repeat case_decide.
Qed.

Lemma Conv1d_den_torch_only E c x :
  live E (Conv1d_parameters c) → torch_only (Conv1d_den E c x).
Proof.
  intros Hlive. destruct (Conv1d_den_pure E c x Hlive) as (w & b & ->).
  apply conv1d_pure_torch_only.
Qed.

Lemma add_pure_torch_only a b : torch_only (add_pure a b).
Proof. unfold add_pure. by destruct (broadcast _ _). Qed.

Lemma avg_pool1d_pure_torch_only p x : torch_only (avg_pool1d_pure p x).
Proof.
  unfold avg_pool1d_pure, avg_pool1d_len.
  destruct (shape x) as [|n [|ci [|l [|? ?]]]]; try done;
    by repeat case_decide.
Qed.

Lemma flatten_pure_torch_only x : torch_only (flatten_pure x).
Proof. unfold flatten_pure. by destruct (shape x) as [|n [|d ds]]. Qed.

Lemma layer_den_torch_only E l x :
  live E (layer_parameters l) → torch_only (layer_den E l x).
Proof. destruct l; [apply Conv1d_den_torch_only|done]. Qed.

Lemma Sequential_den_torch_only E ls : ∀ x,
  live E (Sequential_parameters ls) → torch_only (Sequential_den E ls x).
Proof.
  induction ls as [|l ls IH]; intros x Hlive; [done|].
  change (live E (layer_parameters l ++ Sequential_parameters ls)) in Hlive.
  apply Forall_app in Hlive as [Ll Lls]. simpl.
  apply torch_only_bind; [by apply layer_den_torch_only|].
  intros y _. by apply IH.
Qed.

Lemma Dblock_den_torch_only E d spec cond :
  live E (Dblock_parameters d) → torch_only (Dblock_den E d spec cond).
Proof.
  intros Hlive. unfold Dblock_parameters in Hlive.
  apply Forall_app in Hlive as [L1 Hlive].
  apply Forall_app in Hlive as [L2 Hlive].
  apply Forall_app in Hlive as [L3 L4].
  unfold Dblock_den.
  repeat (apply torch_only_bind;
          [first [by apply Conv1d_den_torch_only
                 |apply add_pure_torch_only
                 |by apply Sequential_den_torch_only]
          |intros ? _]).
  done.
Qed.

Lemma MSG_chain_torch_only E its : ∀ x y,
  live E (concat (map (fun it => Dblock_parameters it.2) its)) →
  torch_only (MSG_chain E its x y).
Proof.
  induction its as [|[key d] its IH]; intros x y Hlive; [done|].
  change (live E (Dblock_parameters d
            ++ concat (map (fun it => Dblock_parameters it.2) its)))
    in Hlive.
  apply Forall_app in Hlive as [Ld Lits]. simpl.
  apply torch_only_bind; [by apply Dblock_den_torch_only|].
  intros [x1 y1] _.
  apply torch_only_bind; [by apply IH|]. by intros [[xn yn] fs] _.
Qed.

Lemma MSG_den_torch_only E m x y :
  live E (MSG_parameters m) → torch_only (MSG_den E m x y).
Proof.
  intros Hlive. unfold MSG_parameters in Hlive.
  apply Forall_app in Hlive as [Lits Hlive].
  apply Forall_app in Hlive as [Ls Lc].
  unfold MSG_den.
  apply torch_only_bind; [by apply MSG_chain_torch_only|].
  intros [[xn yn] fs] _.
  apply torch_only_bind; [|done]. unfold MSG_score.
  repeat (apply torch_only_bind;
          [first [by apply Conv1d_den_torch_only|apply add_pure_torch_only]
          |intros ? _]).
  apply flatten_pure_torch_only.
Qed.

Lemma MultiMSG_scales_torch_only E ds its : ∀ x y,
  live E (model_parameters its) →
  torch_only (MultiMSG_scales E ds its x y).
Proof.
  induction its as [|[key disc] its IH]; intros x y Hlive; [done|].
  change (live E (MSG_parameters disc ++ model_parameters its)) in Hlive.
  apply Forall_app in Hlive as [Ld Lits]. simpl.
  apply torch_only_bind; [by apply MSG_den_torch_only|].
  intros [feats out] _.
  apply torch_only_bind; [apply avg_pool1d_pure_torch_only|]. intros x' _.
  apply torch_only_bind; [apply avg_pool1d_pure_torch_only|]. intros y' _.
  apply torch_only_bind; [by apply IH|]. by intros [fs os] _.
Qed.

Lemma entry_den_torch_only E e x :
  live E (entry_parameters e) → torch_only (entry_den E e x).
Proof.
  destruct e; [apply Sequential_den_torch_only|apply layer_den_torch_only].
Qed.

Lemma MelGAN_chain_torch_only E its : ∀ x,
  live E (concat (map (fun it => entry_parameters it.2) its)) →
  torch_only (MelGAN_chain E its x).
Proof.
  induction its as [|[key e] its IH]; intros x Hlive; [done|].
  change (live E (entry_parameters e
            ++ concat (map (fun it => entry_parameters it.2) its)))
    in Hlive.
  apply Forall_app in Hlive as [Le Lits]. simpl.
  apply torch_only_bind; [by apply entry_den_torch_only|].
  intros x1 _. apply torch_only_bind; [by apply IH|]. done.
Qed.

Lemma MelGAN_chain_length E its : ∀ x fs,
  MelGAN_chain E its x = inr fs → length fs = length its.
Proof.
  induction its as [|[key e] its IH]; intros x fs; simpl.
  - by intros [= <-].
  - destruct (entry_den E e x) as [?|x1]; simpl; [done|].
    destruct (MelGAN_chain E its x1) as [?|fs'] eqn:Hch; simpl; [done|].
    intros [= <-]. simpl. f_equal. by eapply IH.
Qed.

(** [features[-1]] cannot fail: the dictionary is never empty. *)
Lemma MelGAN_den_torch_only E m x :
  live E (MelGAN_parameters m) → mg_discriminator m ≠ [] →
  torch_only (MelGAN_den E m x).
Proof.
  intros Hlive Hne. unfold MelGAN_den.
  apply torch_only_bind; [by apply MelGAN_chain_torch_only|].
  intros fs Hfs. apply MelGAN_chain_length in Hfs.
  destruct fs as [|t fs]; [by destruct (mg_discriminator m)|].
  by destruct (last (t :: fs)) eqn:Hlast; [|by apply last_None in Hlast].
Qed.

(** An outcome that agrees with a reading raises what the reading raises. *)
Lemma run_to_raises {A B} (m : M A) (h : state) F (R : heap → A → B → Prop) den e :
  run_to m h F R den → (m h).1 = inl e → den = inl e.
Proof.
  intros (r & h' & Hrun & _ & Hag) He. rewrite Hrun in He. simpl in He.
  subst r. destruct den; simpl in Hag; [by subst|done].
Qed.

Lemma run_to_returns {A B} (m : M A) (h : state) F (R : heap → A → B → Prop) b :
  run_to m h F R (inr b) → ∃ a h', m h = (inr a, h') ∧ F h h' ∧ R h' a b.
Proof.
  intros (r & h' & Hrun & HF & Hag). destruct r as [e|a]; [done|].
  by exists a, h'.
Qed.

Lemma torch_only_inl {A} (r : exn + A) e :
  torch_only r → r = inl e → ∃ c, e = TorchError c.
Proof. intros Hr ->. destruct e; try done. by eexists. Qed.

(** ** Downsampling and the scales of [MultiMSGDiscriminator] *)

Lemma downsample_shape d x n c l :
  shape x = [n; c; l] → 1 ≤ c → 2 ≤ d → 1 ≤ l → d ≤ l + 2 →
  ∃ t, avg_pool1d_pure (downsample_init d) x = inr t
       ∧ shape t = [n; c; out_len d 2 1 l].
Proof.
  intros Hx Hc Hd Hl1 Hl.
  unfold avg_pool1d_pure, avg_pool1d_len, downsample_init. simpl.
  rewrite Hx. rewrite decide_True by lia. rewrite decide_True by lia.
  rewrite decide_True by lia. by eexists.
Qed.

(** With [downsampling_factor = 1] the pooling pad exceeds half the window
    and the framework refuses to pool. *)
Lemma downsample_refused d x n c l :
  shape x = [n; c; l] → 1 ≤ c → 1 ≤ l → d < 2 →
  avg_pool1d_pure (downsample_init d) x = inl (TorchError PadTooLarge).
Proof.
  intros Hx Hc Hl Hd.
  unfold avg_pool1d_pure, avg_pool1d_len, downsample_init. simpl.
  rewrite Hx. by rewrite decide_False by lia.
Qed.

Lemma downsampled_shape d i : ∀ x n c l,
  shape x = [n; c; l] → 1 ≤ c → 2 ≤ d →
  (∀ j, j < i → 1 ≤ scale_len d j l ∧ d ≤ scale_len d j l + 2) →
  ∃ t, downsampled (downsample_init d) i x = inr t
       ∧ shape t = [n; c; scale_len d i l].
Proof.
  induction i as [|i IH]; intros x n c l Hx Hc Hd Hscale; simpl.
  - by exists x.
  - destruct (Hscale 0) as [Hl1 Hl2]; [lia|]. simpl in Hl1, Hl2.
    destruct (downsample_shape d x n c l Hx Hc Hd Hl1 Hl2) as (x' & -> & Hx').
    simpl. apply IH; [done..|]. intros j Hj. apply (Hscale (S j)). lia.
Qed.

Lemma model_cfg_lookup ndf n_layers hidden_dim its : ∀ i j key disc,
  model_cfg ndf n_layers hidden_dim i its →
  its !! j = Some (key, disc) →
  key = "disc_" +:+ pretty (i + j) ∧ MSG_cfg disc ndf n_layers hidden_dim.
Proof.
  induction its as [|[k d] its IH]; intros i j key disc Hcfg Hj; [done|].
  destruct Hcfg as (Hk & Hd & Hits). destruct j as [|j]; simpl in Hj.
  - injection Hj as <- <-. by rewrite Nat.add_0_r.
  - rewrite <- Nat.add_succ_comm. by eapply IH.
Qed.

Lemma layers_cfg_lookup hidden_dim its : ∀ k nf j key d,
  layers_cfg hidden_dim k nf its →
  its !! j = Some (key, d) →
  key = "layer_" +:+ pretty (k + j)
  ∧ Dblock_cfg d (nf * 2 ^ j) (nf * 2 ^ S j) hidden_dim.
Proof.
  induction its as [|[k' d'] its IH]; intros k nf j key d Hcfg Hj; [done|].
  destruct Hcfg as (Hk & Hd & Hits). destruct j as [|j]; simpl in Hj.
  - injection Hj as <- <-. rewrite Nat.add_0_r. split; [done|].
    replace (nf * 2 ^ 0) with nf by (simpl; lia).
    by replace (nf * 2 ^ 1) with (nf * 2) by (simpl; lia).
  - rewrite <- Nat.add_succ_comm.
    destruct (IH (S k) (nf * 2) j key d Hits Hj) as [-> Hcfg].
    split; [done|].
    replace (nf * 2 ^ S j) with (nf * 2 * 2 ^ j)
      by (rewrite Nat.pow_succ_r'; lia).
    by replace (nf * 2 ^ S (S j)) with (nf * 2 * 2 ^ S j)
      by (rewrite (Nat.pow_succ_r' 2 (S j)); lia).
Qed.

Lemma MultiMSG_scales_total E d ndf n_layers hidden_dim n its : ∀ i x y l,
  live E (model_parameters its) →
  model_cfg ndf n_layers hidden_dim i its →
  shape x = [n; ndf; l] → shape y = [n; hidden_dim; l] →
  1 ≤ ndf → 1 ≤ hidden_dim → 2 ≤ d →
  (∀ j, j < length its → 1 ≤ scale_len d j l ∧ d ≤ scale_len d j l + 2) →
  ∃ fs os, MultiMSG_scales E (downsample_init d) its x y = inr (fs, os).
Proof.
  induction its as [|[key disc] its IH];
    intros i x y l Hlive Hcfg Hx Hy Hndf Hhid Hd Hsc.
  - by exists [], [].
  - change (live E (MSG_parameters disc ++ model_parameters its)) in Hlive.
    apply Forall_app in Hlive as [Ld Lits].
    destruct Hcfg as (_ & Cd & Cits).
    destruct (Hsc 0) as [Hl1 Hl2]; [simpl; lia|]. simpl in Hl1, Hl2.
    destruct (MSG_den_shape E disc _ _ _ x y n l Ld Cd Hx Hy Hl1 Hndf Hhid)
      as (xn & yn & feats & out & _ & _ & Hden & _).
    destruct (downsample_shape d x n ndf l Hx Hndf Hd Hl1 Hl2)
      as (x' & Ex' & Hx').
    destruct (downsample_shape d y n hidden_dim l Hy Hhid Hd Hl1 Hl2)
      as (y' & Ey' & Hy').
    destruct (IH (S i) x' y' (out_len d 2 1 l) Lits Cits Hx' Hy' Hndf Hhid Hd)
      as (fs & os & Hrest).
    { intros j Hj. apply (Hsc (S j)). simpl. lia. }
    exists (feats :: fs), (out :: os). cbn [MultiMSG_scales].
    rewrite Hden. cbn [bindE]. rewrite Ex'. cbn [bindE]. rewrite Ey'.
    cbn [bindE]. by rewrite Hrest.
Qed.

(** Entry [i] of the result is sub-discriminator [i] applied to the inputs
    downsampled [i] times. *)
Lemma MultiMSG_scales_lookup E ds its : ∀ x y fs os,
  MultiMSG_scales E ds its x y = inr (fs, os) →
  length fs = length its ∧ length os = length its
  ∧ ∀ i key disc, its !! i = Some (key, disc) →
      ∃ xi yi fi oi,
        downsampled ds i x = inr xi ∧ downsampled ds i y = inr yi
        ∧ MSG_den E disc xi yi = inr (fi, oi)
        ∧ fs !! i = Some fi ∧ os !! i = Some oi.
Proof.
  induction its as [|[key disc] its IH]; intros x y fs os; simpl.
  - intros [= <- <-]. by split_and!.
  - destruct (MSG_den E disc x y) as [?|[feats out]] eqn:Hden; simpl; [done|].
    destruct (avg_pool1d_pure ds x) as [?|x'] eqn:Ex; simpl; [done|].
    destruct (avg_pool1d_pure ds y) as [?|y'] eqn:Ey; simpl; [done|].
    destruct (MultiMSG_scales E ds its x' y') as [?|[fs' os']] eqn:Hrest;
      simpl; [done|].
    intros [= <- <-]. destruct (IH x' y' fs' os' Hrest) as (Lf & Lo & Hnth).
    simpl. split_and!; [by f_equal..|].
    intros [|i] k d Hi; simpl in Hi.
    + injection Hi as <- <-. by exists x, y, feats, out.
    + destruct (Hnth i k d Hi) as (xi & yi & fi & oi & Hx & Hy & H).
      exists xi, yi, fi, oi. simpl. by rewrite Ex, Ey.
Qed.

(** ** The channel mismatch of [MelGANDiscriminator] *)

Lemma conv_leaky_channels E c x t :
  Sequential_den E [LConv c; LLeaky lrelu] x = inr t →
  channels x = Some (in_channels c)
  ∧ channels t
    = Some (if decide (in_channels c = 0) then 0 else out_channels c).
Proof.
  simpl. destruct (Conv1d_den E c x) as [?|t'] eqn:Hden; simpl; [done|].
  intros [= <-]. by apply Conv1d_den_channels_inv in Hden.
Qed.

(** Past [layer_0] the tensor has [ndf] channels; the strided layers keep
    it so; [layer_(n_layers+1)] expects [c1]'s [in_channels]. *)
Lemma MelGAN_chain_mismatch E ndf c1 k1 e2 mid : ∀ x,
  Forall (strided_cfg ndf) mid →
  channels x = Some ndf → 1 ≤ ndf → in_channels c1 ≠ ndf →
  ∃ e, MelGAN_chain E (mid ++ [(k1, ESeq [LConv c1; LLeaky lrelu]); e2]) x
       = inl e.
Proof.
  induction mid as [|[key en] mid IH]; intros x Hmid Hx Hndf Hne.
  - simpl. destruct (Conv1d_den_mismatch E c1 x ndf Hx) as [e ->];
      [done|]. by eexists.
  - apply Forall_cons in Hmid as [(c & Hen & Hc) Hmid]. simpl in Hen.
    subst en. cbn [app MelGAN_chain entry_den].
    destruct (Sequential_den E [LConv c; LLeaky lrelu] x) as [e|x1] eqn:Hx1;
      [by eexists|].
    apply conv_leaky_channels in Hx1 as [_ Hs1].
    destruct Hc as (Hin & Hout & _). rewrite Hin, Hout in Hs1.
    rewrite decide_False in Hs1 by lia.
    destruct (IH x1 Hmid Hs1 Hndf Hne) as [e He]. simpl.
    rewrite He. by eexists.
Qed.

Lemma MelGAN_den_mismatch E m input_dim ndf n_layers disc_out x :
  MelGAN_cfg m input_dim ndf n_layers disc_out →
  1 ≤ ndf → 1 ≤ disc_out → disc_out ≠ ndf →
  ∃ e, MelGAN_den E m x = inl e.
Proof.
  intros (c0 & mid & c1 & c2 & Hd & C0 & Hlen & Hmid & C1 & C2) Hndf Hdo Hne.
  unfold MelGAN_den. rewrite Hd. cbn [MelGAN_chain entry_den].
  destruct (Sequential_den E [LConv c0; LLeaky lrelu] x) as [e|x1] eqn:Hx1;
    [by eexists|].
  apply conv_leaky_channels in Hx1 as [_ Hs1].
  destruct C0 as (Hin & Hout & _). rewrite Hin, Hout in Hs1.
  assert (∃ e, MelGAN_chain E
            (mid ++ [("layer_" +:+ pretty (n_layers + 1),
                      ESeq [LConv c1; LLeaky lrelu]);
                     ("layer_" +:+ pretty (n_layers + 2), ELayer (LConv c2))])
            x1 = inl e) as [e He]; [|simpl; rewrite He; by eexists].
  destruct (decide (input_dim = 0)) as [Hz|Hnz].
  - (* no channels come out of [layer_0] *)
    destruct mid as [|[k en] mid].
    + simpl. destruct (Conv1d_den_mismatch E c1 x1 0 Hs1) as [e ->];
        [|by eexists].
      destruct C1 as (-> & _). lia.
    + apply Forall_cons in Hmid as [(c & Hen & Hc) Hmid]. simpl in Hen.
      subst en. destruct Hc as (Hcin & _).
      cbn [app MelGAN_chain entry_den Sequential_den layer_den].
      destruct (Conv1d_den_mismatch E c x1 0 Hs1) as [e ->]; [lia|].
      by eexists.
  - apply (MelGAN_chain_mismatch E ndf c1 _ _ mid x1 Hmid Hs1 Hndf).
    destruct C1 as (-> & _). lia.
Qed.

Lemma MelGAN_cfg_conv_first m input_dim ndf n_layers disc_out :
  MelGAN_cfg m input_dim ndf n_layers disc_out →
  Forall (fun it => conv_first it.2) (mg_discriminator m)
  ∧ mg_discriminator m ≠ [].
Proof.
  intros (c0 & mid & c1 & c2 & -> & _ & _ & Hmid & _). split; [|done].
  constructor; [done|]. apply Forall_app. split.
  - eapply Forall_impl; [done|]. by intros [k e] (c & -> & _).
  - by repeat constructor.
Qed.

(** ** What a caller observes *)

Lemma observe_run_to {A B} (deref : heap → A → option B) (m : M A) (h : state) F R den :
  run_to m h F R den →
  (∀ h' a b, R h' a b → deref h' a = Some b) →
  observe deref (m h) = Some den.
Proof.
  intros (r & h' & -> & _ & Hag) Hderef.
  destruct den as [e|b], r as [e'|a]; simpl in *; try done.
  - by subst.
  - by rewrite (Hderef h' a b Hag).
Qed.

Lemma deref_list_holds h ls ts : all_hold h ls ts → deref_list h ls = Some ts.
Proof. intros Hall. by apply mapM_Some_2. Qed.

Lemma deref_pair_holds h h' p t : pair_holds h h' p t → deref_pair h' p = Some t.
Proof.
  intros (H1 & H2 & _). unfold deref_pair, holds in *. rewrite H1. simpl.
  rewrite H2. simpl. by destruct t.
Qed.

Lemma deref_feats_holds h h' r t :
  feats_hold h h' r t → deref_feats h' r = Some t.
Proof.
  intros (H1 & H2 & _). unfold deref_feats, holds in *.
  rewrite (deref_list_holds _ _ _ H1). simpl. rewrite H2. simpl.
  by destruct t.
Qed.

Lemma deref_result_holds h' r t :
  result_hold h' r t → deref_feats h' r = Some t.
Proof.
  intros (H1 & H2). unfold deref_feats, holds in *.
  rewrite (deref_list_holds _ _ _ H1). simpl. rewrite H2. simpl.
  by destruct t.
Qed.

Lemma deref_scales_holds h h' r t :
  scales_hold h [] [] h' r t → deref_scales h' r = Some t.
Proof.
  intros ((newf & Hf & Hnewf) & newo & Ho & Hnewo & _). simpl in *.
  unfold deref_scales. rewrite Hf, Ho.
  assert (mapM (deref_list h') newf = Some t.1) as ->.
  { apply mapM_Some_2. eapply Forall2_impl; [done|].
    intros ls ts. apply deref_list_holds. }
  simpl. rewrite (deref_list_holds _ _ _ Hnewo). simpl. by destruct t.
Qed.

(** *** The attributes a call binds *)

Lemma binds_only_bind {A B} ws (m : M A) (f : A → M B) (h : state) :
  binds_only ws m h →
  (∀ a h1, m h = (inr a, h1) → binds_only ws (f a) h1) →
  binds_only ws (bind m f) h.
Proof.
  intros Hm Hf r h'. unfold bind.
  destruct (m h) as [[e|a] h1] eqn:Em.
  - intros [= <- <-]. by apply (Hm _ _ Em).
  - intros Hrun x Hx.
    by rewrite (Hf a h1 eq_refl r h' Hrun x Hx), (Hm _ _ Em x Hx).
Qed.

Lemma binds_only_mono {A} ws ws' (m : M A) (h : state) :
  ws ⊆ ws' → binds_only ws m h → binds_only ws' m h.
Proof.
  intros Hsub Hm r h' Hrun a Ha. apply (Hm r h' Hrun).
  intros Hin. by apply Ha, Hsub.
Qed.

Lemma binds_only_idle {A} ws (m : M A) (h : state) :
  (∀ r h', m h = (r, h') → attrs h' = attrs h) → binds_only ws m h.
Proof. intros Hm r h' Hrun a _. by rewrite (Hm r h' Hrun). Qed.

Lemma binds_only_ret {A} ws (a : A) (h : state) : binds_only ws (ret a) h.
Proof. apply binds_only_idle. by intros r h' [= <- <-]. Qed.

Lemma binds_only_raise {A} ws e (h : state) :
  binds_only ws (raise (A := A) e) h.
Proof. apply binds_only_idle. by intros r h' [= <- <-]. Qed.

Lemma binds_only_lift {A} ws (r : exn + A) (h : state) :
  binds_only ws (lift r) h.
Proof. apply binds_only_idle. by intros r' h' [= <- <-]. Qed.

Lemma binds_only_alloc ws t (h : state) : binds_only ws (alloc t) h.
Proof. apply binds_only_idle. by intros r h' [= <- <-]. Qed.

Lemma binds_only_load ws l (h : state) : binds_only ws (load l) h.
Proof.
  apply binds_only_idle. intros r h'. unfold load.
  by destruct (tensors h !! l); intros [= <- <-].
Qed.

Lemma binds_only_store ws l t (h : state) : binds_only ws (store l t) h.
Proof. apply binds_only_idle. by intros r h' [= <- <-]. Qed.

Lemma binds_only_setattr ws a l (h : state) :
  a ∈ ws → binds_only ws (setattr a l) h.
Proof.
  intros Ha r h' [= <- <-] x Hx. cbn [attrs].
  apply getattr_bind_attr_ne. by intros ->.
Qed.

Ltac sublist :=
  let x := fresh in
  intros x; rewrite ?elem_of_app, ?elem_of_cons; tauto.

Ltac binds_leaf :=
  first [apply binds_only_ret | apply binds_only_raise | apply binds_only_lift
        |apply binds_only_alloc | apply binds_only_load
        |apply binds_only_store].

Ltac binds_step :=
  first [binds_leaf | apply binds_only_bind; [binds_leaf|intros ? ? _]].

Lemma Conv1d_forward_binds c x (h : state) :
  binds_only [weight c] (Conv1d_forward c x) h.
Proof.
  unfold Conv1d_forward. do 3 binds_step.
  apply binds_only_bind; [apply binds_only_setattr; apply list_elem_of_here|intros ? ? _].
  repeat binds_step.
Qed.

Lemma LeakyReLU_forward_binds ws a x (h : state) :
  binds_only ws (LeakyReLU_forward a x) h.
Proof. unfold LeakyReLU_forward. destruct (inplace a); repeat binds_step. Qed.

Lemma AvgPool1d_forward_binds ws p x (h : state) :
  binds_only ws (AvgPool1d_forward p x) h.
Proof. unfold AvgPool1d_forward. repeat binds_step. Qed.

Lemma tensor_add_binds ws x y (h : state) : binds_only ws (tensor_add x y) h.
Proof. unfold tensor_add. repeat binds_step. Qed.

Lemma flatten_binds ws x (h : state) : binds_only ws (flatten x) h.
Proof. unfold flatten. repeat binds_step. Qed.

Lemma last_item_binds ws fs (h : state) : binds_only ws (last_item fs) h.
Proof. unfold last_item. destruct (last fs); binds_step. Qed.

Lemma layer_forward_binds l x (h : state) :
  binds_only (layer_attrs l) (layer_forward l x) h.
Proof.
  destruct l; [apply Conv1d_forward_binds|apply LeakyReLU_forward_binds].
Qed.

Lemma Sequential_forward_binds ls : ∀ x (h : state),
  binds_only (Sequential_attrs ls) (Sequential_forward ls x) h.
Proof.
  induction ls as [|l ls IH]; intros x h; [apply binds_only_ret|].
  change (Sequential_attrs (l :: ls))
    with (layer_attrs l ++ Sequential_attrs ls).
  cbn [Sequential_forward]. apply binds_only_bind.
  - eapply binds_only_mono; [|apply layer_forward_binds]. sublist.
  - intros y h1 _. eapply binds_only_mono; [|apply IH]. sublist.
Qed.

Lemma Dblock_forward_binds d spec cond (h : state) :
  binds_only (Dblock_attrs d) (Dblock_forward d spec cond) h.
Proof.
  unfold Dblock_forward, Dblock_attrs.
  apply binds_only_bind; [|intros ? ? _].
  { eapply binds_only_mono; [|apply Conv1d_forward_binds]. sublist. }
  apply binds_only_bind; [|intros ? ? _].
  { eapply binds_only_mono; [|apply Conv1d_forward_binds]. sublist. }
  apply binds_only_bind; [apply tensor_add_binds|intros ? ? _].
  apply binds_only_bind; [|intros ? ? _].
  { eapply binds_only_mono; [|apply Sequential_forward_binds]. sublist. }
  apply binds_only_bind; [|intros ? ? _].
  { eapply binds_only_mono; [|apply Sequential_forward_binds]. sublist. }
  apply binds_only_bind; [apply tensor_add_binds|intros ? ? _].
  apply binds_only_bind; [apply tensor_add_binds|intros ? ? _].
  apply binds_only_ret.
Qed.

Lemma MSG_loop_binds its : ∀ x y fs (h : state),
  binds_only (concat (map (fun it => Dblock_attrs it.2) its))
    (MSG_loop its x y fs) h.
Proof.
  induction its as [|[key d] its IH]; intros x y fs h; [apply binds_only_ret|].
  change (concat (map (fun it => Dblock_attrs it.2) ((key, d) :: its)))
    with (Dblock_attrs d ++ concat (map (fun it => Dblock_attrs it.2) its)).
  cbn [MSG_loop call2]. apply binds_only_bind.
  - eapply binds_only_mono; [|apply Dblock_forward_binds]. sublist.
  - intros [x1 y1] h1 _. eapply binds_only_mono; [|apply IH]. sublist.
Qed.

Lemma MSGDiscriminator_forward_binds m x y (h : state) :
  binds_only (MSG_attrs m) (MSGDiscriminator_forward m x y) h.
Proof.
  unfold MSGDiscriminator_forward, MSG_attrs, items.
  apply binds_only_bind; [|intros [[x1 y1] fs] ? _].
  { eapply binds_only_mono; [|apply MSG_loop_binds]. sublist. }
  apply binds_only_bind; [|intros ? ? _].
  { eapply binds_only_mono; [|apply Conv1d_forward_binds]. sublist. }
  apply binds_only_bind; [|intros ? ? _].
  { eapply binds_only_mono; [|apply Conv1d_forward_binds]. sublist. }
  apply binds_only_bind; [apply tensor_add_binds|intros ? ? _].
  apply binds_only_bind; [apply last_item_binds|intros ? ? _].
  apply binds_only_bind; [apply flatten_binds|intros ? ? _].
  apply binds_only_ret.
Qed.

Lemma MultiMSG_loop_binds ds its : ∀ x y os fs (h : state),
  binds_only (model_attrs its) (MultiMSG_loop ds its x y os fs) h.
Proof.
  induction its as [|[key disc] its IH]; intros x y os fs h;
    [apply binds_only_ret|].
  change (model_attrs ((key, disc) :: its))
    with (MSG_attrs disc ++ model_attrs its).
  cbn [MultiMSG_loop call2 call1]. apply binds_only_bind.
  - eapply binds_only_mono; [|apply MSGDiscriminator_forward_binds].
    sublist.
  - intros [feats out] h1 _.
    apply binds_only_bind; [apply AvgPool1d_forward_binds|intros ? ? _].
    apply binds_only_bind; [apply AvgPool1d_forward_binds|intros ? ? _].
    eapply binds_only_mono; [|apply IH]. sublist.
Qed.

Lemma MultiScale_loop_binds ws ds its : ∀ x os fs (h : state),
  binds_only ws (MultiScale_loop ds its x os fs) h.
Proof.
  destruct its as [|[key disc] its]; intros x os fs h;
    [apply binds_only_ret|].
  cbn [MultiScale_loop call2]. apply binds_only_bind.
  - apply binds_only_raise.
  - intros [feats out] h1 [=].
Qed.

Lemma entry_forward_binds e x (h : state) :
  binds_only (entry_attrs e) (entry_forward e x) h.
Proof.
  destruct e; [apply Sequential_forward_binds|apply layer_forward_binds].
Qed.

Lemma MelGAN_loop_binds its : ∀ x fs (h : state),
  binds_only (concat (map (fun it => entry_attrs it.2) its))
    (MelGAN_loop its x fs) h.
Proof.
  induction its as [|[key e] its IH]; intros x fs h; [apply binds_only_ret|].
  change (concat (map (fun it => entry_attrs it.2) ((key, e) :: its)))
    with (entry_attrs e ++ concat (map (fun it => entry_attrs it.2) its)).
  cbn [MelGAN_loop call1]. apply binds_only_bind.
  - eapply binds_only_mono; [|apply entry_forward_binds]. sublist.
  - intros x1 h1 _. eapply binds_only_mono; [|apply IH]. sublist.
Qed.

Lemma MelGANDiscriminator_forward_binds m x (h : state) :
  binds_only (MelGAN_attrs m) (MelGANDiscriminator_forward m x) h.
Proof.
  unfold MelGANDiscriminator_forward, MelGAN_attrs, items.
  apply binds_only_bind; [apply MelGAN_loop_binds|intros ? ? _].
  apply binds_only_bind; [apply last_item_binds|intros ? ? _].
  apply binds_only_ret.
Qed.

Lemma pure_call_intro {A B} (deref : heap → A → option B) ps ws
    (call : M A) (h : state) (R : heap → heap → A → B → Prop) den :
  (∀ h1 : state, extends h h1 → run_to call h1 extends (R h1) den) →
  (∀ h0 h' a b, R h0 h' a b → deref h' a = Some b) →
  live h ps → binds_only ws call h →
  pure_call deref ps ws call h.
Proof.
  intros Hrun Hderef Hlive Hbinds. unfold pure_call.
  pose proof (Hrun h (extends_refl h)) as H1.
  pose proof (observe_run_to deref call h extends (R h) den H1 (Hderef h))
    as Hobs1.
  destruct H1 as (r1 & h1 & Hcall1 & Hext1 & _). rewrite Hcall1 in *.
  cbn [snd].
  pose proof (Hrun h1 Hext1) as H2.
  pose proof (observe_run_to deref call h1 extends (R h1) den H2 (Hderef h1))
    as Hobs2.
  split_and!.
  - by apply extends_prefix.
  - eapply Forall_impl; [exact Hlive|]. intros l Hl. simpl in Hl.
    destruct (lookup_lt_is_Some_2 h l Hl) as [t Ht].
    unfold lookup, State_lookup. rewrite Ht. by apply Hext1.
  - done.
  - by rewrite Hobs1.
  - by rewrite Hobs1, Hobs2.
Qed.

Lemma builds_inv {A} (m : M A) (h : state) P a h' :
  builds m h P → m h = (inr a, h') → P a h'.
Proof. intros Hb Heq. by apply Hb. Qed.

Lemma layers_cfg_keys hidden_dim its : ∀ k nf,
  layers_cfg hidden_dim k nf its →
  map fst its = map (fun j => "layer_" +:+ pretty j) (seq k (length its)).
Proof.
  induction its as [|[key d] its IH]; intros k nf Hcfg; [done|].
  destruct Hcfg as (-> & _ & Hits). simpl. f_equal. by eapply IH.
Qed.

(** With the default factor 2 every scale of a non-empty sequence fits. *)
Lemma default_factor_scales i : ∀ l,
  1 ≤ l → 1 ≤ scale_len 2 i l ∧ 2 ≤ scale_len 2 i l + 2.
Proof.
  induction i as [|i IH]; intros l Hl; simpl; [lia|].
  apply IH. unfold out_len. lia.
Qed.

Lemma layers_live_lookup E (its : list (string * Dblock)) i key d :
  live E (concat (map (fun it => Dblock_parameters it.2) its)) →
  its !! i = Some (key, d) → live E (Dblock_parameters d).
Proof.
  revert i. induction its as [|[k0 d0] its IH]; intros i Hlive Hi; [done|].
  change (live E (Dblock_parameters d0
            ++ concat (map (fun it => Dblock_parameters it.2) its)))
    in Hlive.
  apply Forall_app in Hlive as [L0 Lits].
  destruct i as [|i]; simpl in Hi.
  - by injection Hi as <- <-.
  - by eapply IH.
Qed.

Lemma model_live_lookup E its i key disc :
  live E (model_parameters its) → its !! i = Some (key, disc) →
  live E (MSG_parameters disc).
Proof.
  revert i. induction its as [|[k0 d0] its IH]; intros i Hlive Hi; [done|].
  change (live E (MSG_parameters d0 ++ model_parameters its)) in Hlive.
  apply Forall_app in Hlive as [L0 Lits].
  destruct i as [|i]; simpl in Hi.
  - by injection Hi as <- <-.
  - by eapply IH.
Qed.

(** A discriminator that was constructed takes inputs of its configured
    channels and of length at least 1. *)
Lemma MSG_den_returns E m nf n_layers hidden_dim x y n l :
  live E (MSG_parameters m) → MSG_cfg m nf n_layers hidden_dim →
  n_layers = 0 ∨ (1 ≤ nf ∧ 1 ≤ hidden_dim) →
  shape x = [n; nf; l] → shape y = [n; hidden_dim; l] → 1 ≤ l →
  ∃ fs s, MSG_den E m x y = inr (fs, s).
Proof.
  intros Hlive Hcfg [->|[Hnf Hhid]] Hx Hy Hl.
  - destruct (MSG_den_heads E m _ _ x y n l Hlive Hcfg Hx Hy Hl) as [s Hs].
    by exists [], s.
  - destruct (MSG_den_shape E m _ _ _ x y n l Hlive Hcfg Hx Hy Hl Hnf Hhid)
      as (xn & yn & fs & s & _ & _ & Hden & _).
    by exists fs, s.
Qed.

(** * The specification, statement by statement *)

(** C6 (as amended: at least one input channel and sequences of length
    at least 1).  For every [Dblock(input_dim, output_dim, hidden_dim)]
    with [input_dim >= 1] and inputs [spec] of shape
    [(batch, input_dim, L)] and [cond] of shape [(batch, hidden_dim, L)]
    with [L >= 1], [forward] returns two tensors of shapes
    [(batch, output_dim, L)] and [(batch, hidden_dim, L)]: the four
    convolutions have kernel size 3, stride 1 and padding 1, which keeps
    the length [L], and the configured channel counts. *)
Theorem Dblock_forward_shapes
    input_dim output_dim hidden_dim hc d E (h : state) spec cond ts tc batch L :
  Dblock_init input_dim output_dim hidden_dim hc = (inr d, E) →
  E `prefix_of` h →
  h !! spec = Some ts → h !! cond = Some tc →
  shape ts = [batch; input_dim; L] → shape tc = [batch; hidden_dim; L] →
  1 ≤ input_dim → 1 ≤ L →
  Dblock_cfg d input_dim output_dim hidden_dim
  ∧ out_len 3 1 1 L = L
  ∧ ∃ out1 out2 h' t1 t2,
      Dblock_forward d spec cond h = (inr (out1, out2), h')
      ∧ h' !! out1 = Some t1 ∧ h' !! out2 = Some t2
      ∧ shape t1 = [batch; output_dim; L]
      ∧ shape t2 = [batch; hidden_dim; L].
Proof.
  intros Hinit Hpre Hs Hc Ss Sc Hin HL.
  destruct (builds_inv _ _ _ _ _ (Dblock_init_spec _ _ _ hc) Hinit)
    as [Hcfg Hlive].
  destruct (builds_inv _ _ _ _ _ (Dblock_init_channels _ _ _ hc) Hinit)
    as [Hout Hhid].
  apply extends_prefix in Hpre.
  split; [done|]. split; [by apply out_len_3_1_1|].
  destruct (Dblock_den_shape E d _ _ _ ts tc batch L Hlive Hcfg Ss Sc HL
              Hin Hout Hhid) as (t1 & t2 & Hden & S1 & S2).
  pose proof (Dblock_forward_spec E h d spec cond ts tc Hpre Hlive Hs Hc)
    as Hrun.
  rewrite Hden in Hrun.
  apply run_to_returns in Hrun as ([o1 o2] & h' & Hcall & _ & H1 & H2 & _).
  by exists o1, o2, h', t1, t2.
Qed.

(** C4 (as amended: sequences of length at least 1).  For every
    [MSGDiscriminator(nf, n_layers, hidden_dim)] with [n_layers >= 1] and
    inputs [x] of shape [(batch, nf, L)] and [y] of shape
    [(batch, hidden_dim, L)] with [L >= 1], [forward] goes through the
    blocks [layer_1 .. layer_n_layers] in insertion order, chaining
    [(x_k, y_k) = layer_k(x_(k-1), y_(k-1))], and returns the list
    [[x_1, ..., x_n_layers]] together with the score
    [flatten(disc_spec(x_n) + disc_cond(y_n))], of shape [(batch, L)]. *)
Theorem MSGDiscriminator_forward_chain
    nf n_layers hidden_dim hc m E (h : state) x y tx ty batch L :
  MSGDiscriminator_init nf n_layers hidden_dim hc = (inr m, E) →
  E `prefix_of` h →
  h !! x = Some tx → h !! y = Some ty →
  shape tx = [batch; nf; L] → shape ty = [batch; hidden_dim; L] →
  1 ≤ n_layers → 1 ≤ L →
  map fst (items (discriminator m))
    = map (fun k => "layer_" +:+ pretty k) (seq 1 n_layers)
  ∧ ∃ feats score h' xn yn tfeats tscore,
      MSGDiscriminator_forward m x y h = (inr (feats, score), h')
      ∧ MSG_chain E (items (discriminator m)) tx ty = inr (xn, yn, tfeats)
      ∧ length tfeats = n_layers
      ∧ Forall2 (fun l t => h' !! l = Some t) feats tfeats
      ∧ MSG_score E m xn yn = inr tscore
      ∧ h' !! score = Some tscore
      ∧ shape tscore = [batch; L].
Proof.
  intros Hinit Hpre Hx Hy Sx Sy Hn HL.
  destruct (builds_inv _ _ _ _ _ (MSGDiscriminator_init_spec _ _ _ hc) Hinit)
    as [Hcfg Hlive].
  destruct (builds_inv _ _ _ _ _ (MSGDiscriminator_init_channels _ _ _ hc)
              Hinit) as [?|[Hnf Hhid]]; [lia|].
  apply extends_prefix in Hpre. split.
  - destruct Hcfg as (Hlen & Hlayers & _). unfold items.
    rewrite <- Hlen. by eapply layers_cfg_keys.
  - destruct (MSG_den_shape E m _ _ _ tx ty batch L Hlive Hcfg Sx Sy HL
                Hnf Hhid)
      as (xn & yn & fs & s & Hch & Hsc & Hden & Hlen & _ & Ss).
    pose proof (MSGDiscriminator_forward_spec E h m x y tx ty Hpre Hlive Hx Hy)
      as Hrun.
    rewrite Hden in Hrun.
    apply run_to_returns in Hrun
      as ([feats score] & h' & Hcall & _ & Hf & Hs & _).
    by exists feats, score, h', xn, yn, fs, s.
Qed.

(** C9.  For every [MSGDiscriminator] constructed with [n_layers] blocks,
    the feature list returned by [forward] has exactly [n_layers] elements
    (one per block, in order) -- with the default [n_layers = 4], four and
    not the six of the docstring -- and the score is not in it.  [forward]
    does return on inputs of shapes [(batch, nf, L)], [(batch, hidden_dim,
    L)] with [L >= 1]. *)
Theorem MSGDiscriminator_feature_count
    nf n_layers hidden_dim hc m E (h : state) x y tx ty :
  MSGDiscriminator_init nf n_layers hidden_dim hc = (inr m, E) →
  E `prefix_of` h →
  h !! x = Some tx → h !! y = Some ty →
  (∀ feats score h',
     MSGDiscriminator_forward m x y h = (inr (feats, score), h') →
     length feats = n_layers ∧ (score ∉ feats)
     ∧ (n_layers = 4 → length feats = 4 ∧ length feats ≠ 6)
     ∧ ∃ xn yn tfeats,
         MSG_chain E (items (discriminator m)) tx ty = inr (xn, yn, tfeats)
         ∧ Forall2 (fun l t => h' !! l = Some t) feats tfeats)
  ∧ (∀ batch L,
       shape tx = [batch; nf; L] → shape ty = [batch; hidden_dim; L] →
       1 ≤ L →
       ∃ feats score h',
         MSGDiscriminator_forward m x y h = (inr (feats, score), h')).
Proof.
  intros Hinit Hpre Hx Hy.
  destruct (builds_inv _ _ _ _ _ (MSGDiscriminator_init_spec _ _ _ hc) Hinit)
    as [Hcfg Hlive].
  apply extends_prefix in Hpre.
  pose proof (MSGDiscriminator_forward_spec E h m x y tx ty Hpre Hlive Hx Hy)
    as Hrun.
  split.
  - intros feats score h' Hcall.
    destruct Hrun as (r & h'' & Hcall' & _ & Hag).
    rewrite Hcall in Hcall'. injection Hcall' as <- <-.
    unfold MSG_den in Hag.
    destruct (MSG_chain E (discriminator m) tx ty)
      as [e|[[xn yn] tfs]] eqn:Hch; simpl in Hag; [done|].
    destruct (MSG_score E m xn yn) as [e|s]; simpl in Hag; [done|].
    destruct Hag as (Hf & Hs & Hnotin & _). simpl in *.
    assert (length feats = n_layers) as Hlen.
    { rewrite (Forall2_length _ _ _ Hf).
      rewrite (MSG_chain_length _ _ _ _ _ _ _ Hch). apply Hcfg. }
    split_and!; [done|done|lia|]. by exists xn, yn, tfs.
  - intros batch L Sx Sy HL.
    pose proof (builds_inv _ _ _ _ _ (MSGDiscriminator_init_channels _ _ _ hc)
                  Hinit) as Hch.
    destruct (MSG_den_returns E m _ _ _ tx ty batch L Hlive Hcfg Hch Sx Sy HL)
      as (fs & s & Hden).
    rewrite Hden in Hrun.
    apply run_to_returns in Hrun as ([feats score] & h' & Hcall & _).
    by exists feats, score, h'.
Qed.

(** C10 (as amended: at least one channel in each stream).  For every
    [MSGDiscriminator(nf, n_layers, hidden_dim)] with [nf >= 1] and
    [hidden_dim >= 1] the channel counts form a doubling chain: block [k]
    ([k = 1 .. n_layers], stored under [layer_k]) maps [nf * 2^(k-1)]
    spec-channels to [nf * 2^k] and keeps the condition at [hidden_dim]
    channels, so that feature [k] of [forward] has [nf * 2^k] channels; the
    heads [disc_spec] and [disc_cond] take [nf * 2^n_layers] and
    [hidden_dim] channels and give 1 channel each.  The blocks, the heads
    and [forward] are run on sequences of length [L >= 1]. *)
Theorem MSGDiscriminator_channels nf n_layers hidden_dim hc m E :
  MSGDiscriminator_init nf n_layers hidden_dim hc = (inr m, E) →
  1 ≤ nf → 1 ≤ hidden_dim →
  length (discriminator m) = n_layers
  ∧ (∀ k, 1 ≤ k ≤ n_layers →
       ∃ d, discriminator m !! (k - 1) = Some ("layer_" +:+ pretty k, d)
            ∧ Dblock_cfg d (nf * 2 ^ (k - 1)) (nf * 2 ^ k) hidden_dim
            ∧ ∀ (h : state) spec cond ts tc batch L,
                E `prefix_of` h →
                h !! spec = Some ts → h !! cond = Some tc →
                shape ts = [batch; nf * 2 ^ (k - 1); L] →
                shape tc = [batch; hidden_dim; L] → 1 ≤ L →
                ∃ out1 out2 h' t1 t2,
                  Dblock_forward d spec cond h = (inr (out1, out2), h')
                  ∧ h' !! out1 = Some t1 ∧ h' !! out2 = Some t2
                  ∧ shape t1 = [batch; nf * 2 ^ k; L]
                  ∧ shape t2 = [batch; hidden_dim; L])
  ∧ Conv1d_cfg (disc_spec m) (nf * 2 ^ n_layers) 1 3 1 1
  ∧ Conv1d_cfg (disc_cond m) hidden_dim 1 3 1 1
  ∧ (∀ (h : state) x y tx ty batch L,
       E `prefix_of` h → h !! x = Some tx → h !! y = Some ty →
       shape tx = [batch; nf * 2 ^ n_layers; L] →
       shape ty = [batch; hidden_dim; L] → 1 ≤ L →
       (∃ a h' ta, Conv1d_forward (disc_spec m) x h = (inr a, h')
                   ∧ h' !! a = Some ta ∧ shape ta = [batch; 1; L])
       ∧ (∃ b h' tb, Conv1d_forward (disc_cond m) y h = (inr b, h')
                     ∧ h' !! b = Some tb ∧ shape tb = [batch; 1; L]))
  ∧ ∀ (h : state) x y tx ty batch L,
      E `prefix_of` h → h !! x = Some tx → h !! y = Some ty →
      shape tx = [batch; nf; L] → shape ty = [batch; hidden_dim; L] →
      1 ≤ L →
      ∃ feats score h' xn yn tfeats,
        MSGDiscriminator_forward m x y h = (inr (feats, score), h')
        ∧ length feats = n_layers
        ∧ (∀ k, 1 ≤ k ≤ n_layers →
             ∃ l t, feats !! (k - 1) = Some l ∧ h' !! l = Some t
                    ∧ shape t = [batch; nf * 2 ^ k; L])
        ∧ MSG_chain E (items (discriminator m)) tx ty = inr (xn, yn, tfeats)
        ∧ shape xn = [batch; nf * 2 ^ n_layers; L]
        ∧ shape yn = [batch; hidden_dim; L].
Proof.
  intros Hinit Hnf Hhid.
  destruct (builds_inv _ _ _ _ _ (MSGDiscriminator_init_spec _ _ _ hc) Hinit)
    as [Hcfg Hlive].
  pose proof Hcfg as (Hlen & Hlayers & Hs & Hc).
  destruct (MSG_live E m Hlive) as (Lits & Ls & Lc).
  split_and!; [done| |done|done| |].
  - intros k Hk.
    destruct (lookup_lt_is_Some_2 (discriminator m) (k - 1)) as [[key d] Hd];
      [lia|].
    destruct (layers_cfg_lookup _ _ _ _ _ _ _ Hlayers Hd) as [-> Hdcfg].
    pose proof (layers_live_lookup _ _ _ _ _ Lits Hd) as Ld.
    replace (1 + (k - 1)) with k in * by lia.
    replace (S (k - 1)) with k in * by lia.
    exists d. split_and!; [done..|].
    intros h spec cond ts tc batch L Hpre Hts Htc Ss Sc HL.
    apply extends_prefix in Hpre.
    pose proof (pow2_pos (k - 1)) as Hp1. pose proof (pow2_pos k) as Hp2.
    destruct (Dblock_den_shape E d _ _ _ ts tc batch L Ld Hdcfg Ss Sc HL)
      as (t1 & t2 & Hden & S1 & S2); [nia|nia|lia|].
    pose proof (Dblock_forward_spec E h d spec cond ts tc Hpre Ld Hts Htc)
      as Hrun.
    rewrite Hden in Hrun.
    apply run_to_returns in Hrun as ([o1 o2] & h' & Hcall & _ & H1 & H2 & _).
    by exists o1, o2, h', t1, t2.
  - intros h x y tx ty batch L Hpre Hx Hy Sx Sy HL.
    apply extends_prefix in Hpre.
    pose proof (pow2_pos n_layers) as Hp.
    split.
    + destruct (Conv1d_den_shape E _ tx _ _ _ _ _ batch L Ls Hs Sx)
        as (ta & Hden & Sa); [lia|nia|].
      rewrite out_len_3_1_1 in Sa by done.
      pose proof (Conv1d_forward_spec E h (disc_spec m) x tx Hpre Ls Hx)
        as Hrun.
      rewrite Hden in Hrun.
      apply run_to_returns in Hrun as (a & h' & Hcall & _ & Ha & _).
      by exists a, h', ta.
    + destruct (Conv1d_den_shape E _ ty _ _ _ _ _ batch L Lc Hc Sy)
        as (tb & Hden & Sb); [lia..|].
      rewrite out_len_3_1_1 in Sb by done.
      pose proof (Conv1d_forward_spec E h (disc_cond m) y ty Hpre Lc Hy)
        as Hrun.
      rewrite Hden in Hrun.
      apply run_to_returns in Hrun as (b & h' & Hcall & _ & Hb & _).
      by exists b, h', tb.
  - intros h x y tx ty batch L Hpre Hx Hy Sx Sy HL.
    apply extends_prefix in Hpre.
    destruct (MSG_den_shape E m _ _ _ tx ty batch L Hlive Hcfg Sx Sy HL
                Hnf Hhid)
      as (xn & yn & fs & s & Hch & Hsc & Hden & Hfslen & Sfs & Ss).
    destruct (MSG_chain_shape E hidden_dim batch L _ 1 nf tx ty Lits Hlayers
                Sx Sy HL Hnf Hhid)
      as (xn' & yn' & fs' & Hch' & Sxn & Syn & _).
    rewrite Hch in Hch'. injection Hch' as <- <- <-. rewrite Hlen in Sxn.
    pose proof (MSGDiscriminator_forward_spec E h m x y tx ty Hpre Hlive Hx Hy)
      as Hrun.
    rewrite Hden in Hrun.
    apply run_to_returns in Hrun
      as ([feats score] & h' & Hcall & _ & Hf & _).
    simpl in Hf.
    exists feats, score, h', xn, yn, fs.
    split_and!; [done| |  |done..].
    + rewrite (Forall2_length _ _ _ Hf). done.
    + intros k Hk.
      destruct (lookup_lt_is_Some_2 feats (k - 1)) as [l Hl].
      { rewrite (Forall2_length _ _ _ Hf). lia. }
      destruct (Forall2_lookup_l _ _ _ _ _ Hf Hl) as (t & Ht & Hlt).
      exists l, t. split_and!; [done..|]. rewrite (Sfs _ _ Ht).
      by replace (S (k - 1)) with k by lia.
Qed.

(** C5 (as amended: [downsampling_factor >= 2], at least one channel in
    each input, and at each of the [num_D] scales a sequence of length at
    least 1 and at least [downsampling_factor - 2]).  For every
    [MultiMSGDiscriminator(num_D, ndf, n_layers, downsampling_factor,
    hidden_dim)] and inputs [x] of shape [(batch, ndf, L)] and [y] of shape
    [(batch, hidden_dim, L)], the [num_D] sub-discriminators [disc_0 ..]
    are [MSGDiscriminator]s of the same hyperparameters [(ndf, n_layers,
    hidden_dim)], and [forward] returns [(features, outputs)] with
    [len(features) = len(outputs) = num_D], where [(features[i],
    outputs[i])] is the result of sub-discriminator [i] on [x] and [y] each
    downsampled [i] times. *)
Theorem MultiMSGDiscriminator_forward_scales
    num_D ndf n_layers downsampling_factor hidden_dim hc m E
    (h : state) x y tx ty batch L :
  MultiMSGDiscriminator_init num_D ndf n_layers downsampling_factor hidden_dim
    hc = (inr m, E) →
  E `prefix_of` h →
  h !! x = Some tx → h !! y = Some ty →
  shape tx = [batch; ndf; L] → shape ty = [batch; hidden_dim; L] →
  1 ≤ ndf → 1 ≤ hidden_dim →
  2 ≤ downsampling_factor →
  (∀ i, i < num_D →
     1 ≤ scale_len downsampling_factor i L
     ∧ downsampling_factor ≤ scale_len downsampling_factor i L + 2) →
  length (model m) = num_D
  ∧ (∀ i key disc, model m !! i = Some (key, disc) →
       key = "disc_" +:+ pretty i ∧ MSG_cfg disc ndf n_layers hidden_dim)
  ∧ ∃ features outputs h',
      MultiMSGDiscriminator_forward m x y h = (inr (features, outputs), h')
      ∧ length features = num_D ∧ length outputs = num_D
      ∧ ∀ i, i < num_D →
          ∃ key disc xi yi feats out tfeats tout,
            items (model m) !! i = Some (key, disc)
            ∧ downsampled (downsample m) i tx = inr xi
            ∧ downsampled (downsample m) i ty = inr yi
            ∧ shape xi = [batch; ndf; scale_len downsampling_factor i L]
            ∧ shape yi
              = [batch; hidden_dim; scale_len downsampling_factor i L]
            ∧ MSG_den E disc xi yi = inr (tfeats, tout)
            ∧ features !! i = Some feats
            ∧ Forall2 (fun l t => h' !! l = Some t) feats tfeats
            ∧ outputs !! i = Some out
            ∧ h' !! out = Some tout.
Proof.
  intros Hinit Hpre Hx Hy Sx Sy Hndf Hhid Hd Hscale.
  destruct (builds_inv _ _ _ _ _
              (MultiMSGDiscriminator_init_spec _ _ _ _ _ hc) Hinit)
    as (Hlen & Hcfg & Hds & Hlive).
  apply extends_prefix in Hpre.
  split; [done|]. split.
  { intros i key disc Hi.
    by destruct (model_cfg_lookup _ _ _ _ _ _ _ _ Hcfg Hi). }
  rewrite <- Hlen in Hscale.
  destruct (MultiMSG_scales_total E downsampling_factor ndf n_layers hidden_dim
              batch (model m) 0 tx ty L Hlive Hcfg Sx Sy Hndf Hhid Hd Hscale)
    as (tfs & tos & Hden).
  pose proof (MultiMSGDiscriminator_forward_spec E h m x y tx ty
                Hpre Hlive Hx Hy) as Hrun.
  unfold MultiMSG_den in Hrun. rewrite Hds in *. rewrite Hden in Hrun.
  apply run_to_returns in Hrun
    as ([features outputs] & h' & Hcall & _ & (newf & Hf & Hnewf)
        & newo & Ho & Hnewo & _).
  simpl in *. subst newf newo.
  destruct (MultiMSG_scales_lookup _ _ _ _ _ _ _ Hden) as (Lf & Lo & Hnth).
  exists features, outputs, h'.
  split_and!; [done| | |].
  - rewrite (Forall2_length _ _ _ Hnewf). congruence.
  - rewrite (Forall2_length _ _ _ Hnewo). congruence.
  - intros i Hi. unfold items.
    destruct (lookup_lt_is_Some_2 (model m) i) as [[key disc] Hdisc]; [lia|].
    destruct (Hnth i key disc Hdisc)
      as (xi & yi & fi & oi & Hxi & Hyi & Hmsg & Hfi & Hoi).
    destruct (Forall2_lookup_r _ _ _ _ _ Hnewf Hfi) as (feats & Hfeats & Hfh).
    destruct (Forall2_lookup_r _ _ _ _ _ Hnewo Hoi) as (out & Hout & Hoh).
    assert (∀ j, j < i →
              1 ≤ scale_len downsampling_factor j L
              ∧ downsampling_factor ≤ scale_len downsampling_factor j L + 2)
      as Hfit by (intros j Hj; apply Hscale; lia).
    destruct (downsampled_shape downsampling_factor i tx batch ndf L
                Sx Hndf Hd Hfit) as (xi' & Hxi' & Sxi).
    destruct (downsampled_shape downsampling_factor i ty batch hidden_dim L
                Sy Hhid Hd Hfit) as (yi' & Hyi' & Syi).
    rewrite Hxi in Hxi'. rewrite Hyi in Hyi'.
    injection Hxi' as <-. injection Hyi' as <-.
    by exists key, disc, xi, yi, feats, out, fi, oi.
Qed.

(** C3 (as amended: the window, not the stride, is the configured
    factor).  For every [MultiMSGDiscriminator] and
    [MultiScaleDiscriminator] constructed with [downsampling_factor = d],
    the downsample layer is an average pool of window [d], stride 2 and
    padding 1: for [d >= 2] a non-empty input of length [L >= d - 2] is
    reduced to length [(L + 2 - d) / 2 + 1], which for the default [d = 2]
    is [L / 2 + 1]. *)
Theorem downsample_length num_D ndf n_layers d hidden_dim :
  (∀ hc m E,
     MultiMSGDiscriminator_init num_D ndf n_layers d hidden_dim hc
       = (inr m, E) →
     downsample m = downsample_init d)
  ∧ (∀ hc m E,
       MultiScaleDiscriminator_init num_D ndf n_layers d hidden_dim hc
         = (inr m, E) →
       ms_downsample m = downsample_init d)
  ∧ pool_kernel_size (downsample_init d) = d
  ∧ pool_stride (downsample_init d) = 2
  ∧ pool_padding (downsample_init d) = 1
  ∧ (∀ x n c L,
       shape x = [n; c; L] → 1 ≤ c → 1 ≤ L → 2 ≤ d → d ≤ L + 2 →
       ∃ t, avg_pool1d_pure (downsample_init d) x = inr t
            ∧ shape t = [n; c; (L + 2 - d) / 2 + 1])
  ∧ (∀ L, d = 2 → out_len d 2 1 L = L / 2 + 1).
Proof.
  split_and!; [| |done..| |].
  - intros hc m E Hinit.
    by destruct (builds_inv _ _ _ _ _
                   (MultiMSGDiscriminator_init_spec _ _ _ _ _ hc) Hinit)
      as (_ & _ & Hds & _).
  - intros hc m E Hinit.
    by destruct (builds_inv _ _ _ _ _
                   (MultiScaleDiscriminator_init_spec _ _ _ _ _ hc) Hinit)
      as (_ & _ & Hds & _).
  - intros x n c L Hx Hc HL1 Hd HL.
    destruct (downsample_shape d x n c L Hx Hc Hd HL1 HL) as (t & Ht & St).
    exists t. split; [done|]. rewrite St. unfold out_len.
    by replace (L + 2 * 1 - d) with (L + 2 - d) by lia.
  - intros L ->. unfold out_len. by replace (L + 2 * 1 - 2) with L by lia.
Qed.

(** C1 (what the code does).  [MultiScaleDiscriminator.forward(x)] calls
    its first sub-discriminator, an [MSGDiscriminator] whose [forward]
    takes [x] and [y], with [x] alone: for [num_D >= 1] every call raises
    [TypeError] before any tensor is computed and returns no
    [(features, outputs)]. *)
Theorem MultiScaleDiscriminator_forward_raises
    num_D ndf n_layers downsampling_factor hidden_dim hc m E (h : state) x :
  MultiScaleDiscriminator_init num_D ndf n_layers downsampling_factor
    hidden_dim hc = (inr m, E) →
  1 ≤ num_D →
  MultiScaleDiscriminator_forward m x h = (inl TypeError, h).
Proof.
  intros Hinit HD.
  destruct (builds_inv _ _ _ _ _
              (MultiScaleDiscriminator_init_spec _ _ _ _ _ hc) Hinit)
    as (Hlen & _).
  unfold MultiScaleDiscriminator_forward, items.
  destruct (ms_model m) as [|[key disc] its]; [simpl in Hlen; lia|done].
Qed.

(** C2 (what the code does).  In [MelGANDiscriminator.__init__] the
    strided layers keep [ndf] channels while [layer_(n_layers+1)] is built
    for [min(2 * ndf, disc_out)] input channels: for [ndf >= 1] and
    [disc_out <> ndf] (the defaults are 16 and 512) every [forward] raises
    a framework exception and returns no score. *)
Theorem MelGANDiscriminator_forward_mismatch
    input_dim ndf n_layers disc_out hc m E (h : state) x tx :
  MelGANDiscriminator_init input_dim ndf n_layers disc_out hc = (inr m, E) →
  1 ≤ ndf → disc_out ≠ ndf →
  E `prefix_of` h → h !! x = Some tx →
  ∃ c h', MelGANDiscriminator_forward m x h = (inl (TorchError c), h').
Proof.
  intros Hinit Hndf Hne Hpre Hx.
  destruct (builds_inv _ _ _ _ _
              (MelGANDiscriminator_init_spec _ _ _ _ hc) Hinit)
    as [Hcfg Hlive].
  destruct (builds_inv _ _ _ _ _
              (MelGANDiscriminator_init_channels _ _ _ _ hc) Hinit)
    as [_ Hdo].
  apply extends_prefix in Hpre.
  destruct (MelGAN_cfg_conv_first _ _ _ _ _ Hcfg) as [Hcf Hnil].
  destruct (MelGAN_den_mismatch E m _ _ _ _ tx Hcfg Hndf Hdo Hne)
    as [e Hden].
  destruct (torch_only_inl _ e (MelGAN_den_torch_only E m tx Hlive Hnil) Hden)
    as [c ->].
  destruct (MelGANDiscriminator_forward_spec E h m x tx Hcf Hpre Hlive Hx)
    as (r & h' & Hcall & _ & Hag).
  rewrite Hden in Hag. destruct r as [e|?]; [|done]. simpl in Hag. subst e.
  by exists c, h'.
Qed.

(** C7 (what the code does).  The repository defines and raises no
    exception of its own, and every failure of a forward pass of [Dblock],
    [MSGDiscriminator], [MultiMSGDiscriminator] and [MelGANDiscriminator]
    is an exception of a framework operator (a shape mismatch or an invalid
    pooling parameter), never an [IndexError] of the list handling; on
    inputs of the configured channels, at least one of them, and long
    enough, the [forward] methods of [Dblock], [MSGDiscriminator] and
    [MultiMSGDiscriminator] return.  [MultiScaleDiscriminator.forward]
    however fails, for [num_D >= 1] on every input, with the [TypeError] of
    a call that lacks an argument, which is no exception of the tensor
    framework. *)
Theorem forward_exceptions :
  (∀ input_dim output_dim hidden_dim hc d E (h : state) spec cond ts tc,
     Dblock_init input_dim output_dim hidden_dim hc = (inr d, E) →
     E `prefix_of` h → h !! spec = Some ts → h !! cond = Some tc →
     (∀ e, (Dblock_forward d spec cond h).1 = inl e → ∃ c, e = TorchError c)
     ∧ (∀ batch L,
          shape ts = [batch; input_dim; L] →
          shape tc = [batch; hidden_dim; L] → 1 ≤ input_dim → 1 ≤ L →
          ∃ r, (Dblock_forward d spec cond h).1 = inr r))
  ∧ (∀ nf n_layers hidden_dim hc m E (h : state) x y tx ty,
       MSGDiscriminator_init nf n_layers hidden_dim hc = (inr m, E) →
       E `prefix_of` h → h !! x = Some tx → h !! y = Some ty →
       (∀ e, (MSGDiscriminator_forward m x y h).1 = inl e →
             ∃ c, e = TorchError c)
       ∧ (∀ batch L,
            shape tx = [batch; nf; L] →
            shape ty = [batch; hidden_dim; L] → 1 ≤ L →
            ∃ r, (MSGDiscriminator_forward m x y h).1 = inr r))
  ∧ (∀ num_D ndf n_layers downsampling_factor hidden_dim hc m E (h : state)
       x y tx ty,
       MultiMSGDiscriminator_init num_D ndf n_layers downsampling_factor
         hidden_dim hc = (inr m, E) →
       E `prefix_of` h → h !! x = Some tx → h !! y = Some ty →
       (∀ e, (MultiMSGDiscriminator_forward m x y h).1 = inl e →
             ∃ c, e = TorchError c)
       ∧ (∀ batch L,
            shape tx = [batch; ndf; L] →
            shape ty = [batch; hidden_dim; L] →
            1 ≤ ndf → 1 ≤ hidden_dim →
            2 ≤ downsampling_factor →
            (∀ i, i < num_D →
               1 ≤ scale_len downsampling_factor i L
               ∧ downsampling_factor
                 ≤ scale_len downsampling_factor i L + 2) →
            ∃ r, (MultiMSGDiscriminator_forward m x y h).1 = inr r))
  ∧ (∀ input_dim ndf n_layers disc_out hc m E (h : state) x tx,
       MelGANDiscriminator_init input_dim ndf n_layers disc_out hc
         = (inr m, E) →
       E `prefix_of` h → h !! x = Some tx →
       ∀ e, (MelGANDiscriminator_forward m x h).1 = inl e →
            ∃ c, e = TorchError c)
  ∧ (∀ num_D ndf n_layers downsampling_factor hidden_dim hc m E (h : state) x,
       MultiScaleDiscriminator_init num_D ndf n_layers downsampling_factor
         hidden_dim hc = (inr m, E) →
       (∀ e, (MultiScaleDiscriminator_forward m x h).1 = inl e →
             e = TypeError)
       ∧ (1 ≤ num_D →
          (MultiScaleDiscriminator_forward m x h).1 = inl TypeError
          ∧ ∀ c, TypeError ≠ TorchError c)).
Proof.
  split_and!.
  - intros input_dim output_dim hidden_dim hc d E h spec cond ts tc
      Hinit Hpre Hs Hc.
    destruct (builds_inv _ _ _ _ _ (Dblock_init_spec _ _ _ hc) Hinit)
      as [Hcfg Hlive].
    destruct (builds_inv _ _ _ _ _ (Dblock_init_channels _ _ _ hc) Hinit)
      as [Hout Hhid].
    apply extends_prefix in Hpre.
    pose proof (Dblock_forward_spec E h d spec cond ts tc Hpre Hlive Hs Hc)
      as Hrun.
    split.
    + intros e He. apply (run_to_raises _ _ _ _ _ _ Hrun) in He.
      by eapply torch_only_inl; [apply Dblock_den_torch_only|].
    + intros batch L Ss Sc Hin HL.
      destruct (Dblock_den_shape E d _ _ _ ts tc batch L Hlive Hcfg Ss Sc HL
                  Hin Hout Hhid) as (t1 & t2 & Hden & _).
      rewrite Hden in Hrun.
      apply run_to_returns in Hrun as (r & h' & -> & _). by exists r.
  - intros nf n_layers hidden_dim hc m E h x y tx ty Hinit Hpre Hx Hy.
    destruct (builds_inv _ _ _ _ _ (MSGDiscriminator_init_spec _ _ _ hc) Hinit)
      as [Hcfg Hlive].
    pose proof (builds_inv _ _ _ _ _ (MSGDiscriminator_init_channels _ _ _ hc)
                  Hinit) as Hch.
    apply extends_prefix in Hpre.
    pose proof (MSGDiscriminator_forward_spec E h m x y tx ty
                  Hpre Hlive Hx Hy) as Hrun.
    split.
    + intros e He. apply (run_to_raises _ _ _ _ _ _ Hrun) in He.
      by eapply torch_only_inl; [apply MSG_den_torch_only|].
    + intros batch L Sx Sy HL.
      destruct (MSG_den_returns E m _ _ _ tx ty batch L Hlive Hcfg Hch Sx Sy HL)
        as (fs & s & Hden).
      rewrite Hden in Hrun.
      apply run_to_returns in Hrun as (r & h' & -> & _). by exists r.
  - intros num_D ndf n_layers downsampling_factor hidden_dim hc m E h x y
      tx ty Hinit Hpre Hx Hy.
    destruct (builds_inv _ _ _ _ _
                (MultiMSGDiscriminator_init_spec _ _ _ _ _ hc) Hinit)
      as (Hlen & Hcfg & Hds & Hlive).
    apply extends_prefix in Hpre.
    pose proof (MultiMSGDiscriminator_forward_spec E h m x y tx ty
                  Hpre Hlive Hx Hy) as Hrun.
    split.
    + intros e He. apply (run_to_raises _ _ _ _ _ _ Hrun) in He.
      by eapply torch_only_inl; [apply MultiMSG_scales_torch_only|].
    + intros batch L Sx Sy Hndf Hhid Hd Hscale. rewrite <- Hlen in Hscale.
      destruct (MultiMSG_scales_total E downsampling_factor ndf n_layers
                  hidden_dim batch (model m) 0 tx ty L
                  Hlive Hcfg Sx Sy Hndf Hhid Hd Hscale) as (tfs & tos & Hden).
      unfold MultiMSG_den in Hrun. rewrite Hds in Hrun. rewrite Hden in Hrun.
      apply run_to_returns in Hrun as (r & h' & -> & _). by exists r.
  - intros input_dim ndf n_layers disc_out hc m E h x tx Hinit Hpre Hx e He.
    destruct (builds_inv _ _ _ _ _
                (MelGANDiscriminator_init_spec _ _ _ _ hc) Hinit)
      as [Hcfg Hlive].
    apply extends_prefix in Hpre.
    destruct (MelGAN_cfg_conv_first _ _ _ _ _ Hcfg) as [Hcf Hnil].
    pose proof (MelGANDiscriminator_forward_spec E h m x tx
                  Hcf Hpre Hlive Hx) as Hrun.
    apply (run_to_raises _ _ _ _ _ _ Hrun) in He.
    by eapply torch_only_inl; [apply MelGAN_den_torch_only|].
  - intros num_D ndf n_layers downsampling_factor hidden_dim hc m E h x
      Hinit.
    destruct (builds_inv _ _ _ _ _
                (MultiScaleDiscriminator_init_spec _ _ _ _ _ hc) Hinit)
      as (Hlen & _).
    split.
    + intros e He.
      pose proof (MultiScaleDiscriminator_forward_spec h m x) as Hrun.
      apply (run_to_raises _ _ _ _ _ _ Hrun) in He.
      unfold MultiScale_den in He. destruct (ms_model m); [done|].
      by injection He as <-.
    + intros HD. split; [|done].
      unfold MultiScaleDiscriminator_forward, items.
      destruct (ms_model m) as [|[key disc] its]; [simpl in Hlen; lia|done].
Qed.

(** C8 (as amended: the [weight] attributes are rebound).  A call to
    [forward] of any of the five modules modifies no tensor that existed
    before the call -- no parameter of the module in particular; the
    modules have no buffers -- and binds no attribute but the [weight]
    attributes of the module's convolutions, which the hook of weight norm
    binds to a new tensor at every call; a second call with the same
    inputs, made right after the first, gives the caller an equal
    outcome. *)
Theorem forward_is_pure :
  (∀ input_dim output_dim hidden_dim hc d E (h : state) spec cond,
     Dblock_init input_dim output_dim hidden_dim hc = (inr d, E) →
     E `prefix_of` h → is_Some (h !! spec) → is_Some (h !! cond) →
     pure_call deref_pair (Dblock_parameters d) (Dblock_attrs d)
       (Dblock_forward d spec cond) h)
  ∧ (∀ nf n_layers hidden_dim hc m E (h : state) x y,
       MSGDiscriminator_init nf n_layers hidden_dim hc = (inr m, E) →
       E `prefix_of` h → is_Some (h !! x) → is_Some (h !! y) →
       pure_call deref_feats (MSG_parameters m) (MSG_attrs m)
         (MSGDiscriminator_forward m x y) h)
  ∧ (∀ num_D ndf n_layers downsampling_factor hidden_dim hc m E (h : state)
       x y,
       MultiMSGDiscriminator_init num_D ndf n_layers downsampling_factor
         hidden_dim hc = (inr m, E) →
       E `prefix_of` h → is_Some (h !! x) → is_Some (h !! y) →
       pure_call deref_scales (model_parameters (model m))
         (model_attrs (model m))
         (MultiMSGDiscriminator_forward m x y) h)
  ∧ (∀ input_dim ndf n_layers disc_out hc m E (h : state) x,
       MelGANDiscriminator_init input_dim ndf n_layers disc_out hc
         = (inr m, E) →
       E `prefix_of` h → is_Some (h !! x) →
       pure_call deref_feats (MelGAN_parameters m) (MelGAN_attrs m)
         (MelGANDiscriminator_forward m x) h)
  ∧ (∀ num_D ndf n_layers downsampling_factor hidden_dim hc m E (h : state) x,
       MultiScaleDiscriminator_init num_D ndf n_layers downsampling_factor
         hidden_dim hc = (inr m, E) →
       E `prefix_of` h →
       pure_call deref_scales (model_parameters (ms_model m)) []
         (MultiScaleDiscriminator_forward m x) h).
Proof.
  split_and!.
  - intros input_dim output_dim hidden_dim hc d E h spec cond
      Hinit Hpre [ts Hs] [tc Hc].
    destruct (builds_inv _ _ _ _ _ (Dblock_init_spec _ _ _ hc) Hinit)
      as [Hcfg Hlive].
    apply extends_prefix in Hpre.
    apply (pure_call_intro _ _ _ _ _ pair_holds (Dblock_den E d ts tc)).
    + intros h1 H1. apply Dblock_forward_spec; [ext|done|by apply H1..].
    + intros h0 h'. apply deref_pair_holds.
    + eapply live_extends; done.
    + apply Dblock_forward_binds.
  - intros nf n_layers hidden_dim hc m E h x y Hinit Hpre [tx Hx] [ty Hy].
    destruct (builds_inv _ _ _ _ _ (MSGDiscriminator_init_spec _ _ _ hc) Hinit)
      as [Hcfg Hlive].
    apply extends_prefix in Hpre.
    apply (pure_call_intro _ _ _ _ _ feats_hold (MSG_den E m tx ty)).
    + intros h1 H1.
      apply MSGDiscriminator_forward_spec; [ext|done|by apply H1..].
    + intros h0 h'. apply deref_feats_holds.
    + eapply live_extends; done.
    + apply MSGDiscriminator_forward_binds.
  - intros num_D ndf n_layers downsampling_factor hidden_dim hc m E h x y
      Hinit Hpre [tx Hx] [ty Hy].
    destruct (builds_inv _ _ _ _ _
                (MultiMSGDiscriminator_init_spec _ _ _ _ _ hc) Hinit)
      as (Hlen & Hcfg & Hds & Hlive).
    apply extends_prefix in Hpre.
    apply (pure_call_intro _ _ _ _ _ (fun h0 => scales_hold h0 [] [])
             (MultiMSG_den E m tx ty)).
    + intros h1 H1.
      apply MultiMSGDiscriminator_forward_spec; [ext|done|by apply H1..].
    + intros h0 h'. apply deref_scales_holds.
    + eapply live_extends; done.
    + apply MultiMSG_loop_binds.
  - intros input_dim ndf n_layers disc_out hc m E h x Hinit Hpre [tx Hx].
    destruct (builds_inv _ _ _ _ _
                (MelGANDiscriminator_init_spec _ _ _ _ hc) Hinit)
      as [Hcfg Hlive].
    apply extends_prefix in Hpre.
    destruct (MelGAN_cfg_conv_first _ _ _ _ _ Hcfg) as [Hcf Hnil].
    apply (pure_call_intro _ _ _ _ _ (fun _ => result_hold)
             (MelGAN_den E m tx)).
    + intros h1 H1.
      apply MelGANDiscriminator_forward_spec; [done|ext|done|by apply H1].
    + intros h0 h'. apply deref_result_holds.
    + eapply live_extends; done.
    + apply MelGANDiscriminator_forward_binds.
  - intros num_D ndf n_layers downsampling_factor hidden_dim hc m E h x
      Hinit Hpre.
    destruct (builds_inv _ _ _ _ _
                (MultiScaleDiscriminator_init_spec _ _ _ _ _ hc) Hinit)
      as (Hlen & Hcfg & Hds & Hlive).
    apply extends_prefix in Hpre.
    apply (pure_call_intro _ _ _ _ _ (fun h0 => scales_hold h0 [] [])
             (MultiScale_den m)).
    + intros h1 H1.
      eapply run_to_weaken;
        [apply MultiScaleDiscriminator_forward_spec| |done].
      intros h' <-. apply extends_refl.
    + intros h0 h'. apply deref_scales_holds.
    + eapply live_extends; done.
    + apply MultiScale_loop_binds.
Qed.

(** * Further properties of the modules *)

(** ** What the constructors add to the store *)

Lemma allocates_bind {A B} (m : M A) (f : A → M B) (h : state) n n'
    (P : A → list tensor → Prop) (Q : B → list tensor → Prop) :
  allocates m h n P →
  (∀ a ts ws, length ts = n → P a ts →
     allocates (f a) {| tensors := h ++ ts; attrs := ws |} n'
       (fun b ts' => Q b (ts ++ ts'))) →
  allocates (bind m f) h (n + n') Q.
Proof.
  intros (a & ts & ws & Hm & Hn & HP) Hf.
  destruct (Hf a ts ws Hn HP) as (b & ts' & ws' & Hfa & Hn' & HQ).
  exists b, (ts ++ ts'), ws'. unfold bind. rewrite Hm, Hfa.
  cbn [tensors attrs]. rewrite length_app, !app_assoc.
  by split_and!; [|lia|].
Qed.

Lemma allocates_ret {A} (a : A) (h : state) (P : A → list tensor → Prop) :
  P a [] → allocates (ret a) h 0 P.
Proof.
  intros HP. exists a, [], (attrs h). rewrite !app_nil_r. by destruct h.
Qed.

Lemma allocates_weaken {A} (m : M A) (h : state) n n'
    (P P' : A → list tensor → Prop) :
  allocates m h n P → n = n' →
  (∀ a ts, length ts = n → P a ts → P' a ts) →
  allocates m h n' P'.
Proof.
  intros (a & ts & ws & Hm & Hn & HP) <- HPP'. exists a, ts, ws.
  split_and!; auto.
Qed.

Lemma owned_app a b c ps qs :
  a ≤ b → b ≤ c → owned a b ps → owned b c qs → owned a c (ps ++ qs).
Proof.
  intros Hab Hbc [Nps Fps] [Nqs Fqs]. split.
  - apply NoDup_app. split_and!; [done| |done].
    intros x Hx Hx'. rewrite Forall_forall in Fps, Fqs.
    specialize (Fps x Hx). specialize (Fqs x Hx'). lia.
  - apply Forall_app. split; (eapply Forall_impl; [done|]); simpl; lia.
Qed.

Lemma owned_eq a b b' ps : owned a b ps → b = b' → owned a b' ps.
Proof. by intros H <-. Qed.

Lemma owned_nil a b : owned a b [].
Proof. split; constructor. Qed.

Lemma owned_live (h : heap) a ps : owned a (length h) ps → live h ps.
Proof. intros [_ Hps]. eapply Forall_impl; [done|]. simpl. lia. Qed.

Lemma total_params_app E ps qs :
  total_params E (ps ++ qs) = total_params E ps + total_params E qs.
Proof. apply sum_list_with_app. Qed.

(** The count looks at the parameters only. *)
Lemma total_params_ext (E k : heap) a ps :
  owned a (length E) ps → total_params (E ++ k) ps = total_params E ps.
Proof.
  intros Hps%owned_live. unfold total_params.
  induction Hps as [|l ps Hl _ IH]; [done|]. simpl.
  by rewrite IH, lookup_app_l.
Qed.

Lemma weight_norm_Conv1d_allocates cin cout k s p (h : state) :
  1 ≤ cout →
  allocates (weight_norm_Conv1d cin cout k s p) h 4
    (fun c ts =>
       owned (length h) (length h + 4) (Conv1d_parameters c)
       ∧ length (Conv1d_parameters c) = 3
       ∧ total_params (h ++ ts) (Conv1d_parameters c) = cout * (k * cin + 2)
       ∧ Conv1d_cfg c cin cout k s p).
Proof.
  intros Hcout. unfold allocates. rewrite weight_norm_Conv1d_run. cbn zeta.
  rewrite decide_False by lia. eexists _, _, _. split; [reflexivity|].
  split; [done|]. unfold Conv1d_parameters. cbn.
  split; [|split; [done|split; [|done]]].
  - split.
    + repeat constructor; rewrite ?elem_of_cons, ?elem_of_nil; lia.
    + repeat constructor; lia.
  - unfold total_params. cbn [sum_list_with].
    rewrite !lookup_app_r by lia.
    replace (S (length h) - length h) with 1 by lia.
    replace (S (S (length h)) - length h) with 2 by lia.
    rewrite Nat.sub_diag. cbn. lia.
Qed.

Lemma Dblock_init_allocates input_dim output_dim hidden_dim (h : state) :
  1 ≤ output_dim → 1 ≤ hidden_dim →
  allocates (Dblock_init input_dim output_dim hidden_dim) h 16
    (fun d ts =>
       owned (length h) (length h + 16) (Dblock_parameters d)
       ∧ length (Dblock_parameters d) = 12
       ∧ total_params (h ++ ts) (Dblock_parameters d)
         = output_dim * (3 * input_dim + 2) + output_dim * (3 * hidden_dim + 2)
           + output_dim * (3 * output_dim + 2)
           + hidden_dim * (3 * output_dim + 2)).
Proof.
  intros Hout Hhid. unfold Dblock_init.
  eapply (allocates_bind _ _ _ 4 12);
    [by apply weight_norm_Conv1d_allocates|].
  intros c1 ts1 ws1 L1 (O1 & N1 & T1 & _).
  eapply (allocates_bind _ _ _ 4 8); [by apply weight_norm_Conv1d_allocates|].
  intros c2 ts2 ws2 L2 (O2 & N2 & T2 & _).
  eapply (allocates_bind _ _ _ 4 4); [by apply weight_norm_Conv1d_allocates|].
  intros c3 ts3 ws3 L3 (O3 & N3 & T3 & _).
  eapply (allocates_bind _ _ _ 4 0); [by apply weight_norm_Conv1d_allocates|].
  intros c4 ts4 ws4 L4 (O4 & N4 & T4 & _).
  cbn [tensors attrs] in *.
  apply allocates_ret. rewrite app_nil_r.
  unfold Dblock_parameters, Sequential_parameters.
  cbn [input_spec input_cond output_spec output_cond map concat
       layer_parameters app].
  rewrite !app_nil_r.
  assert (length (h ++ ts1) = length h + 4) as E1
    by (rewrite length_app; lia).
  assert (length ((h ++ ts1) ++ ts2) = length h + 4 + 4) as E2
    by (rewrite length_app; lia).
  assert (length (((h ++ ts1) ++ ts2) ++ ts3) = length h + 4 + 4 + 4) as E3
    by (rewrite length_app; lia).
  rewrite E1 in O2. rewrite E2 in O3. rewrite E3 in O4.
  split_and!.
  - eapply (owned_app _ (length h + 4)); [lia|lia|done|].
    eapply (owned_app _ (length h + 4 + 4)); [lia|lia|done|].
    eapply (owned_app _ (length h + 4 + 4 + 4)); [lia|lia|done|].
    eapply owned_eq; [done|lia].
  - rewrite !length_app. lia.
  - rewrite !total_params_app, !app_assoc.
    rewrite (total_params_ext (((h ++ ts1) ++ ts2) ++ ts3) ts4
               (length h + 4 + 4) (Conv1d_parameters c3))
      by (by rewrite E3).
    rewrite (total_params_ext (((h ++ ts1) ++ ts2) ++ ts3) ts4
               (length h + 4) (Conv1d_parameters c2)).
    2:{ rewrite E3. destruct O2 as [? O2]. split; [done|].
        eapply Forall_impl; [done|]. simpl. lia. }
    rewrite (total_params_ext ((h ++ ts1) ++ ts2) ts3
               (length h + 4) (Conv1d_parameters c2))
      by (by rewrite E2).
    rewrite (total_params_ext (((h ++ ts1) ++ ts2) ++ ts3) ts4
               (length h) (Conv1d_parameters c1)).
    2:{ rewrite E3. destruct O1 as [? O1]. split; [done|].
        eapply Forall_impl; [done|]. simpl. lia. }
    rewrite (total_params_ext ((h ++ ts1) ++ ts2) ts3
               (length h) (Conv1d_parameters c1)).
    2:{ rewrite E2. destruct O1 as [? O1]. split; [done|].
        eapply Forall_impl; [done|]. simpl. lia. }
    rewrite (total_params_ext (h ++ ts1) ts2
               (length h) (Conv1d_parameters c1))
      by (by rewrite E1).
    rewrite T1, T2, T3, T4. lia.
Qed.

Lemma MSG_init_loop_allocates hidden_dim n : ∀ k nf d (h : state),
  keys_below "layer_" k d →
  n = 0 ∨ (1 ≤ nf ∧ 1 ≤ hidden_dim) →
  allocates (MSG_init_loop (seq k n) nf hidden_dim d) h (n * 16)
    (fun r ts => ∃ new,
       r = (nf * 2 ^ n, d ++ new) ∧ length new = n
       ∧ owned (length h) (length h + n * 16)
           (concat (map (fun it => Dblock_parameters it.2) new))
       ∧ length (concat (map (fun it => Dblock_parameters it.2) new))
         = n * 12).
Proof.
  induction n as [|n IH]; intros k nf d h Hkeys Hpos;
    cbn [seq MSG_init_loop Nat.mul Nat.add].
  - apply allocates_ret. exists []. rewrite app_nil_r, Nat.mul_1_r.
    split_and!; [done..|apply owned_nil|done].
  - destruct Hpos as [?|[Hnf Hhid]]; [done|].
    eapply (allocates_bind _ _ _ 16 (n * 16));
      [apply Dblock_init_allocates; lia|].
    intros b ts ws Lts (Ob & Nb & _).
    destruct (setitem_below "layer_" k b d Hkeys) as [-> Hkeys'].
    eapply allocates_weaken;
      [apply (IH (S k) (nf * 2) _ _ Hkeys'); right; lia|done|].
    cbn [tensors attrs]. rewrite length_app, Lts.
    intros r ts' Lts' (new & -> & Hlen & Onew & Nnew).
    exists (("layer_" +:+ pretty k, b) :: new). split_and!.
    + f_equal; [rewrite Nat.pow_succ_r'; lia|by rewrite <- app_assoc].
    + simpl. by rewrite Hlen.
    + cbn [map concat snd].
      eapply (owned_app _ (length h + 16)); [lia|lia|done|].
      eapply owned_eq; [done|lia].
    + cbn [map concat snd]. rewrite length_app. lia.
Qed.

Lemma MSGDiscriminator_init_allocates nf n_layers hidden_dim (h : state) :
  n_layers = 0 ∨ (1 ≤ nf ∧ 1 ≤ hidden_dim) →
  allocates (MSGDiscriminator_init nf n_layers hidden_dim) h
    (n_layers * 16 + 8)
    (fun m ts =>
       owned (length h) (length h + (n_layers * 16 + 8)) (MSG_parameters m)
       ∧ length (MSG_parameters m) = n_layers * 12 + 6
       ∧ length (discriminator m) = n_layers).
Proof.
  intros Hpos. unfold MSGDiscriminator_init.
  eapply (allocates_bind _ _ _ (n_layers * 16) 8);
    [apply (MSG_init_loop_allocates _ _ 1 nf [] h); [constructor|done]|].
  intros r ts ws Lts (new & -> & Hlen & Onew & Nnew). cbv beta iota.
  eapply (allocates_bind _ _ _ 4 4);
    [by apply weight_norm_Conv1d_allocates|].
  intros ds ts2 ws2 L2 (O2 & N2 & _).
  eapply (allocates_bind _ _ _ 4 0);
    [by apply weight_norm_Conv1d_allocates|].
  intros dc ts3 ws3 L3 (O3 & N3 & _).
  cbn [tensors attrs] in *. rewrite !length_app, ?Lts, ?L2 in *.
  apply allocates_ret. unfold MSG_parameters.
  cbn [disc_spec disc_cond discriminator app]. split_and!; [| |done].
  - eapply (owned_app _ (length h + n_layers * 16)); [lia|lia|done|].
    eapply (owned_app _ (length h + n_layers * 16 + 4)); [lia|lia|done|].
    eapply owned_eq; [done|lia].
  - rewrite !length_app. lia.
Qed.

Lemma model_init_loop_allocates ndf n_layers hidden_dim n : ∀ i d (h : state),
  keys_below "disc_" i d →
  n = 0 ∨ n_layers = 0 ∨ (1 ≤ ndf ∧ 1 ≤ hidden_dim) →
  allocates (model_init_loop (seq i n) ndf n_layers hidden_dim d) h
    (n * (n_layers * 16 + 8))
    (fun r ts => ∃ new,
       r = d ++ new ∧ length new = n
       ∧ owned (length h) (length h + n * (n_layers * 16 + 8))
           (model_parameters new)
       ∧ length (model_parameters new) = n * (n_layers * 12 + 6)).
Proof.
  induction n as [|n IH]; intros i d h Hkeys Hpos;
    cbn [seq model_init_loop Nat.mul].
  - apply allocates_ret. exists []. rewrite app_nil_r.
    split_and!; [done..|apply owned_nil|done].
  - destruct Hpos as [?|Hpos]; [done|].
    eapply (allocates_bind _ _ _ (n_layers * 16 + 8));
      [by apply MSGDiscriminator_init_allocates|].
    intros m ts ws Lts (Om & Nm & _).
    destruct (setitem_below "disc_" i m d Hkeys) as [-> Hkeys'].
    eapply allocates_weaken;
      [apply (IH (S i) _ _ Hkeys'); by right|done|].
    cbn [tensors attrs]. rewrite length_app, Lts.
    intros r ts' Lts' (new & -> & Hlen & Onew & Nnew).
    exists (("disc_" +:+ pretty i, m) :: new). split_and!.
    + by rewrite <- app_assoc.
    + simpl. by rewrite Hlen.
    + unfold model_parameters in *. cbn [map concat snd].
      eapply (owned_app _ (length h + (n_layers * 16 + 8)));
        [lia|lia|done|].
      eapply owned_eq; [done|lia].
    + unfold model_parameters in *. cbn [map concat snd].
      rewrite length_app. lia.
Qed.

(** [weights_init] on parameters that a constructor has just made leaves
    the rest of the store alone. *)
Lemma apply_weights_init_app ps : ∀ (h : heap) ts ws,
  Forall (fun l => length h ≤ l < length h + length ts) ps →
  ∃ ts', apply_weights_init ps {| tensors := h ++ ts; attrs := ws |}
         = (inr tt, {| tensors := h ++ ts'; attrs := ws |})
         ∧ length ts' = length ts.
Proof.
  induction ps as [|l ps IH]; intros h ts ws Hps.
  - by exists ts.
  - apply Forall_cons in Hps as [Hl Hps].
    destruct (lookup_lt_is_Some_2 ts (l - length h)) as [t Ht]; [lia|].
    assert ((h ++ ts) !! l = Some t) as Hl'.
    { rewrite lookup_app_r by lia. done. }
    set (t' := {| shape := shape t; data := k_weights_init (data t) |}).
    destruct (IH h (<[l - length h := t']> ts) ws) as (ts' & Hrun & Hlen).
    { by rewrite length_insert. }
    exists ts'. cbn [apply_weights_init]. unfold bind at 1. unfold load.
    cbn [tensors]. rewrite Hl'. unfold bind at 1. unfold store.
    cbn [tensors attrs].
    rewrite insert_app_r_alt by lia. fold t'. rewrite Hrun.
    by rewrite length_insert in Hlen.
Qed.

Lemma MelGAN_init_loop_allocates nf n : ∀ k d (h : state),
  keys_below "layer_" k d → 1 ≤ nf →
  allocates (MelGAN_init_loop (seq k n) nf d) h (n * 4)
    (fun r ts => ∃ new,
       r = d ++ new ∧ length new = n
       ∧ keys_below "layer_" (k + n) (d ++ new)
       ∧ map fst new = map (fun j => "layer_" +:+ pretty j) (seq k n)
       ∧ owned (length h) (length h + n * 4)
           (concat (map (fun it => entry_parameters it.2) new))
       ∧ length (concat (map (fun it => entry_parameters it.2) new))
         = n * 3).
Proof.
  induction n as [|n IH]; intros k d h Hkeys Hnf;
    cbn [seq MelGAN_init_loop Nat.mul Nat.add].
  - apply allocates_ret. exists []. rewrite app_nil_r, Nat.add_0_r.
    split_and!; [done..|apply owned_nil|done].
  - eapply (allocates_bind _ _ _ 4 (n * 4));
      [by apply weight_norm_Conv1d_allocates|].
    intros c ts ws Lts (Oc & Nc & _).
    destruct (setitem_below "layer_" k (ESeq [LConv c; LLeaky lrelu]) d Hkeys)
      as [-> Hkeys'].
    eapply allocates_weaken;
      [apply (IH (S k) _ _ Hkeys' Hnf)|done|].
    cbn [tensors attrs]. rewrite length_app, Lts.
    intros r ts' Lts' (new & -> & Hlen & Hk & Hfst & Onew & Nnew).
    exists (("layer_" +:+ pretty k, ESeq [LConv c; LLeaky lrelu]) :: new).
    rewrite <- app_assoc in *. split_and!.
    + done.
    + simpl. by rewrite Hlen.
    + by rewrite <- Nat.add_succ_comm.
    + cbn [map fst seq]. by rewrite Hfst.
    + cbn [map concat snd entry_parameters]. unfold Sequential_parameters.
      cbn [map concat layer_parameters app]. rewrite app_nil_r.
      eapply (owned_app _ (length h + 4)); [lia|lia|done|].
      eapply owned_eq; [done|lia].
    + cbn [map concat snd entry_parameters]. unfold Sequential_parameters.
      cbn [map concat layer_parameters app]. rewrite app_nil_r, length_app.
      lia.
Qed.

Lemma MelGANDiscriminator_init_allocates input_dim ndf n_layers disc_out
    (h : state) :
  1 ≤ ndf → 1 ≤ disc_out →
  allocates (MelGANDiscriminator_init input_dim ndf n_layers disc_out) h
    ((n_layers + 3) * 4)
    (fun m ts =>
       owned (length h) (length h + (n_layers + 3) * 4) (MelGAN_parameters m)
       ∧ length (MelGAN_parameters m) = (n_layers + 3) * 3
       ∧ map fst (mg_discriminator m)
         = map (fun k => "layer_" +:+ pretty k) (seq 0 (n_layers + 3))).
Proof.
  intros Hndf Hdo. unfold MelGANDiscriminator_init.
  eapply allocates_weaken with (n := 4 + (n_layers * 4 + (4 + (4 + 0))));
    [|lia|intros m ts Lts HP; exact HP].
  eapply allocates_bind; [by apply weight_norm_Conv1d_allocates|].
  intros c0 ts0 ws0 L0 (O0 & N0 & _). simpl setitem.
  set (it0 := ("layer_0", ESeq [LConv c0; LLeaky lrelu])).
  eapply allocates_bind;
    [apply (MelGAN_init_loop_allocates ndf n_layers 1 [it0])|].
  { constructor; [|done]. exists 0. split; [lia|done]. }
  { done. }
  intros d ts1 ws1 L1 (mid & -> & Hmid & Hkeys & Hfst & Omid & Nmid).
  eapply allocates_bind; [by apply weight_norm_Conv1d_allocates|].
  intros c1 ts2 ws2 L2 (O1 & N1 & _).
  rewrite (Nat.add_comm 1 n_layers) in Hkeys.
  destruct (setitem_below "layer_" (n_layers + 1)
              (ESeq [LConv c1; LLeaky lrelu]) _ Hkeys) as [-> Hkeys1].
  eapply allocates_bind; [apply weight_norm_Conv1d_allocates; lia|].
  intros c2 ts3 ws3 L3 (O2 & N2 & _).
  replace (S (n_layers + 1)) with (n_layers + 2) in Hkeys1 by lia.
  destruct (setitem_below "layer_" (n_layers + 2)
              (ELayer (LConv c2)) _ Hkeys1) as [-> _].
  cbn [tensors attrs] in *. rewrite !length_app, ?L0, ?L1, ?L2 in *.
  apply allocates_ret.
  unfold MelGAN_parameters. cbn [mg_discriminator].
  rewrite 2!map_app, 2!concat_app. subst it0.
  cbn [map concat snd entry_parameters app]. unfold Sequential_parameters.
  cbn [map concat layer_parameters app]. rewrite !app_nil_r.
  split_and!.
  - rewrite <- !app_assoc.
    eapply (owned_app _ (length h + 4)); [lia|lia|done|].
    eapply (owned_app _ (length h + 4 + n_layers * 4)); [lia|lia|done|].
    eapply (owned_app _ (length h + 4 + n_layers * 4 + 4)); [lia|lia|done|].
    eapply owned_eq; [done|lia].
  - rewrite !length_app. lia.
  - rewrite <- !app_assoc. cbn [app map fst].
    rewrite map_app, Hfst. cbn [map fst].
    replace (n_layers + 3) with (S (n_layers + 2)) by lia. cbn [seq map].
    f_equal. replace (n_layers + 2) with (n_layers + (1 + 1)) at 2 by lia.
    rewrite !seq_app, !map_app. cbn [seq map].
    by rewrite (Nat.add_comm 1 n_layers), <- Nat.add_assoc.
Qed.

(** The parameters of a module that was just made are new objects of the
    store it left. *)
Lemma owned_fresh (hc : heap) n ts ps :
  length ts = n → owned (length hc) (length hc + n) ps →
  Forall (fun l => length hc ≤ l < length (hc ++ ts)) ps.
Proof. intros <- [_ Hps]. by rewrite length_app. Qed.

(** X1.  For [output_dim >= 1] and [hidden_dim >= 1], [Dblock.__init__]
    returns a block with twelve parameter tensors -- the [weight_g],
    [weight_v] and [bias] of its four convolutions -- all of them new
    objects and pairwise distinct, and changes no tensor that existed
    before.  Their element count, the [pytorch_total_params] of the script
    at the end of the file, is
    [out*(3*in+2) + out*(3*hid+2) + out*(3*out+2) + hid*(3*out+2)]. *)
Theorem Dblock_init_parameters input_dim output_dim hidden_dim (hc : state) :
  1 ≤ output_dim → 1 ≤ hidden_dim →
  ∃ d E,
    Dblock_init input_dim output_dim hidden_dim hc = (inr d, E)
    ∧ hc `prefix_of` E
    ∧ length (Dblock_parameters d) = 12
    ∧ NoDup (Dblock_parameters d)
    ∧ Forall (fun l => length hc ≤ l < length E) (Dblock_parameters d)
    ∧ total_params E (Dblock_parameters d)
      = output_dim * (3 * input_dim + 2) + output_dim * (3 * hidden_dim + 2)
        + output_dim * (3 * output_dim + 2)
        + hidden_dim * (3 * output_dim + 2).
Proof.
  intros Hout Hhid.
  destruct (Dblock_init_allocates input_dim output_dim hidden_dim hc Hout Hhid)
    as (d & ts & ws & Hrun & Lts & Hown & Hlen & Htotal).
  eexists d, _. split; [exact Hrun|]. cbn [tensors].
  split; [by eexists|]. split; [done|]. split; [apply Hown|].
  split; [by eapply owned_fresh|done].
Qed.

(** X2.  For [n_layers = 0], or [nf >= 1] and [hidden_dim >= 1],
    [MSGDiscriminator.__init__] returns a module with [12 * n_layers + 6]
    parameter tensors (twelve per block, three per head), all new and
    pairwise distinct, and changes no tensor that existed before. *)
Theorem MSGDiscriminator_init_parameters nf n_layers hidden_dim (hc : state) :
  n_layers = 0 ∨ (1 ≤ nf ∧ 1 ≤ hidden_dim) →
  ∃ m E,
    MSGDiscriminator_init nf n_layers hidden_dim hc = (inr m, E)
    ∧ hc `prefix_of` E
    ∧ length (discriminator m) = n_layers
    ∧ length (MSG_parameters m) = n_layers * 12 + 6
    ∧ NoDup (MSG_parameters m)
    ∧ Forall (fun l => length hc ≤ l < length E) (MSG_parameters m).
Proof.
  intros Hpos.
  destruct (MSGDiscriminator_init_allocates nf n_layers hidden_dim hc Hpos)
    as (m & ts & ws & Hrun & Lts & Hown & Hlen & Hblocks).
  eexists m, _. split; [exact Hrun|]. cbn [tensors].
  split; [by eexists|]. split; [done|]. split; [done|].
  split; [apply Hown|by eapply owned_fresh].
Qed.

(** X3.  For [num_D = 0], [n_layers = 0], or [ndf >= 1] and
    [hidden_dim >= 1], [MultiMSGDiscriminator.__init__] returns a module
    of [num_D] sub-discriminators that share no parameter: the
    [num_D * (12 * n_layers + 6)] parameter tensors are new objects and
    pairwise distinct.  The constructor ([weights_init] included, which is
    taken to rewrite parameters in place) changes no tensor that existed
    before. *)
Theorem MultiMSGDiscriminator_init_parameters
    num_D ndf n_layers downsampling_factor hidden_dim (hc : state) :
  num_D = 0 ∨ n_layers = 0 ∨ (1 ≤ ndf ∧ 1 ≤ hidden_dim) →
  ∃ m E,
    MultiMSGDiscriminator_init num_D ndf n_layers downsampling_factor
      hidden_dim hc = (inr m, E)
    ∧ hc `prefix_of` E
    ∧ length (model m) = num_D
    ∧ length (model_parameters (model m)) = num_D * (n_layers * 12 + 6)
    ∧ NoDup (model_parameters (model m))
    ∧ Forall (fun l => length hc ≤ l < length E)
        (model_parameters (model m)).
Proof.
  intros Hpos.
  destruct (model_init_loop_allocates ndf n_layers hidden_dim num_D 0 [] hc)
    as (r & ts & ws & Hrun & Lts & new & -> & Hlen & Hown & Hps);
    [constructor|done|].
  destruct (apply_weights_init_app (model_parameters new) hc ts ws)
    as (ts' & Hinit & Lts').
  { rewrite Lts. apply Hown. }
  eexists _, _.
  unfold MultiMSGDiscriminator_init, bind, ret. rewrite Hrun.
  cbn [app]. rewrite Hinit.
  split; [done|]. cbn [model tensors]. split; [by eexists|].
  split; [done|]. split; [done|].
  split; [apply Hown|]. eapply owned_fresh; [|done]. lia.
Qed.

(** X4.  For [ndf >= 1] and [disc_out >= 1], [MelGANDiscriminator.__init__]
    returns a module whose dictionary has the [n_layers + 3] entries
    [layer_0 .. layer_(n_layers+2)], in this order (no key is assigned
    twice), with three parameter tensors for each, all new and pairwise
    distinct; no tensor that existed before is changed. *)
Theorem MelGANDiscriminator_init_parameters
    input_dim ndf n_layers disc_out (hc : state) :
  1 ≤ ndf → 1 ≤ disc_out →
  ∃ m E,
    MelGANDiscriminator_init input_dim ndf n_layers disc_out hc = (inr m, E)
    ∧ hc `prefix_of` E
    ∧ map fst (items (mg_discriminator m))
      = map (fun k => "layer_" +:+ pretty k) (seq 0 (n_layers + 3))
    ∧ length (MelGAN_parameters m) = (n_layers + 3) * 3
    ∧ NoDup (MelGAN_parameters m)
    ∧ Forall (fun l => length hc ≤ l < length E) (MelGAN_parameters m).
Proof.
  intros Hndf Hdo.
  destruct (MelGANDiscriminator_init_allocates input_dim ndf n_layers disc_out
              hc Hndf Hdo) as (m & ts & ws & Hrun & Lts & Hown & Hlen & Hkeys).
  eexists m, _. split; [exact Hrun|]. cbn [tensors].
  split; [by eexists|]. split; [done|]. split; [done|].
  split; [apply Hown|by eapply owned_fresh].
Qed.

(** ** Which inputs [Dblock.forward] takes *)

Lemma run_to_inl {A B} (m : M A) (h : state) F (R : heap → A → B → Prop) e :
  run_to m h F R (inl e) → ∃ h', m h = (inl e, h') ∧ F h h'.
Proof.
  intros (r & h' & Hrun & HF & Hag). destruct r as [e'|a]; [|done].
  simpl in Hag. subst e'. by exists h'.
Qed.

Lemma run_to_inr {A B} (m : M A) (h : state) F (R : heap → A → B → Prop) den a h' :
  run_to m h F R den → m h = (inr a, h') → ∃ b, den = inr b ∧ R h' a b.
Proof.
  intros (r & h1 & Hrun & _ & Hag) Hm. rewrite Hm in Hrun.
  injection Hrun as <- <-. destruct den as [e|b]; [done|]. by exists b.
Qed.

Lemma Conv1d_den_channels E c x n ci l :
  live E (Conv1d_parameters c) →
  shape x = [n; ci; l] → ci ≠ in_channels c →
  Conv1d_den E c x = inl (TorchError ChannelMismatch).
Proof.
  intros Hlive Hx Hne. destruct (Conv1d_den_pure E c x Hlive) as (w & b & ->).
  unfold conv1d_pure, conv1d_dims. rewrite Hx. by rewrite decide_False.
Qed.

Lemma Conv1d_den_short E c x n l :
  live E (Conv1d_parameters c) →
  shape x = [n; in_channels c; l] → l + 2 * padding c < kernel_size c →
  Conv1d_den E c x = inl (TorchError InputTooShort).
Proof.
  intros Hlive Hx Hlt. destruct (Conv1d_den_pure E c x Hlive) as (w & b & ->).
  unfold conv1d_pure, conv1d_dims. rewrite Hx. rewrite decide_True by done.
  rewrite decide_False by lia. done.
Qed.

Lemma bdim_zero a c : 1 ≤ a → bdim 0 a = Some c → c = 0 ∧ a = 1.
Proof.
  unfold bdim. intros Ha Hc. repeat case_decide; simplify_eq; lia.
Qed.

(** What [Dblock.forward] was given when it returns: a block without input
    channels never does, for the sum of its two streams has no channels
    then, and [output_spec] takes [output_dim] of them. *)
Lemma Dblock_den_returns E d input_dim output_dim hidden_dim ts tc r
    b1 c1 l1 b2 c2 l2 :
  Dblock_cfg d input_dim output_dim hidden_dim →
  1 ≤ output_dim → 1 ≤ hidden_dim →
  Dblock_den E d ts tc = inr r →
  shape ts = [b1; c1; l1] → shape tc = [b2; c2; l2] →
  1 ≤ input_dim ∧ c1 = input_dim ∧ c2 = hidden_dim ∧ 1 ≤ l1 ∧ 1 ≤ l2
  ∧ is_Some (bdim b1 b2) ∧ is_Some (bdim l1 l2).
Proof.
  intros ((I1 & O1 & K1 & S1 & P1) & (I2 & O2 & K2 & S2 & P2)
          & c3 & c4 & E3 & E4 & (I3 & _) & _) Hout Hhid Hden Hs Hc.
  unfold Dblock_den in Hden. rewrite E3 in Hden.
  destruct (Conv1d_den E (input_spec d) ts) as [?|x1] eqn:H1;
    simpl in Hden; [done|].
  destruct (Conv1d_den E (input_cond d) tc) as [?|y1] eqn:H2;
    simpl in Hden; [done|].
  destruct (add_pure x1 y1) as [?|x] eqn:Hx; simpl in Hden; [done|].
  destruct (Conv1d_den E c3 (leaky_pure lrelu x)) as [?|o1] eqn:H3;
    simpl in Hden; [done|].
  destruct (Conv1d_den_inv _ _ _ _ _ _ _ H1 Hs) as (Hc1 & Hfit1 & Sx1).
  destruct (Conv1d_den_inv _ _ _ _ _ _ _ H2 Hc) as (Hc2 & Hfit2 & Sy1).
  rewrite K1, P1 in Hfit1. rewrite K2, P2 in Hfit2.
  rewrite O1, K1, S1, P1, out_len_3_1_1 in Sx1 by lia.
  rewrite O2, K2, S2, P2, out_len_3_1_1 in Sy1 by lia.
  rewrite decide_False in Sy1 by lia.
  destruct (add_pure_returns _ _ _ _ _ _ _ _ _ Hx Sx1 Sy1)
    as (b & c & l & Hb & Hch & Hl & Sx).
  destruct (Conv1d_den_inv _ _ (leaky_pure lrelu x) _ b c l H3 Sx)
    as (Hc3 & _).
  assert (1 ≤ input_dim) as Hin.
  { destruct (decide (c1 = 0)) as [Hz|Hnz]; [|lia].
    apply bdim_zero in Hch as [-> _]; [|done]. lia. }
  split_and!; [done|congruence|congruence|lia|lia|done|done].
Qed.

(** Which exception each bad input of [Dblock.forward] gets, in the order
    in which the method meets them. *)
Lemma Dblock_den_refused E d input_dim output_dim hidden_dim ts tc
    b1 c1 l1 b2 c2 l2 :
  live E (Dblock_parameters d) →
  Dblock_cfg d input_dim output_dim hidden_dim →
  shape ts = [b1; c1; l1] → shape tc = [b2; c2; l2] →
  (c1 ≠ input_dim → Dblock_den E d ts tc = inl (TorchError ChannelMismatch))
  ∧ (c1 = input_dim → l1 = 0 →
     Dblock_den E d ts tc = inl (TorchError InputTooShort))
  ∧ (c1 = input_dim → 1 ≤ l1 → c2 ≠ hidden_dim →
     Dblock_den E d ts tc = inl (TorchError ChannelMismatch))
  ∧ (c1 = input_dim → 1 ≤ l1 → c2 = hidden_dim → l2 = 0 →
     Dblock_den E d ts tc = inl (TorchError InputTooShort))
  ∧ (c1 = input_dim → 1 ≤ l1 → c2 = hidden_dim → 1 ≤ l2 →
     bdim b1 b2 = None ∨ bdim l1 l2 = None →
     Dblock_den E d ts tc = inl (TorchError NotBroadcastable)).
Proof.
  intros Hlive Hcfg Hs Hc.
  destruct (Dblock_live _ _ _ _ _ Hlive Hcfg)
    as (c3 & c4 & E3 & E4 & C3 & C4 & L1 & L2 & L3 & L4).
  destruct Hcfg as (C1 & C2 & _).
  pose proof C1 as (I1 & O1 & K1 & S1 & P1).
  pose proof C2 as (I2 & O2 & K2 & S2 & P2).
  unfold Dblock_den. split_and!.
  - intros Hne. rewrite (Conv1d_den_channels E _ ts _ _ _ L1 Hs); [done|].
    by rewrite I1.
  - intros -> ->. rewrite <- I1 in Hs.
    rewrite (Conv1d_den_short E _ ts _ _ L1 Hs); [done|]. rewrite K1, P1. lia.
  - intros -> Hl1 Hne.
    destruct (Conv1d_den_dims E _ ts _ _ _ _ _ b1 l1 L1 C1 Hs)
      as (x1 & -> & _); [lia|]. simpl.
    rewrite (Conv1d_den_channels E _ tc _ _ _ L2 Hc); [done|]. by rewrite I2.
  - intros -> Hl1 -> ->.
    destruct (Conv1d_den_dims E _ ts _ _ _ _ _ b1 l1 L1 C1 Hs)
      as (x1 & -> & _); [lia|]. simpl. rewrite <- I2 in Hc.
    rewrite (Conv1d_den_short E _ tc _ _ L2 Hc); [done|]. rewrite K2, P2. lia.
  - intros -> Hl1 -> Hl2 Hnone.
    destruct (Conv1d_den_dims E _ ts _ _ _ _ _ b1 l1 L1 C1 Hs)
      as (x1 & -> & Sx1); [lia|].
    destruct (Conv1d_den_dims E _ tc _ _ _ _ _ b2 l2 L2 C2 Hc)
      as (y1 & -> & Sy1); [lia|].
    rewrite out_len_3_1_1 in Sx1, Sy1 by done. simpl.
    rewrite (add_pure_refused _ _ _ _ _ _ _ _ Sx1 Sy1); [done|].
    destruct Hnone as [?|?]; auto.
Qed.

(** X5.  [Dblock.forward] broadcasts its two streams: for a block with
    [input_dim >= 1], [spec] of shape [(b1, input_dim, l1)] and [cond] of
    shape [(b2, hidden_dim, l2)] with non-empty sequences whose batch sizes
    and lengths are equal or one of them 1, it returns tensors of shapes
    [(b, output_dim, l)] and [(b2, hidden_dim, l2)], where [b] and [l] are
    the broadcast batch size and length: the first result has the shape of
    [x1 + y1], the second the shape of [cond]. *)
Theorem Dblock_forward_broadcast
    input_dim output_dim hidden_dim hc d E (h : state) spec cond ts tc b1 b2 b l1 l2 l :
  Dblock_init input_dim output_dim hidden_dim hc = (inr d, E) →
  E `prefix_of` h →
  h !! spec = Some ts → h !! cond = Some tc →
  shape ts = [b1; input_dim; l1] → shape tc = [b2; hidden_dim; l2] →
  1 ≤ input_dim →
  1 ≤ l1 → 1 ≤ l2 → bdim b1 b2 = Some b → bdim l1 l2 = Some l →
  ∃ out1 out2 h' t1 t2,
    Dblock_forward d spec cond h = (inr (out1, out2), h')
    ∧ h' !! out1 = Some t1 ∧ h' !! out2 = Some t2
    ∧ shape t1 = [b; output_dim; l]
    ∧ shape t2 = [b2; hidden_dim; l2].
Proof.
  intros Hinit Hpre Hs Hc Ss Sc Hin Hl1 Hl2 Hb Hl.
  destruct (builds_inv _ _ _ _ _ (Dblock_init_spec _ _ _ hc) Hinit)
    as [Hcfg Hlive].
  destruct (builds_inv _ _ _ _ _ (Dblock_init_channels _ _ _ hc) Hinit)
    as [Hout Hhid].
  apply extends_prefix in Hpre.
  destruct (Dblock_den_broadcast E d _ _ _ ts tc _ _ _ _ _ _ Hlive Hcfg Ss Sc
              Hin Hout Hhid Hl1 Hl2 Hb Hl) as (t1 & t2 & Hden & S1 & S2).
  pose proof (Dblock_forward_spec E h d spec cond ts tc Hpre Hlive Hs Hc)
    as Hrun.
  rewrite Hden in Hrun.
  apply run_to_returns in Hrun as ([o1 o2] & h' & Hcall & _ & H1 & H2 & _).
  by exists o1, o2, h', t1, t2.
Qed.

(** X6.  On rank-3 inputs [spec] of shape [(b1, c1, l1)] and [cond] of shape
    [(b2, c2, l2)], [Dblock.forward] returns exactly when the block has
    input channels ([input_dim >= 1]), [c1 = input_dim], [c2 = hidden_dim],
    both sequences are non-empty, and the batch sizes as well as the
    lengths broadcast (are equal or one of them is 1). *)
Theorem Dblock_forward_returns_iff
    input_dim output_dim hidden_dim hc d E (h : state) spec cond ts tc
    b1 c1 l1 b2 c2 l2 :
  Dblock_init input_dim output_dim hidden_dim hc = (inr d, E) →
  E `prefix_of` h →
  h !! spec = Some ts → h !! cond = Some tc →
  shape ts = [b1; c1; l1] → shape tc = [b2; c2; l2] →
  (∃ r h', Dblock_forward d spec cond h = (inr r, h'))
  ↔ 1 ≤ input_dim ∧ c1 = input_dim ∧ c2 = hidden_dim ∧ 1 ≤ l1 ∧ 1 ≤ l2
    ∧ is_Some (bdim b1 b2) ∧ is_Some (bdim l1 l2).
Proof.
  intros Hinit Hpre Hs Hc Ss Sc.
  destruct (builds_inv _ _ _ _ _ (Dblock_init_spec _ _ _ hc) Hinit)
    as [Hcfg Hlive].
  destruct (builds_inv _ _ _ _ _ (Dblock_init_channels _ _ _ hc) Hinit)
    as [Hout Hhid].
  apply extends_prefix in Hpre.
  pose proof (Dblock_forward_spec E h d spec cond ts tc Hpre Hlive Hs Hc)
    as Hrun.
  split.
  - intros (r & h' & Hcall).
    destruct (run_to_inr _ _ _ _ _ _ _ Hrun Hcall) as (t & Hden & _).
    by eapply Dblock_den_returns.
  - intros (Hin & -> & -> & Hl1 & Hl2 & [b Hb] & [l Hl]).
    destruct (Dblock_den_broadcast E d _ _ _ ts tc _ _ _ _ _ _ Hlive Hcfg Ss Sc
                Hin Hout Hhid Hl1 Hl2 Hb Hl) as (t1 & t2 & Hden & _).
    rewrite Hden in Hrun.
    apply run_to_returns in Hrun as (r & h' & Hcall & _). by exists r, h'.
Qed.

(** X7.  The exceptions of [Dblock.forward] on rank-3 inputs, in the order in
    which the method meets them: a [spec] with the wrong channel count is
    a channel mismatch of [input_spec]; an empty [spec] is too short for
    the kernel; then the same for [cond] and [input_cond]; and batch sizes
    or lengths that do not broadcast fail in [x1 + y1]. *)
Theorem Dblock_forward_refused
    input_dim output_dim hidden_dim hc d E (h : state) spec cond ts tc
    b1 c1 l1 b2 c2 l2 :
  Dblock_init input_dim output_dim hidden_dim hc = (inr d, E) →
  E `prefix_of` h →
  h !! spec = Some ts → h !! cond = Some tc →
  shape ts = [b1; c1; l1] → shape tc = [b2; c2; l2] →
  (c1 ≠ input_dim →
   (Dblock_forward d spec cond h).1 = inl (TorchError ChannelMismatch))
  ∧ (c1 = input_dim → l1 = 0 →
     (Dblock_forward d spec cond h).1 = inl (TorchError InputTooShort))
  ∧ (c1 = input_dim → 1 ≤ l1 → c2 ≠ hidden_dim →
     (Dblock_forward d spec cond h).1 = inl (TorchError ChannelMismatch))
  ∧ (c1 = input_dim → 1 ≤ l1 → c2 = hidden_dim → l2 = 0 →
     (Dblock_forward d spec cond h).1 = inl (TorchError InputTooShort))
  ∧ (c1 = input_dim → 1 ≤ l1 → c2 = hidden_dim → 1 ≤ l2 →
     bdim b1 b2 = None ∨ bdim l1 l2 = None →
     (Dblock_forward d spec cond h).1 = inl (TorchError NotBroadcastable)).
Proof.
  intros Hinit Hpre Hs Hc Ss Sc.
  destruct (builds_inv _ _ _ _ _ (Dblock_init_spec _ _ _ hc) Hinit)
    as [Hcfg Hlive].
  apply extends_prefix in Hpre.
  pose proof (Dblock_forward_spec E h d spec cond ts tc Hpre Hlive Hs Hc)
    as Hrun.
  assert (∀ e, Dblock_den E d ts tc = inl e →
               (Dblock_forward d spec cond h).1 = inl e) as Hraise.
  { intros e He. rewrite He in Hrun.
    apply run_to_inl in Hrun as (h' & -> & _). done. }
  destruct (Dblock_den_refused E d _ _ _ ts tc _ _ _ _ _ _ Hlive Hcfg Ss Sc)
    as (R1 & R2 & R3 & R4 & R5).
  split_and!; intros; apply Hraise; auto.
Qed.

(** ** Failing early *)

Lemma bind_raises {A B} (m : M A) (f : A → M B) (h : state) e :
  (m h).1 = inl e → (bind m f h).1 = inl e.
Proof. unfold bind. by destruct (m h) as [[e'|a] h']; intros [= ->]. Qed.

Lemma Conv1d_forward_raises E (h : state) c x tx e :
  extends E h → live E (Conv1d_parameters c) → holds h x tx →
  Conv1d_den E c tx = inl e →
  (Conv1d_forward c x h).1 = inl e.
Proof.
  intros Hext Hlive Hx Hden.
  pose proof (Conv1d_forward_spec E h c x tx Hext Hlive Hx) as Hrun.
  rewrite Hden in Hrun. by apply run_to_inl in Hrun as (h' & -> & _).
Qed.

(** X8.  [MSGDiscriminator.forward] looks at the channels of [x] first: an
    [x] of shape [(batch, c, L)] with [c] other than the configured [nf] is
    refused by the first convolution -- [layer_1.input_spec], or
    [disc_spec] when there is no block -- whatever [y] is. *)
Theorem MSGDiscriminator_forward_channel_mismatch
    nf n_layers hidden_dim hc m E (h : state) x y tx batch c L :
  MSGDiscriminator_init nf n_layers hidden_dim hc = (inr m, E) →
  E `prefix_of` h →
  h !! x = Some tx →
  shape tx = [batch; c; L] → c ≠ nf →
  (MSGDiscriminator_forward m x y h).1 = inl (TorchError ChannelMismatch).
Proof.
  intros Hinit Hpre Hx Sx Hne.
  destruct (builds_inv _ _ _ _ _ (MSGDiscriminator_init_spec _ _ _ hc) Hinit)
    as [Hcfg Hlive].
  apply extends_prefix in Hpre.
  destruct (MSG_live E m Hlive) as (Lb & Ls & _).
  destruct Hcfg as (Hlen & Hlayers & Cs & _).
  unfold MSGDiscriminator_forward, items.
  destruct (discriminator m) as [|[key d] its] eqn:Hd.
  - simpl in Hlen. subst n_layers. unfold bind at 1. cbn [MSG_loop ret].
    apply bind_raises. eapply Conv1d_forward_raises; [done..|].
    eapply Conv1d_den_channels; [done..|].
    destruct Cs as (-> & _). simpl. lia.
  - apply bind_raises. cbn [MSG_loop call2]. apply bind_raises.
    unfold Dblock_forward. apply bind_raises.
    destruct Hlayers as (_ & Cd & _).
    cbn [map concat snd] in Lb. apply Forall_app in Lb as [Ld _].
    unfold Dblock_parameters in Ld. apply Forall_app in Ld as [L1 _].
    eapply Conv1d_forward_raises; [done..|].
    eapply Conv1d_den_channels; [done..|].
    destruct Cd as ((-> & _) & _). done.
Qed.

Lemma MSG_den_returns_inv E m nf n_layers hidden_dim x y r b1 c1 l1 b2 c2 l2 :
  MSG_cfg m nf n_layers hidden_dim →
  n_layers = 0 ∨ (1 ≤ nf ∧ 1 ≤ hidden_dim) →
  MSG_den E m x y = inr r →
  shape x = [b1; c1; l1] → shape y = [b2; c2; l2] →
  c1 = nf ∧ c2 = hidden_dim ∧ 1 ≤ l1 ∧ 1 ≤ l2.
Proof.
  intros (Hlen & Hlayers & Cs & Cc) Hpos Hden Hx Hy. unfold MSG_den in Hden.
  destruct (discriminator m) as [|[key d] its] eqn:Hd.
  - simpl in Hlen. subst n_layers. simpl in Hden. unfold MSG_score in Hden.
    destruct (Conv1d_den E (disc_spec m) x) as [?|a] eqn:Ha;
      simpl in Hden; [done|].
    destruct (Conv1d_den E (disc_cond m) y) as [?|b] eqn:Hb;
      simpl in Hden; [done|].
    destruct (Conv1d_den_inv _ _ _ _ _ _ _ Ha Hx) as (H1 & F1 & _).
    destruct (Conv1d_den_inv _ _ _ _ _ _ _ Hb Hy) as (H2 & F2 & _).
    destruct Cs as (I1 & _ & K1 & _ & P1). destruct Cc as (I2 & _ & K2 & _ & P2).
    rewrite K1, P1 in F1. rewrite K2, P2 in F2. simpl in I1.
    split_and!; lia.
  - destruct Hpos as [->|[Hnf Hhid]]; [done|].
    destruct Hlayers as (_ & Cd & _). cbn [MSG_chain] in Hden.
    destruct (Dblock_den E d x y) as [?|p] eqn:Hp; simpl in Hden; [done|].
    assert (1 ≤ nf * 2) as Hnf2 by lia.
    by destruct (Dblock_den_returns E d _ _ _ x y p _ _ _ _ _ _ Cd Hnf2 Hhid
                   Hp Hx Hy) as (_ & H1 & H2 & H3 & H4 & _).
Qed.

(** X9.  The conditions under which [MSGDiscriminator.forward] returns are
    necessary as well: on inputs [x] of shape [(batch, c1, L)] and [y] of
    shape [(batch, c2, L)], it returns exactly when [c1 = nf],
    [c2 = hidden_dim] and the sequence is non-empty. *)
Theorem MSGDiscriminator_forward_returns_iff
    nf n_layers hidden_dim hc m E (h : state) x y tx ty batch c1 c2 L :
  MSGDiscriminator_init nf n_layers hidden_dim hc = (inr m, E) →
  E `prefix_of` h →
  h !! x = Some tx → h !! y = Some ty →
  shape tx = [batch; c1; L] → shape ty = [batch; c2; L] →
  (∃ r h', MSGDiscriminator_forward m x y h = (inr r, h'))
  ↔ c1 = nf ∧ c2 = hidden_dim ∧ 1 ≤ L.
Proof.
  intros Hinit Hpre Hx Hy Sx Sy.
  destruct (builds_inv _ _ _ _ _ (MSGDiscriminator_init_spec _ _ _ hc) Hinit)
    as [Hcfg Hlive].
  pose proof (builds_inv _ _ _ _ _ (MSGDiscriminator_init_channels _ _ _ hc)
                Hinit) as Hpos.
  apply extends_prefix in Hpre.
  pose proof (MSGDiscriminator_forward_spec E h m x y tx ty Hpre Hlive Hx Hy)
    as Hrun.
  split.
  - intros (r & h' & Hcall).
    destruct (run_to_inr _ _ _ _ _ _ _ Hrun Hcall) as (t & Hden & _).
    destruct (MSG_den_returns_inv E m _ _ _ tx ty t _ _ _ _ _ _ Hcfg Hpos Hden
                Sx Sy) as (H1 & H2 & H3 & _).
    done.
  - intros (-> & -> & HL).
    destruct (MSG_den_returns E m _ _ _ tx ty batch L Hlive Hcfg Hpos Sx Sy HL)
      as (fs & s & Hden).
    rewrite Hden in Hrun.
    apply run_to_returns in Hrun as (r & h' & Hcall & _). by exists r, h'.
Qed.

(** ** The downsampling of [MultiMSGDiscriminator] *)

Lemma downsample_short d x n c l :
  shape x = [n; c; l] → 1 ≤ c → 1 ≤ l → l + 2 < d →
  avg_pool1d_pure (downsample_init d) x = inl (TorchError InputTooShort).
Proof.
  intros Hx Hc Hl Hd.
  unfold avg_pool1d_pure, avg_pool1d_len, downsample_init. simpl.
  rewrite Hx. rewrite decide_True by lia. rewrite decide_True by lia.
  by rewrite decide_False by lia.
Qed.

Lemma MultiMSG_scales_first E ds ndf n_layers hidden_dim i its x y n l e :
  its ≠ [] →
  live E (model_parameters its) →
  model_cfg ndf n_layers hidden_dim i its →
  n_layers = 0 ∨ (1 ≤ ndf ∧ 1 ≤ hidden_dim) →
  shape x = [n; ndf; l] → shape y = [n; hidden_dim; l] → 1 ≤ l →
  avg_pool1d_pure ds x = inl e →
  MultiMSG_scales E ds its x y = inl e.
Proof.
  intros Hne Hlive Hcfg Hpos Hx Hy Hl Hpool.
  destruct its as [|[key disc] its]; [done|].
  change (live E (MSG_parameters disc ++ model_parameters its)) in Hlive.
  apply Forall_app in Hlive as [Ld _].
  destruct Hcfg as (_ & Cd & _).
  destruct (MSG_den_returns E disc _ _ _ x y n l Ld Cd Hpos Hx Hy Hl)
    as (feats & out & Hden).
  cbn [MultiMSG_scales]. rewrite Hden. cbn [bindE]. by rewrite Hpool.
Qed.

(** X10.  [MultiMSGDiscriminator.forward] downsamples after every
    sub-discriminator, the last one included, so a pooling layer that
    cannot take the input makes every call fail, whatever [num_D >= 1]
    is: with [downsampling_factor = 1] the pad (1) exceeds half the
    window, and with [downsampling_factor > L + 2] the window is longer
    than the padded input -- even for [num_D = 1], where no downsampled
    tensor is ever used. *)
Theorem MultiMSGDiscriminator_forward_first_downsample
    num_D ndf n_layers d hidden_dim hc m E (h : state) x y tx ty batch L :
  MultiMSGDiscriminator_init num_D ndf n_layers d hidden_dim hc = (inr m, E) →
  E `prefix_of` h →
  h !! x = Some tx → h !! y = Some ty →
  shape tx = [batch; ndf; L] → shape ty = [batch; hidden_dim; L] →
  1 ≤ num_D → 1 ≤ ndf → 1 ≤ L →
  (d = 1 →
   (MultiMSGDiscriminator_forward m x y h).1 = inl (TorchError PadTooLarge))
  ∧ (L + 2 < d →
     (MultiMSGDiscriminator_forward m x y h).1
     = inl (TorchError InputTooShort)).
Proof.
  intros Hinit Hpre Hx Hy Sx Sy HD Hndf HL.
  destruct (builds_inv _ _ _ _ _
              (MultiMSGDiscriminator_init_spec _ _ _ _ _ hc) Hinit)
    as (Hlen & Hcfg & Hds & Hlive).
  assert (n_layers = 0 ∨ (1 ≤ ndf ∧ 1 ≤ hidden_dim)) as Hpos.
  { destruct (builds_inv _ _ _ _ _
                (MultiMSGDiscriminator_init_channels _ _ _ _ _ hc) Hinit)
      as [?|?]; [lia|done]. }
  apply extends_prefix in Hpre.
  pose proof (MultiMSGDiscriminator_forward_spec E h m x y tx ty Hpre Hlive
                Hx Hy) as Hrun.
  assert (model m ≠ []) as Hne.
  { intros Hnil. rewrite Hnil in Hlen. simpl in Hlen. lia. }
  assert (∀ e, avg_pool1d_pure (downsample_init d) tx = inl e →
               (MultiMSGDiscriminator_forward m x y h).1 = inl e) as Hraise.
  { intros e He. unfold MultiMSG_den in Hrun. rewrite Hds in Hrun.
    rewrite (MultiMSG_scales_first E _ ndf n_layers hidden_dim 0 _ tx ty
               batch L e Hne Hlive Hcfg Hpos Sx Sy HL He) in Hrun.
    apply run_to_inl in Hrun as (h' & -> & _). done. }
  split; intros Hd; apply Hraise.
  - eapply downsample_refused; [done..|lia].
  - by eapply downsample_short.
Qed.

(** The shapes of the readings at each scale. *)
Lemma MultiMSG_scales_shapes E d ndf n_layers hidden_dim batch its x y L fs os :
  live E (model_parameters its) →
  model_cfg ndf n_layers hidden_dim 0 its →
  shape x = [batch; ndf; L] → shape y = [batch; hidden_dim; L] →
  1 ≤ ndf → 1 ≤ hidden_dim → 2 ≤ d →
  (∀ i, i < length its → 1 ≤ scale_len d i L ∧ d ≤ scale_len d i L + 2) →
  MultiMSG_scales E (downsample_init d) its x y = inr (fs, os) →
  length fs = length its ∧ length os = length its
  ∧ ∀ i fi oi, fs !! i = Some fi → os !! i = Some oi →
      shape oi = [batch; scale_len d i L]
      ∧ length fi = n_layers
      ∧ ∀ k t, fi !! k = Some t →
          shape t = [batch; ndf * 2 ^ S k; scale_len d i L].
Proof.
  intros Hlive Hcfg Sx Sy Hndf Hhid Hd Hsc Hden.
  destruct (MultiMSG_scales_lookup _ _ _ _ _ _ _ Hden) as (Lfs & Los & Hnth).
  split; [done|]. split; [done|]. intros i fi oi Hfi Hoi.
  assert (i < length its) as Hi.
  { apply lookup_lt_Some in Hfi. lia. }
  destruct (lookup_lt_is_Some_2 its i Hi) as [[key disc] Hdisc].
  destruct (Hnth i key disc Hdisc)
    as (xi & yi & fi' & oi' & Hxi & Hyi & Hdi & Hfi' & Hoi').
  rewrite Hfi in Hfi'. rewrite Hoi in Hoi'.
  injection Hfi' as <-. injection Hoi' as <-.
  assert (∀ j, j < i → 1 ≤ scale_len d j L ∧ d ≤ scale_len d j L + 2) as Hsc'.
  { intros j Hj. apply Hsc. lia. }
  destruct (downsampled_shape d i x batch ndf L Sx Hndf Hd Hsc')
    as (xi' & Hxi' & Sxi).
  destruct (downsampled_shape d i y batch hidden_dim L Sy Hhid Hd Hsc')
    as (yi' & Hyi' & Syi).
  rewrite Hxi in Hxi'. rewrite Hyi in Hyi'.
  injection Hxi' as <-. injection Hyi' as <-.
  destruct (model_cfg_lookup _ _ _ _ _ _ _ _ Hcfg Hdisc) as [_ Cdisc].
  pose proof (model_live_lookup _ _ _ _ _ Hlive Hdisc) as Ldisc.
  destruct (Hsc i Hi) as [Hli _].
  destruct (MSG_den_shape E disc _ _ _ xi yi batch _ Ldisc Cdisc Sxi Syi Hli
              Hndf Hhid)
    as (xn & yn & fs' & s & _ & _ & Hdi' & Hlfs & Hshapes & Ss).
  rewrite Hdi in Hdi'. by injection Hdi' as <- <-.
Qed.

(** X11.  The shapes at each scale: at scale [i] the sequences have length
    [scale_len d i L]; the score of sub-discriminator [i] has shape
    [(batch, scale_len d i L)] and its [k]-th feature (from 1) has
    [ndf * 2^k] channels and the same length. *)
Theorem MultiMSGDiscriminator_forward_shapes
    num_D ndf n_layers d hidden_dim hc m E (h : state) x y tx ty batch L :
  MultiMSGDiscriminator_init num_D ndf n_layers d hidden_dim hc = (inr m, E) →
  E `prefix_of` h →
  h !! x = Some tx → h !! y = Some ty →
  shape tx = [batch; ndf; L] → shape ty = [batch; hidden_dim; L] →
  1 ≤ ndf → 1 ≤ hidden_dim → 2 ≤ d →
  (∀ i, i < num_D → 1 ≤ scale_len d i L ∧ d ≤ scale_len d i L + 2) →
  ∃ features outputs h',
    MultiMSGDiscriminator_forward m x y h = (inr (features, outputs), h')
    ∧ length features = num_D ∧ length outputs = num_D
    ∧ ∀ i, i < num_D →
        ∃ feats out tout,
          features !! i = Some feats ∧ outputs !! i = Some out
          ∧ h' !! out = Some tout
          ∧ shape tout = [batch; scale_len d i L]
          ∧ length feats = n_layers
          ∧ ∀ k f, feats !! k = Some f →
              ∃ tf, h' !! f = Some tf
                    ∧ shape tf = [batch; ndf * 2 ^ S k; scale_len d i L].
Proof.
  intros Hinit Hpre Hx Hy Sx Sy Hndf Hhid Hd Hsc.
  destruct (builds_inv _ _ _ _ _
              (MultiMSGDiscriminator_init_spec _ _ _ _ _ hc) Hinit)
    as (Hlen & Hcfg & Hds & Hlive).
  apply extends_prefix in Hpre. rewrite <- Hlen in *.
  pose proof (MultiMSGDiscriminator_forward_spec E h m x y tx ty Hpre Hlive
                Hx Hy) as Hrun.
  unfold MultiMSG_den in Hrun. rewrite Hds in Hrun.
  destruct (MultiMSG_scales_total E d ndf n_layers hidden_dim batch (model m)
              0 tx ty L Hlive Hcfg Sx Sy Hndf Hhid Hd Hsc)
    as (fs & os & Hden).
  rewrite Hden in Hrun.
  apply run_to_returns in Hrun
    as ([features outputs] & h' & Hcall & _ & (newf & Hf & Hnewf)
        & (newo & Ho & Hnewo & _)).
  simpl in Hf, Ho, Hnewf, Hnewo. subst features outputs.
  destruct (MultiMSG_scales_shapes E d ndf n_layers hidden_dim batch _ tx ty
              L fs os Hlive Hcfg Sx Sy Hndf Hhid Hd Hsc Hden)
    as (Lfs & Los & Hshapes).
  exists newf, newo, h'. split; [done|].
  split; [by rewrite (Forall2_length _ _ _ Hnewf)|].
  split; [by rewrite (Forall2_length _ _ _ Hnewo)|].
  intros i Hi.
  destruct (lookup_lt_is_Some_2 fs i) as [fi Hfi]; [lia|].
  destruct (lookup_lt_is_Some_2 os i) as [oi Hoi]; [lia|].
  destruct (Hshapes i fi oi Hfi Hoi) as (Soi & Lfi & Sfi).
  destruct (Forall2_lookup_r _ _ _ _ _ Hnewf Hfi) as (feats & Hfeats & Hall).
  destruct (Forall2_lookup_r _ _ _ _ _ Hnewo Hoi) as (out & Hout & Hholds).
  exists feats, out, oi. split_and!; [done..| |].
  - by rewrite (Forall2_length _ _ _ Hall).
  - intros k f Hk.
    destruct (Forall2_lookup_l _ _ _ _ _ Hall Hk) as (tf & Htf & Hhold).
    exists tf. split; [done|]. by eapply Sfi.
Qed.

Lemma scale_len_default_bounds i : ∀ l,
  l ≤ 2 ^ i * scale_len 2 i l ∧ 2 ^ i * scale_len 2 i l + 2 ≤ l + 2 ^ S i.
Proof.
  induction i as [|i IH]; intros l.
  - simpl. lia.
  - cbn [scale_len]. destruct (IH (out_len 2 2 1 l)) as [Hlo Hhi].
    assert (out_len 2 2 1 l = l / 2 + 1) as Hout.
    { unfold out_len. f_equal. f_equal. lia. }
    rewrite Hout in *.
    pose proof (Nat.div_mod_eq l 2) as Hdiv.
    pose proof (Nat.mod_upper_bound l 2) as Hmod.
    rewrite !Nat.pow_succ_r' in *. lia.
Qed.

(** X12.  With the default [downsampling_factor = 2] every round of
    [self.downsample] goes through on a non-empty input and roughly halves
    it: after [i] rounds a sequence of length [L >= 1] has a length [len]
    with [L / 2^i <= len < L / 2^i + 2], and never becomes empty. *)
Theorem downsample_default_halves i x n c L :
  shape x = [n; c; L] → 1 ≤ c → 1 ≤ L →
  ∃ t len,
    downsampled (downsample_init 2) i x = inr t
    ∧ shape t = [n; c; len]
    ∧ 1 ≤ len
    ∧ L ≤ 2 ^ i * len ∧ 2 ^ i * len + 2 ≤ L + 2 ^ S i.
Proof.
  intros Hx Hc HL.
  destruct (downsampled_shape 2 i x n c L Hx Hc) as (t & Ht & St); [lia| |].
  { intros j _. by apply default_factor_scales. }
  exists t, (scale_len 2 i L). split; [done|]. split; [done|].
  split; [by apply default_factor_scales|apply scale_len_default_bounds].
Qed.

(** X13.  With the default [downsampling_factor = 2] nothing more is asked of
    the inputs than channels and a non-empty sequence: for every [num_D],
    [forward] returns [num_D] scores, and the score at scale [i] has shape
    [(batch, len)] with [L / 2^i <= len < L / 2^i + 2]. *)
Theorem MultiMSGDiscriminator_forward_default_factor
    num_D ndf n_layers hidden_dim hc m E (h : state) x y tx ty batch L :
  MultiMSGDiscriminator_init num_D ndf n_layers 2 hidden_dim hc = (inr m, E) →
  E `prefix_of` h →
  h !! x = Some tx → h !! y = Some ty →
  shape tx = [batch; ndf; L] → shape ty = [batch; hidden_dim; L] →
  1 ≤ ndf → 1 ≤ hidden_dim → 1 ≤ L →
  ∃ features outputs h',
    MultiMSGDiscriminator_forward m x y h = (inr (features, outputs), h')
    ∧ length features = num_D ∧ length outputs = num_D
    ∧ ∀ i out, outputs !! i = Some out →
        ∃ tout len,
          h' !! out = Some tout ∧ shape tout = [batch; len]
          ∧ 1 ≤ len ∧ L ≤ 2 ^ i * len ∧ 2 ^ i * len + 2 ≤ L + 2 ^ S i.
Proof.
  intros Hinit Hpre Hx Hy Sx Sy Hndf Hhid HL.
  destruct (builds_inv _ _ _ _ _
              (MultiMSGDiscriminator_init_spec _ _ _ _ _ hc) Hinit)
    as (Hlen & Hcfg & Hds & Hlive).
  apply extends_prefix in Hpre. rewrite <- Hlen.
  assert (∀ i, i < length (model m) →
               1 ≤ scale_len 2 i L ∧ 2 ≤ scale_len 2 i L + 2) as Hsc.
  { intros i _. by apply default_factor_scales. }
  pose proof (MultiMSGDiscriminator_forward_spec E h m x y tx ty Hpre Hlive
                Hx Hy) as Hrun.
  unfold MultiMSG_den in Hrun. rewrite Hds in Hrun.
  destruct (MultiMSG_scales_total E 2 ndf n_layers hidden_dim batch (model m)
              0 tx ty L Hlive Hcfg Sx Sy Hndf Hhid (le_n 2) Hsc)
    as (fs & os & Hden).
  rewrite Hden in Hrun.
  apply run_to_returns in Hrun
    as ([features outputs] & h' & Hcall & _ & (newf & Hf & Hnewf)
        & (newo & Ho & Hnewo & _)).
  simpl in Hf, Ho, Hnewf, Hnewo. subst features outputs.
  destruct (MultiMSG_scales_shapes E 2 ndf n_layers hidden_dim batch _ tx ty
              L fs os Hlive Hcfg Sx Sy Hndf Hhid (le_n 2) Hsc Hden)
    as (Lfs & Los & Hshapes).
  exists newf, newo, h'. split; [done|].
  split; [by rewrite (Forall2_length _ _ _ Hnewf)|].
  split; [by rewrite (Forall2_length _ _ _ Hnewo)|].
  intros i out Hout.
  destruct (Forall2_lookup_l _ _ _ _ _ Hnewo Hout) as (oi & Hoi & Hhold).
  destruct (lookup_lt_is_Some_2 fs i) as [fi Hfi].
  { apply lookup_lt_Some in Hoi. lia. }
  destruct (Hshapes i fi oi Hfi Hoi) as (Soi & _).
  exists oi, (scale_len 2 i L). split; [done|]. split; [done|].
  split; [by apply default_factor_scales|apply scale_len_default_bounds].
Qed.

(** ** [MelGANDiscriminator] when [disc_out = ndf] *)

Lemma conv_leaky_shape E c x cin cout k s p n l :
  live E (Conv1d_parameters c) → Conv1d_cfg c cin cout k s p →
  shape x = [n; cin; l] → k ≤ l + 2 * p → 1 ≤ cin →
  ∃ t, Sequential_den E [LConv c; LLeaky lrelu] x = inr t
       ∧ shape t = [n; cout; out_len k s p l].
Proof.
  intros Hlive Hcfg Hx Hk Hcin.
  destruct (Conv1d_den_shape E c x _ _ _ _ _ n l Hlive Hcfg Hx Hk Hcin)
    as (t & Ht & St).
  exists (leaky_pure lrelu t). simpl. by rewrite Ht.
Qed.

Lemma out_len_3_2_1 l : 1 ≤ l → 1 ≤ out_len 3 2 1 l.
Proof. intros _. unfold out_len. lia. Qed.

(** The strided layers and the two last layers, from a tensor of [ndf]
    channels: the layers chain when [layer_(n_layers+1)] takes [ndf]
    channels and gives as many as [layer_(n_layers+2)] takes. *)
Lemma MelGAN_chain_tail E ndf b c1 c2 k1 k2 mid : ∀ x l,
  Forall (strided_cfg ndf) mid →
  live E (concat (map (fun it => entry_parameters it.2) mid)) →
  live E (Conv1d_parameters c1) → live E (Conv1d_parameters c2) →
  Conv1d_cfg c1 ndf ndf 3 1 2 → Conv1d_cfg c2 ndf 1 3 1 1 →
  shape x = [b; ndf; l] → 1 ≤ l → 1 ≤ ndf →
  ∃ fs t,
    MelGAN_chain E
      (mid ++ [(k1, ESeq [LConv c1; LLeaky lrelu]); (k2, ELayer (LConv c2))])
      x = inr fs
    ∧ length fs = length mid + 2
    ∧ last fs = Some t
    ∧ shape t = [b; 1; strided_len (length mid) l + 2]
    ∧ ∀ i f, i < length mid + 1 → fs !! i = Some f →
        ∃ l', shape f = [b; ndf; l'].
Proof.
  induction mid as [|[key en] mid IH];
    intros x l Hmid Lmid L1 L2 C1 C2 Hx Hl Hndf.
  - cbn [app MelGAN_chain entry_den layer_den].
    destruct (conv_leaky_shape E c1 x _ _ _ _ _ b l L1 C1 Hx) as (t1 & -> & S1);
      [lia..|].
    cbn [bindE].
    destruct (Conv1d_den_shape E c2 t1 _ _ _ _ _ b _ L2 C2 S1) as (t2 & -> & S2);
      [unfold out_len; lia|lia|].
    cbn [bindE]. exists [t1; t2], t2. split_and!; [done..| |].
    + rewrite S2. simpl. f_equal. f_equal. f_equal. unfold out_len.
      rewrite !Nat.div_1_r. lia.
    + intros [|i] f Hi Hf; simpl in *; [|lia]. injection Hf as <-. by eexists.
  - apply Forall_cons in Hmid as [(c & Hen & Hc) Hmid]. simpl in Hen.
    subst en. cbn [map concat snd entry_parameters] in Lmid.
    apply Forall_app in Lmid as [Lc Lmid].
    unfold Sequential_parameters in Lc. cbn [map concat layer_parameters] in Lc.
    rewrite !app_nil_r in Lc.
    cbn [app MelGAN_chain entry_den].
    destruct (conv_leaky_shape E c x _ _ _ _ _ b l Lc Hc Hx) as (x1 & -> & S1);
      [lia..|].
    cbn [bindE].
    destruct (IH x1 _ Hmid Lmid L1 L2 C1 C2 S1 (out_len_3_2_1 l Hl) Hndf)
      as (fs & t & -> & Hlen & Hlast & St & Hfs).
    cbn [bindE]. exists (x1 :: fs), t. split_and!.
    + done.
    + simpl. by rewrite Hlen.
    + destruct fs; [done|]. done.
    + done.
    + intros [|i] f Hi Hf; simpl in *.
      * injection Hf as <-. by eexists.
      * apply (Hfs i f); [lia|done].
Qed.

Lemma MelGAN_cfg_live E m input_dim ndf n_layers disc_out :
  MelGAN_cfg m input_dim ndf n_layers disc_out →
  live E (MelGAN_parameters m) →
  ∃ c0 mid c1 c2,
    mg_discriminator m =
      ("layer_0", ESeq [LConv c0; LLeaky lrelu]) :: mid
      ++ [("layer_" +:+ pretty (n_layers + 1), ESeq [LConv c1; LLeaky lrelu]);
          ("layer_" +:+ pretty (n_layers + 2), ELayer (LConv c2))]
    ∧ Conv1d_cfg c0 input_dim ndf 3 1 0
    ∧ length mid = n_layers
    ∧ Forall (strided_cfg ndf) mid
    ∧ Conv1d_cfg c1 (Nat.min (ndf * 2) disc_out) disc_out 3 1 2
    ∧ Conv1d_cfg c2 (Nat.min (ndf * 2) disc_out) 1 3 1 1
    ∧ live E (Conv1d_parameters c0)
    ∧ live E (concat (map (fun it => entry_parameters it.2) mid))
    ∧ live E (Conv1d_parameters c1) ∧ live E (Conv1d_parameters c2).
Proof.
  intros (c0 & mid & c1 & c2 & Hd & C0 & Hlen & Hmid & C1 & C2) Hlive.
  exists c0, mid, c1, c2. unfold MelGAN_parameters in Hlive.
  rewrite Hd in Hlive. cbn [map concat snd entry_parameters] in Hlive.
  rewrite map_app, concat_app in Hlive.
  apply Forall_app in Hlive as [L0 Hlive].
  apply Forall_app in Hlive as [Lmid Hlive].
  cbn [map concat snd entry_parameters layer_parameters] in Hlive.
  apply Forall_app in Hlive as [L1 Hlive].
  apply Forall_app in Hlive as [L2 _].
  unfold Sequential_parameters in L0, L1.
  cbn [map concat layer_parameters] in L0, L1.
  rewrite !app_nil_r in L0, L1. by split_and!.
Qed.

Lemma MelGAN_den_returns E m input_dim ndf n_layers x batch L :
  MelGAN_cfg m input_dim ndf n_layers ndf →
  live E (MelGAN_parameters m) →
  shape x = [batch; input_dim; L] → 3 ≤ L → 1 ≤ input_dim → 1 ≤ ndf →
  ∃ fs t,
    MelGAN_den E m x = inr (fs, t)
    ∧ length fs = n_layers + 2
    ∧ shape t = [batch; 1; strided_len n_layers (L - 2) + 2]
    ∧ ∀ f, f ∈ fs → ∃ l', shape f = [batch; ndf; l'].
Proof.
  intros Hcfg Hlive Hx HL Hin Hndf.
  destruct (MelGAN_cfg_live E m _ _ _ _ Hcfg Hlive)
    as (c0 & mid & c1 & c2 & Hd & C0 & Hlen & Hmid & C1 & C2
        & L0 & Lmid & L1 & L2).
  replace (Nat.min (ndf * 2) ndf) with ndf in C1, C2 by lia.
  unfold MelGAN_den. rewrite Hd. cbn [MelGAN_chain entry_den].
  destruct (conv_leaky_shape E c0 x _ _ _ _ _ batch L L0 C0 Hx)
    as (x0 & -> & S0); [lia..|].
  cbn [bindE].
  assert (out_len 3 1 0 L = L - 2) as Hout.
  { unfold out_len. rewrite Nat.div_1_r. lia. }
  rewrite Hout in S0.
  destruct (MelGAN_chain_tail E ndf batch c1 c2
              ("layer_" +:+ pretty (n_layers + 1))
              ("layer_" +:+ pretty (n_layers + 2)) mid x0 (L - 2)
              Hmid Lmid L1 L2 C1 C2 S0) as (fs & t & -> & Hfs & Hlast & St & Hsh);
    [lia..|].
  cbn [bindE]. rewrite Hlen in *.
  assert (last (x0 :: fs) = Some t) as ->.
  { destruct fs; [done|]. done. }
  exists (removelast (x0 :: fs)), t. split; [done|].
  destruct (exists_last (l := fs)) as (fs' & t' & ->).
  { intros ->. simpl in Hfs. lia. }
  rewrite app_comm_cons, removelast_last.
  rewrite length_app in Hfs. simpl in Hfs.
  split; [simpl; lia|]. split; [done|].
  intros f [->|Hf]%elem_of_cons; [by eexists|].
  apply list_elem_of_lookup in Hf as [i Hi].
  apply (Hsh i f).
  - apply lookup_lt_Some in Hi. lia.
  - by apply lookup_app_l_Some.
Qed.

(** X14.  When [disc_out = ndf] the layers of [MelGANDiscriminator] chain:
    on an input of shape [(batch, input_dim, L)] with [input_dim >= 1] and
    [L >= 3], [forward] returns [n_layers + 2] features (five for the
    default [n_layers = 3], not the six of the docstring), each of [ndf]
    channels, and a score of shape [(batch, 1, len + 2)], [len] being the
    length [L - 2] that [layer_0] leaves, halved (rounding up) by each of
    the [n_layers] strided layers. *)
Theorem MelGANDiscriminator_forward_returns
    input_dim ndf n_layers hc m E (h : state) x tx batch L :
  MelGANDiscriminator_init input_dim ndf n_layers ndf hc = (inr m, E) →
  E `prefix_of` h →
  h !! x = Some tx →
  shape tx = [batch; input_dim; L] → 1 ≤ input_dim → 3 ≤ L →
  ∃ feats score h' tscore,
    MelGANDiscriminator_forward m x h = (inr (feats, score), h')
    ∧ length feats = n_layers + 2
    ∧ h' !! score = Some tscore
    ∧ shape tscore = [batch; 1; strided_len n_layers (L - 2) + 2]
    ∧ ∀ f, f ∈ feats →
        ∃ tf l', h' !! f = Some tf ∧ shape tf = [batch; ndf; l'].
Proof.
  intros Hinit Hpre Hx Sx Hin HL.
  destruct (builds_inv _ _ _ _ _
              (MelGANDiscriminator_init_spec _ _ _ _ hc) Hinit)
    as [Hcfg Hlive].
  destruct (builds_inv _ _ _ _ _
              (MelGANDiscriminator_init_channels _ _ _ _ hc) Hinit)
    as [Hndf _].
  apply extends_prefix in Hpre.
  destruct (MelGAN_cfg_conv_first _ _ _ _ _ Hcfg) as [Hconv _].
  pose proof (MelGANDiscriminator_forward_spec E h m x tx Hconv Hpre Hlive Hx)
    as Hrun.
  destruct (MelGAN_den_returns E m _ _ _ tx batch L Hcfg Hlive Sx HL Hin Hndf)
    as (fs & t & Hden & Hlen & St & Hsh).
  rewrite Hden in Hrun.
  apply run_to_returns in Hrun
    as ([feats score] & h' & Hcall & _ & Hall & Hscore).
  simpl in Hall, Hscore.
  exists feats, score, h', t. split; [done|].
  split; [by rewrite (Forall2_length _ _ _ Hall)|]. split; [done|].
  split; [done|].
  intros f [i Hi]%list_elem_of_lookup.
  destruct (Forall2_lookup_l _ _ _ _ _ Hall Hi) as (tf & Htf & Hhold).
  destruct (Hsh tf) as [l' Hl']; [by eapply list_elem_of_lookup_2|].
  by exists tf, l'.
Qed.

(** X15.  [MelGANDiscriminator.forward] can only return when
    [disc_out = ndf]: for [ndf >= 1] and an input of shape
    [(batch, input_dim, L)] with [input_dim >= 1] and [L >= 3], it returns
    exactly when the module was built with [disc_out = ndf]. *)
Theorem MelGANDiscriminator_forward_needs_ndf
    input_dim ndf n_layers disc_out hc m E (h : state) x tx batch L :
  MelGANDiscriminator_init input_dim ndf n_layers disc_out hc = (inr m, E) →
  E `prefix_of` h →
  h !! x = Some tx →
  shape tx = [batch; input_dim; L] → 1 ≤ input_dim → 3 ≤ L → 1 ≤ ndf →
  (∃ r h', MelGANDiscriminator_forward m x h = (inr r, h'))
  ↔ disc_out = ndf.
Proof.
  intros Hinit Hpre Hx Sx Hin HL Hndf.
  destruct (builds_inv _ _ _ _ _
              (MelGANDiscriminator_init_spec _ _ _ _ hc) Hinit)
    as [Hcfg Hlive].
  destruct (builds_inv _ _ _ _ _
              (MelGANDiscriminator_init_channels _ _ _ _ hc) Hinit)
    as [_ Hdo].
  apply extends_prefix in Hpre.
  destruct (MelGAN_cfg_conv_first _ _ _ _ _ Hcfg) as [Hconv _].
  pose proof (MelGANDiscriminator_forward_spec E h m x tx Hconv Hpre Hlive Hx)
    as Hrun.
  split.
  - intros (r & h' & Hcall).
    destruct (run_to_inr _ _ _ _ _ _ _ Hrun Hcall) as (t & Hden & _).
    destruct (decide (disc_out = ndf)) as [|Hne]; [done|].
    destruct (MelGAN_den_mismatch E m _ _ _ _ tx Hcfg Hndf Hdo Hne)
      as [e He].
    congruence.
  - intros ->.
    destruct (MelGAN_den_returns E m _ _ _ tx batch L Hcfg Hlive Sx HL Hin
                Hndf) as (fs & t & Hden & _).
    rewrite Hden in Hrun.
    apply run_to_returns in Hrun as (r & h' & Hcall & _). by exists r, h'.
Qed.

(** X16.  [MelGANDiscriminator.forward] meets [layer_0] first, a convolution
    of kernel size 3 without padding: an input whose channel count is not
    [input_dim] is a channel mismatch, and one of [input_dim] channels with
    fewer than three time steps is too short. *)
Theorem MelGANDiscriminator_forward_input_checks
    input_dim ndf n_layers disc_out hc m E :
  MelGANDiscriminator_init input_dim ndf n_layers disc_out hc = (inr m, E) →
  (∀ (h : state) x tx batch c L,
     E `prefix_of` h → h !! x = Some tx →
     shape tx = [batch; c; L] → c ≠ input_dim →
     (MelGANDiscriminator_forward m x h).1
     = inl (TorchError ChannelMismatch))
  ∧ (∀ (h : state) x tx batch L,
       E `prefix_of` h → h !! x = Some tx →
       shape tx = [batch; input_dim; L] → L < 3 →
       (MelGANDiscriminator_forward m x h).1
       = inl (TorchError InputTooShort)).
Proof.
  intros Hinit.
  destruct (builds_inv _ _ _ _ _
              (MelGANDiscriminator_init_spec _ _ _ _ hc) Hinit)
    as [Hcfg Hlive].
  destruct (MelGAN_cfg_live E m _ _ _ _ Hcfg Hlive)
    as (c0 & mid & c1 & c2 & Hd & C0 & _ & _ & _ & _ & L0 & _).
  destruct C0 as (I0 & _ & K0 & _ & P0).
  assert (∀ (h : state) x tx e,
            E `prefix_of` h → h !! x = Some tx →
            Conv1d_den E c0 tx = inl e →
            (MelGANDiscriminator_forward m x h).1 = inl e) as Hraise.
  { intros h x tx e Hpre Hx He. apply extends_prefix in Hpre.
    unfold MelGANDiscriminator_forward, items. rewrite Hd.
    apply bind_raises. cbn [MelGAN_loop call1]. apply bind_raises.
    cbn [entry_forward Sequential_forward]. apply bind_raises.
    cbn [layer_forward]. by eapply Conv1d_forward_raises. }
  split.
  - intros h x tx batch c L Hpre Hx Sx Hne. eapply Hraise; [done..|].
    eapply Conv1d_den_channels; [done..|]. by rewrite I0.
  - intros h x tx batch L Hpre Hx Sx HL. eapply Hraise; [done..|].
    rewrite <- I0 in Sx.
    eapply Conv1d_den_short; [done..|]. rewrite K0, P0. lia.
Qed.

End Discriminator.

(** * The modules run on concrete inputs *)

(** C6 as stated fails on an empty sequence and on a block without input
    channels: with [L = 0] the padded input (length 2) is shorter than the
    kernel (3) and the first convolution of [Dblock(1, 1, 1)] raises; and
    in [Dblock(0, 4, 3)] the convolution [input_spec] gives a tensor
    without channels, which cannot be added to the four channels that
    [input_cond] gives. *)
Lemma Dblock_forward_zero_sized :
  (∃ d E,
     Dblock_init 1 1 1 start = (inr d, E)
     ∧ with_tensors E [input 0 [1; 1; 0]; input 1 [1; 1; 0]] !! 16
       = Some (input 0 [1; 1; 0])
     ∧ with_tensors E [input 0 [1; 1; 0]; input 1 [1; 1; 0]] !! 17
       = Some (input 1 [1; 1; 0])
     ∧ (Dblock_forward d 16 17
          (with_tensors E [input 0 [1; 1; 0]; input 1 [1; 1; 0]])).1
       = inl (TorchError InputTooShort))
  ∧ (∃ d E,
       Dblock_init 0 4 3 start = (inr d, E)
       ∧ with_tensors E [input 0 [1; 0; 5]; input 1 [1; 3; 5]] !! 16
         = Some (input 0 [1; 0; 5])
       ∧ with_tensors E [input 0 [1; 0; 5]; input 1 [1; 3; 5]] !! 17
         = Some (input 1 [1; 3; 5])
       ∧ (Dblock_forward d 16 17
            (with_tensors E [input 0 [1; 0; 5]; input 1 [1; 3; 5]])).1
         = inl (TorchError NotBroadcastable)).
Proof.
  split; (eexists _, _; split; [lazy; reflexivity|]; vm_compute;
          by repeat split).
Qed.

Lemma Dblock_forward_shapes_witness :
  ∃ d E,
    Dblock_init 2 4 3 start = (inr d, E)
    ∧ Dblock_cfg d 2 4 3
    ∧ out_len 3 1 1 5 = 5
    ∧ ∃ out1 out2 h' t1 t2,
        Dblock_forward d 16 17
          (with_tensors E [input 0 [1; 2; 5]; input 1 [1; 3; 5]])
          = (inr (out1, out2), h')
        ∧ h' !! out1 = Some t1 ∧ h' !! out2 = Some t2
        ∧ shape t1 = [1; 4; 5] ∧ shape t2 = [1; 3; 5].
Proof.
  eexists _, _. split; [lazy; reflexivity|].
  eapply (Dblock_forward_shapes 2 4 3 start _ _ _ 16 17 (input 0 [1; 2; 5])
            (input 1 [1; 3; 5]) 1 5).
  - by vm_compute.
  - apply with_tensors_prefix.
  - by vm_compute.
  - by vm_compute.
  - by vm_compute.
  - by vm_compute.
  - lia.
  - lia.
Defined.

(** C4 as stated fails on an empty sequence. *)
Lemma MSGDiscriminator_forward_empty_sequence :
  ∃ m E,
    MSGDiscriminator_init 1 1 1 start = (inr m, E)
    ∧ with_tensors E [input 0 [1; 1; 0]; input 1 [1; 1; 0]] !! 24
      = Some (input 0 [1; 1; 0])
    ∧ with_tensors E [input 0 [1; 1; 0]; input 1 [1; 1; 0]] !! 25
      = Some (input 1 [1; 1; 0])
    ∧ (MSGDiscriminator_forward m 24 25
         (with_tensors E [input 0 [1; 1; 0]; input 1 [1; 1; 0]])).1
      = inl (TorchError InputTooShort).
Proof.
  eexists _, _. split; [lazy; reflexivity|]. vm_compute. by repeat split.
Qed.

Lemma MSGDiscriminator_forward_chain_witness :
  ∃ m E,
    MSGDiscriminator_init 2 2 3 start = (inr m, E)
    ∧ map fst (items (discriminator m)) = ["layer_1"; "layer_2"]
    ∧ ∃ feats score h' xn yn tfeats tscore,
        MSGDiscriminator_forward m 40 41
          (with_tensors E [input 0 [1; 2; 5]; input 1 [1; 3; 5]])
          = (inr (feats, score), h')
        ∧ MSG_chain E (items (discriminator m))
            (input 0 [1; 2; 5]) (input 1 [1; 3; 5]) = inr (xn, yn, tfeats)
        ∧ length tfeats = 2
        ∧ Forall2 (fun l t => h' !! l = Some t) feats tfeats
        ∧ MSG_score E m xn yn = inr tscore
        ∧ h' !! score = Some tscore
        ∧ shape tscore = [1; 5].
Proof.
  eexists _, _. split; [lazy; reflexivity|].
  eapply (MSGDiscriminator_forward_chain 2 2 3 start _ _ _ 40 41
            (input 0 [1; 2; 5]) (input 1 [1; 3; 5]) 1 5).
  - by vm_compute.
  - apply with_tensors_prefix.
  - by vm_compute.
  - by vm_compute.
  - by vm_compute.
  - by vm_compute.
  - lia.
  - lia.
Defined.

Lemma MSGDiscriminator_feature_count_witness :
  ∃ m E,
    MSGDiscriminator_init 2 4 3 start = (inr m, E)
    ∧ ∃ feats score h',
        MSGDiscriminator_forward m 72 73
          (with_tensors E [input 0 [1; 2; 5]; input 1 [1; 3; 5]])
          = (inr (feats, score), h')
        ∧ length feats = 4 ∧ length feats ≠ 6 ∧ score ∉ feats.
Proof.
  eexists _, _. split; [lazy; reflexivity|].
  lazymatch goal with
  | |- context [MSGDiscriminator_forward ?m _ _ (with_tensors ?E ?k)] =>
      destruct (MSGDiscriminator_feature_count 2 4 3 start m E
                  (with_tensors E k) 72 73
                  (input 0 [1; 2; 5]) (input 1 [1; 3; 5]))
        as [Hcount Hreturns]
  end.
  - by vm_compute.
  - apply with_tensors_prefix.
  - by vm_compute.
  - by vm_compute.
  - destruct (Hreturns 1 5) as (feats & score & h' & Hcall);
      [by vm_compute|by vm_compute|lia|].
    destruct (Hcount feats score h' Hcall) as (Hlen & Hnotin & H4 & _).
    destruct (H4 eq_refl) as [Heq Hne].
    exists feats, score, h'. split; [exact Hcall|]. split; [exact Heq|].
    split; [exact Hne|exact Hnotin].
Defined.

(** C10 as stated fails for a discriminator without channels in [x]:
    [MSGDiscriminator(0, 0, 3)] is built, its head [disc_spec] is a
    convolution from 0 to 1 channels, and on an input without channels it
    gives a tensor without channels, not one of 1 channel. *)
Lemma MSGDiscriminator_head_without_channels :
  ∃ m E a h' t,
    MSGDiscriminator_init 0 0 3 start = (inr m, E)
    ∧ Conv1d_cfg (disc_spec m) (0 * 2 ^ 0) 1 3 1 1
    ∧ with_tensors E [input 0 [1; 0; 5]] !! 8 = Some (input 0 [1; 0; 5])
    ∧ Conv1d_forward (disc_spec m) 8 (with_tensors E [input 0 [1; 0; 5]])
      = (inr a, h')
    ∧ h' !! a = Some t
    ∧ shape t = [1; 0; 5].
Proof.
  eexists _, _, _, _, _. split; [lazy; reflexivity|].
  split; [by vm_compute|]. split; [by vm_compute|].
  split; [lazy; reflexivity|]. split; [lazy; reflexivity|]. by vm_compute.
Qed.

Lemma MSGDiscriminator_channels_witness :
  ∃ m E,
    MSGDiscriminator_init 2 2 3 start = (inr m, E)
    ∧ ∃ feats score h',
        MSGDiscriminator_forward m 40 41
          (with_tensors E [input 0 [1; 2; 5]; input 1 [1; 3; 5]])
        = (inr (feats, score), h')
        ∧ length feats = 2
        ∧ (∃ l t, feats !! 0 = Some l ∧ h' !! l = Some t
                  ∧ shape t = [1; 4; 5])
        ∧ (∃ l t, feats !! 1 = Some l ∧ h' !! l = Some t
                  ∧ shape t = [1; 8; 5]).
Proof.
  eexists _, _. split; [lazy; reflexivity|].
  lazymatch goal with
  | |- context [MSGDiscriminator_forward ?m _ _ (with_tensors ?E ?k)] =>
      edestruct (MSGDiscriminator_channels 2 2 3 start m E)
        as (_ & _ & _ & _ & _ & Hforward);
        [lazy; reflexivity|lia|lia|];
        destruct (Hforward (with_tensors E k) 40 41
                    (input 0 [1; 2; 5]) (input 1 [1; 3; 5]) 1 5)
          as (feats & score & h' & xn & yn & tfeats & Hcall & Hlen & Hfeat
              & _)
  end.
  - apply with_tensors_prefix.
  - by vm_compute.
  - by vm_compute.
  - by vm_compute.
  - by vm_compute.
  - lia.
  - exists feats, score, h'. split; [exact Hcall|]. split; [exact Hlen|].
    split; [apply (Hfeat 1); lia|apply (Hfeat 2); lia].
Defined.

(** C5 as stated fails for [downsampling_factor = 1]: the pooling pad 1
    exceeds half the window and [self.downsample(x)] raises. *)
Lemma MultiMSGDiscriminator_forward_factor_one :
  ∃ m E,
    MultiMSGDiscriminator_init 1 1 1 1 1 start = (inr m, E)
    ∧ with_tensors E [input 0 [1; 1; 4]; input 1 [1; 1; 4]] !! 24
      = Some (input 0 [1; 1; 4])
    ∧ with_tensors E [input 0 [1; 1; 4]; input 1 [1; 1; 4]] !! 25
      = Some (input 1 [1; 1; 4])
    ∧ (MultiMSGDiscriminator_forward m 24 25
         (with_tensors E [input 0 [1; 1; 4]; input 1 [1; 1; 4]])).1
      = inl (TorchError PadTooLarge).
Proof.
  eexists _, _. split; [lazy; reflexivity|]. vm_compute. by repeat split.
Qed.

Lemma MultiMSGDiscriminator_forward_scales_witness :
  ∃ m E,
    MultiMSGDiscriminator_init 3 2 1 2 3 start = (inr m, E)
    ∧ length (model m) = 3
    ∧ ∃ features outputs h',
        MultiMSGDiscriminator_forward m 72 73
          (with_tensors E [input 0 [1; 2; 5]; input 1 [1; 3; 5]])
          = (inr (features, outputs), h')
        ∧ length features = 3 ∧ length outputs = 3.
Proof.
  eexists _, _. split; [lazy; reflexivity|].
  lazymatch goal with
  | |- context [MultiMSGDiscriminator_forward ?m _ _ (with_tensors ?E ?k)] =>
      destruct (MultiMSGDiscriminator_forward_scales 3 2 1 2 3 start m E
                  (with_tensors E k) 72 73
                  (input 0 [1; 2; 5]) (input 1 [1; 3; 5]) 1 5)
        as (Hlen & _ & features & outputs & h' & Hcall & Hf & Ho & _)
  end.
  - by vm_compute.
  - apply with_tensors_prefix.
  - by vm_compute.
  - by vm_compute.
  - by vm_compute.
  - by vm_compute.
  - lia.
  - lia.
  - lia.
  - intros i Hi. destruct i as [|[|[|i]]]; [vm_compute; lia..|].
    exfalso. lia.
  - split; [exact Hlen|]. exists features, outputs, h'.
    split; [exact Hcall|]. split; [exact Hf|exact Ho].
Defined.

(** C3 as stated fails for [downsampling_factor = 4]: the stride of the
    pooling layer is 2, and a sequence of length 100 is reduced to 50. *)
Lemma downsample_stride_is_two :
  ∃ m E t,
    MultiMSGDiscriminator_init 1 1 1 4 1 start = (inr m, E)
    ∧ pool_stride (downsample m) = 2
    ∧ pool_stride (downsample m) ≠ 4
    ∧ avg_pool1d_pure (downsample m) (input 0 [1; 1; 100]) = inr t
    ∧ shape t = [1; 1; 50].
Proof.
  eexists _, _, _. split; [lazy; reflexivity|]. split; [by vm_compute|].
  split; [by vm_compute|]. split; [lazy; reflexivity|by vm_compute].
Qed.

Lemma MultiScaleDiscriminator_forward_raises_witness :
  ∃ m E,
    MultiScaleDiscriminator_init 3 80 4 2 256 start = (inr m, E)
    ∧ MultiScaleDiscriminator_forward m 216
        (with_tensors E [input 0 [1; 80; 16]])
      = (inl TypeError, with_tensors E [input 0 [1; 80; 16]]).
Proof.
  eexists _, _. split; [lazy; reflexivity|].
  eapply (MultiScaleDiscriminator_forward_raises 3 80 4 2 256 start).
  - by vm_compute.
  - lia.
Defined.

Lemma MelGANDiscriminator_forward_mismatch_witness :
  ∃ m E,
    MelGANDiscriminator_init 80 16 3 512 start = (inr m, E)
    ∧ ∃ c h',
        MelGANDiscriminator_forward m 24
          (with_tensors E [input 0 [4; 80; 300]])
        = (inl (TorchError c), h').
Proof.
  eexists _, _. split; [lazy; reflexivity|].
  eapply (MelGANDiscriminator_forward_mismatch 80 16 3 512 start _ _ _ 24
            (input 0 [4; 80; 300])).
  - by vm_compute.
  - lia.
  - lia.
  - apply with_tensors_prefix.
  - by vm_compute.
Defined.

(** With the default configuration the exception is the channel mismatch
    at [layer_4], which receives 16 channels and expects 32. *)
Lemma MelGANDiscriminator_default_fails :
  ∃ m E,
    MelGANDiscriminator_init 80 16 3 512 start = (inr m, E)
    ∧ (MelGANDiscriminator_forward m 24
         (with_tensors E [input 0 [4; 80; 300]])).1
      = inl (TorchError ChannelMismatch).
Proof.
  eexists _, _. split; [lazy; reflexivity|]. by vm_compute.
Qed.

Lemma downsample_length_witness :
  ∃ t, avg_pool1d_pure (downsample_init 2) (input 0 [1; 1; 100]) = inr t
       ∧ shape t = [1; 1; (100 + 2 - 2) / 2 + 1].
Proof.
  destruct (downsample_length (V:=sym) 3 80 4 2 256)
    as (_ & _ & _ & _ & _ & Hpool & _).
  apply (Hpool (input 0 [1; 1; 100]) 1 1 100).
  - by vm_compute.
  - lia.
  - lia.
  - lia.
  - lia.
Defined.

Lemma forward_exceptions_witness :
  (∃ d E,
     Dblock_init 2 4 3 start = (inr d, E)
     ∧ ∃ r, (Dblock_forward d 16 17
               (with_tensors E [input 0 [1; 2; 5]; input 1 [1; 3; 5]])).1
            = inr r)
  ∧ (∃ m E,
       MultiScaleDiscriminator_init 3 80 4 2 256 start = (inr m, E)
       ∧ (MultiScaleDiscriminator_forward m 216
            (with_tensors E [input 0 [1; 80; 16]])).1 = inl TypeError
       ∧ ∀ c, TypeError ≠ TorchError c).
Proof.
  destruct (forward_exceptions (V:=sym)) as (HD & _ & _ & _ & HS).
  split.
  - eexists _, _. split; [lazy; reflexivity|].
    lazymatch goal with
    | |- context [Dblock_forward ?d _ _ (with_tensors ?E ?k)] =>
        destruct (HD 2 4 3 start d E (with_tensors E k)
                    16 17 (input 0 [1; 2; 5]) (input 1 [1; 3; 5]))
          as [_ Hreturns]
    end.
    + by vm_compute.
    + apply with_tensors_prefix.
    + by vm_compute.
    + by vm_compute.
    + apply (Hreturns 1 5); [by vm_compute|by vm_compute|lia|lia].
  - eexists _, _. split; [lazy; reflexivity|].
    lazymatch goal with
    | |- context [MultiScaleDiscriminator_forward ?m _ (with_tensors ?E ?k)] =>
        destruct (HS 3 80 4 2 256 start m E (with_tensors E k) 216)
          as [_ Hraises]
    end.
    + by vm_compute.
    + apply Hraises. lia.
Defined.

(** C8 as stated fails for the [weight] attributes: before a call of
    [Dblock.forward] the attribute [input_spec.weight] is bound to the
    tensor that the constructor made, after it to a tensor that the call
    made. *)
Lemma Dblock_forward_rebinds_weight :
  ∃ d E r h',
    Dblock_init 2 4 3 start = (inr d, E)
    ∧ Dblock_forward d 16 17
        (with_tensors E [input 0 [1; 2; 5]; input 1 [1; 3; 5]])
      = (inr r, h')
    ∧ getattr (weight (input_spec d))
        (attrs (with_tensors E [input 0 [1; 2; 5]; input 1 [1; 3; 5]]))
      = Some 3
    ∧ getattr (weight (input_spec d)) (attrs h') = Some 18.
Proof.
  eexists _, _, _, _. split; [lazy; reflexivity|].
  split; [lazy; reflexivity|]. split; by vm_compute.
Qed.

Lemma forward_is_pure_witness :
  ∃ d E,
    Dblock_init 2 4 3 start = (inr d, E)
    ∧ pure_call deref_pair (Dblock_parameters d) (Dblock_attrs d)
        (Dblock_forward d 16 17)
        (with_tensors E [input 0 [1; 2; 5]; input 1 [1; 3; 5]]).
Proof.
  eexists _, _. split; [lazy; reflexivity|].
  eapply (proj1 (forward_is_pure (V:=sym)) 2 4 3 start).
  - by vm_compute.
  - apply with_tensors_prefix.
  - eexists. reflexivity.
  - eexists. reflexivity.
Defined.

(** ** The further properties on concrete inputs *)

(** The block of the script at the end of the file, [Dblock(80, 160)]. *)
Lemma Dblock_init_parameters_witness :
  ∃ d E,
    Dblock_init 80 160 256 start = (inr d, E)
    ∧ start `prefix_of` E
    ∧ length (Dblock_parameters d) = 12
    ∧ NoDup (Dblock_parameters d)
    ∧ Forall (fun l => length start ≤ l < length E) (Dblock_parameters d)
    ∧ total_params E (Dblock_parameters d)
      = 160 * (3 * 80 + 2) + 160 * (3 * 256 + 2) + 160 * (3 * 160 + 2)
        + 256 * (3 * 160 + 2).
Proof. apply (Dblock_init_parameters 80 160 256 start); lia. Defined.

Lemma MSGDiscriminator_init_parameters_witness :
  ∃ m E,
    MSGDiscriminator_init 80 4 256 start = (inr m, E)
    ∧ start `prefix_of` E
    ∧ length (discriminator m) = 4
    ∧ length (MSG_parameters m) = 4 * 12 + 6
    ∧ NoDup (MSG_parameters m)
    ∧ Forall (fun l => length start ≤ l < length E) (MSG_parameters m).
Proof. apply (MSGDiscriminator_init_parameters 80 4 256 start); lia. Defined.

Lemma MultiMSGDiscriminator_init_parameters_witness :
  ∃ m E,
    MultiMSGDiscriminator_init 3 80 4 2 256 start = (inr m, E)
    ∧ start `prefix_of` E
    ∧ length (model m) = 3
    ∧ length (model_parameters (model m)) = 3 * (4 * 12 + 6)
    ∧ NoDup (model_parameters (model m))
    ∧ Forall (fun l => length start ≤ l < length E)
        (model_parameters (model m)).
Proof.
  apply (MultiMSGDiscriminator_init_parameters 3 80 4 2 256 start); lia.
Defined.

Lemma MelGANDiscriminator_init_parameters_witness :
  ∃ m E,
    MelGANDiscriminator_init 80 16 3 512 start = (inr m, E)
    ∧ start `prefix_of` E
    ∧ map fst (items (mg_discriminator m))
      = map (fun k => "layer_" +:+ pretty k) (seq 0 (3 + 3))
    ∧ length (MelGAN_parameters m) = (3 + 3) * 3
    ∧ NoDup (MelGAN_parameters m)
    ∧ Forall (fun l => length start ≤ l < length E) (MelGAN_parameters m).
Proof.
  apply (MelGANDiscriminator_init_parameters 80 16 3 512 start); lia.
Defined.

Lemma Dblock_forward_broadcast_witness :
  ∃ d E,
    Dblock_init 2 4 3 start = (inr d, E)
    ∧ ∃ out1 out2 h' t1 t2,
        Dblock_forward d 16 17
          (with_tensors E [input 0 [2; 2; 5]; input 1 [1; 3; 5]])
          = (inr (out1, out2), h')
        ∧ h' !! out1 = Some t1 ∧ h' !! out2 = Some t2
        ∧ shape t1 = [2; 4; 5] ∧ shape t2 = [1; 3; 5].
Proof.
  eexists _, _. split; [lazy; reflexivity|].
  eapply (Dblock_forward_broadcast 2 4 3 start _ _ _ 16 17
            (input 0 [2; 2; 5]) (input 1 [1; 3; 5]) 2 1 2 5 5 5).
  - by vm_compute.
  - apply with_tensors_prefix.
  - by vm_compute.
  - by vm_compute.
  - by vm_compute.
  - by vm_compute.
  - lia.
  - lia.
  - lia.
  - by vm_compute.
  - by vm_compute.
Defined.

Lemma Dblock_forward_returns_iff_witness :
  ∃ d E,
    Dblock_init 2 4 3 start = (inr d, E)
    ∧ ((∃ r h',
          Dblock_forward d 16 17
            (with_tensors E [input 0 [2; 2; 5]; input 1 [1; 3; 4]])
          = (inr r, h'))
       ↔ 1 ≤ 2 ∧ 2 = 2 ∧ 3 = 3 ∧ 1 ≤ 5 ∧ 1 ≤ 4
         ∧ is_Some (bdim 2 1) ∧ is_Some (bdim 5 4)).
Proof.
  eexists _, _. split; [lazy; reflexivity|].
  eapply (Dblock_forward_returns_iff 2 4 3 start _ _ _ 16 17
            (input 0 [2; 2; 5]) (input 1 [1; 3; 4]) 2 2 5 1 3 4).
  - by vm_compute.
  - apply with_tensors_prefix.
  - by vm_compute.
  - by vm_compute.
  - by vm_compute.
  - by vm_compute.
Defined.

Lemma Dblock_forward_refused_witness :
  ∃ d E,
    Dblock_init 2 4 3 start = (inr d, E)
    ∧ (1 ≤ 5 → 1 ≤ 4 → bdim 2 1 = None ∨ bdim 5 4 = None →
       (Dblock_forward d 16 17
          (with_tensors E [input 0 [2; 2; 5]; input 1 [1; 3; 4]])).1
       = inl (TorchError NotBroadcastable)).
Proof.
  eexists _, _. split; [lazy; reflexivity|].
  lazymatch goal with
  | |- context [Dblock_forward ?d _ _ (with_tensors ?E ?k)] =>
      destruct (Dblock_forward_refused 2 4 3 start d E (with_tensors E k)
                  16 17 (input 0 [2; 2; 5]) (input 1 [1; 3; 4]) 2 2 5 1 3 4)
        as (_ & _ & _ & _ & Hlast)
  end.
  - by vm_compute.
  - apply with_tensors_prefix.
  - by vm_compute.
  - by vm_compute.
  - by vm_compute.
  - by vm_compute.
  - intros H1 H2 H3. exact (Hlast eq_refl H1 eq_refl H2 H3).
Defined.

Lemma MSGDiscriminator_forward_channel_mismatch_witness :
  ∃ m E,
    MSGDiscriminator_init 2 2 3 start = (inr m, E)
    ∧ (MSGDiscriminator_forward m 40 41
         (with_tensors E [input 0 [1; 5; 7]])).1
      = inl (TorchError ChannelMismatch).
Proof.
  eexists _, _. split; [lazy; reflexivity|].
  eapply (MSGDiscriminator_forward_channel_mismatch 2 2 3 start _ _ _ 40 41
            (input 0 [1; 5; 7]) 1 5 7).
  - by vm_compute.
  - apply with_tensors_prefix.
  - by vm_compute.
  - by vm_compute.
  - lia.
Defined.

Lemma MSGDiscriminator_forward_returns_iff_witness :
  ∃ m E,
    MSGDiscriminator_init 2 2 3 start = (inr m, E)
    ∧ ((∃ r h',
          MSGDiscriminator_forward m 40 41
            (with_tensors E [input 0 [1; 2; 5]; input 1 [1; 3; 5]])
          = (inr r, h'))
       ↔ 2 = 2 ∧ 3 = 3 ∧ 1 ≤ 5).
Proof.
  eexists _, _. split; [lazy; reflexivity|].
  eapply (MSGDiscriminator_forward_returns_iff 2 2 3 start _ _ _ 40 41
            (input 0 [1; 2; 5]) (input 1 [1; 3; 5]) 1 2 3 5).
  - by vm_compute.
  - apply with_tensors_prefix.
  - by vm_compute.
  - by vm_compute.
  - by vm_compute.
  - by vm_compute.
Defined.

Lemma MultiMSGDiscriminator_forward_first_downsample_witness :
  ∃ m E,
    MultiMSGDiscriminator_init 1 2 1 7 3 start = (inr m, E)
    ∧ (7 = 1 →
       (MultiMSGDiscriminator_forward m 24 25
          (with_tensors E [input 0 [1; 2; 4]; input 1 [1; 3; 4]])).1
       = inl (TorchError PadTooLarge))
    ∧ (4 + 2 < 7 →
       (MultiMSGDiscriminator_forward m 24 25
          (with_tensors E [input 0 [1; 2; 4]; input 1 [1; 3; 4]])).1
       = inl (TorchError InputTooShort)).
Proof.
  eexists _, _. split; [lazy; reflexivity|].
  eapply (MultiMSGDiscriminator_forward_first_downsample 1 2 1 7 3 start _ _ _
            24 25 (input 0 [1; 2; 4]) (input 1 [1; 3; 4]) 1 4).
  - by vm_compute.
  - apply with_tensors_prefix.
  - by vm_compute.
  - by vm_compute.
  - by vm_compute.
  - by vm_compute.
  - lia.
  - lia.
  - lia.
Defined.

Lemma MultiMSGDiscriminator_forward_shapes_witness :
  ∃ m E,
    MultiMSGDiscriminator_init 3 2 1 2 3 start = (inr m, E)
    ∧ ∃ features outputs h',
        MultiMSGDiscriminator_forward m 72 73
          (with_tensors E [input 0 [1; 2; 5]; input 1 [1; 3; 5]])
          = (inr (features, outputs), h')
        ∧ length features = 3 ∧ length outputs = 3
        ∧ ∀ i, i < 3 →
            ∃ feats out tout,
              features !! i = Some feats ∧ outputs !! i = Some out
              ∧ h' !! out = Some tout
              ∧ shape tout = [1; scale_len 2 i 5]
              ∧ length feats = 1
              ∧ ∀ k f, feats !! k = Some f →
                  ∃ tf, h' !! f = Some tf
                        ∧ shape tf = [1; 2 * 2 ^ S k; scale_len 2 i 5].
Proof.
  eexists _, _. split; [lazy; reflexivity|].
  eapply (MultiMSGDiscriminator_forward_shapes 3 2 1 2 3 start _ _ _ 72 73
            (input 0 [1; 2; 5]) (input 1 [1; 3; 5]) 1 5).
  - by vm_compute.
  - apply with_tensors_prefix.
  - by vm_compute.
  - by vm_compute.
  - by vm_compute.
  - by vm_compute.
  - lia.
  - lia.
  - lia.
  - intros i Hi. destruct i as [|[|[|i]]]; [vm_compute; lia..|].
    exfalso. lia.
Defined.

Lemma downsample_default_halves_witness :
  ∃ t len,
    downsampled (downsample_init 2) 3 (input 0 [1; 2; 100]) = inr t
    ∧ shape t = [1; 2; len]
    ∧ 1 ≤ len
    ∧ 100 ≤ 2 ^ 3 * len ∧ 2 ^ 3 * len + 2 ≤ 100 + 2 ^ 4.
Proof.
  apply (downsample_default_halves 3 (input 0 [1; 2; 100]) 1 2 100).
  - reflexivity.
  - lia.
  - lia.
Defined.

Lemma MultiMSGDiscriminator_forward_default_factor_witness :
  ∃ m E,
    MultiMSGDiscriminator_init 3 2 1 2 3 start = (inr m, E)
    ∧ ∃ features outputs h',
        MultiMSGDiscriminator_forward m 72 73
          (with_tensors E [input 0 [1; 2; 5]; input 1 [1; 3; 5]])
          = (inr (features, outputs), h')
        ∧ length features = 3 ∧ length outputs = 3
        ∧ ∀ i out, outputs !! i = Some out →
            ∃ tout len,
              h' !! out = Some tout ∧ shape tout = [1; len]
              ∧ 1 ≤ len ∧ 5 ≤ 2 ^ i * len ∧ 2 ^ i * len + 2 ≤ 5 + 2 ^ S i.
Proof.
  eexists _, _. split; [lazy; reflexivity|].
  eapply (MultiMSGDiscriminator_forward_default_factor 3 2 1 3 start _ _ _
            72 73 (input 0 [1; 2; 5]) (input 1 [1; 3; 5]) 1 5).
  - by vm_compute.
  - apply with_tensors_prefix.
  - by vm_compute.
  - by vm_compute.
  - by vm_compute.
  - by vm_compute.
  - lia.
  - lia.
  - lia.
Defined.

Lemma MelGANDiscriminator_forward_returns_witness :
  ∃ m E,
    MelGANDiscriminator_init 2 4 3 4 start = (inr m, E)
    ∧ ∃ feats score h' tscore,
        MelGANDiscriminator_forward m 24
          (with_tensors E [input 0 [1; 2; 20]])
          = (inr (feats, score), h')
        ∧ length feats = 3 + 2
        ∧ h' !! score = Some tscore
        ∧ shape tscore = [1; 1; strided_len 3 (20 - 2) + 2]
        ∧ ∀ f, f ∈ feats →
            ∃ tf l', h' !! f = Some tf ∧ shape tf = [1; 4; l'].
Proof.
  eexists _, _. split; [lazy; reflexivity|].
  eapply (MelGANDiscriminator_forward_returns 2 4 3 start _ _ _ 24
            (input 0 [1; 2; 20]) 1 20).
  - by vm_compute.
  - apply with_tensors_prefix.
  - by vm_compute.
  - by vm_compute.
  - lia.
  - lia.
Defined.

Lemma MelGANDiscriminator_forward_needs_ndf_witness :
  ∃ m E,
    MelGANDiscriminator_init 2 4 3 8 start = (inr m, E)
    ∧ ((∃ r h',
          MelGANDiscriminator_forward m 24
            (with_tensors E [input 0 [1; 2; 20]])
          = (inr r, h'))
       ↔ 8 = 4).
Proof.
  eexists _, _. split; [lazy; reflexivity|].
  eapply (MelGANDiscriminator_forward_needs_ndf 2 4 3 8 start _ _ _ 24
            (input 0 [1; 2; 20]) 1 20).
  - by vm_compute.
  - apply with_tensors_prefix.
  - by vm_compute.
  - by vm_compute.
  - lia.
  - lia.
  - lia.
Defined.

Lemma MelGANDiscriminator_forward_input_checks_witness :
  ∃ m E,
    MelGANDiscriminator_init 2 4 3 4 start = (inr m, E)
    ∧ (MelGANDiscriminator_forward m 24
         (with_tensors E [input 0 [1; 5; 20]])).1
      = inl (TorchError ChannelMismatch)
    ∧ (MelGANDiscriminator_forward m 24
         (with_tensors E [input 0 [1; 2; 2]])).1
      = inl (TorchError InputTooShort).
Proof.
  eexists _, _. split; [lazy; reflexivity|].
  lazymatch goal with
  | |- context [MelGANDiscriminator_forward ?m _ (with_tensors ?E _)] =>
      destruct (MelGANDiscriminator_forward_input_checks 2 4 3 4 start m E)
        as [Hchannels Hshort]
  end.
  - by vm_compute.
  - split.
    + eapply (Hchannels _ 24 (input 0 [1; 5; 20]) 1 5 20).
      * apply with_tensors_prefix.
      * by vm_compute.
      * by vm_compute.
      * lia.
    + eapply (Hshort _ 24 (input 0 [1; 2; 2]) 1 2).
      * apply with_tensors_prefix.
      * by vm_compute.
      * by vm_compute.
      * lia.
Defined.
